(** * go-bloom: a partitioned Bloom filter with a Redis backend

    Shallow embedding of [bloom.go] and [redis.go] (package [bloom]) and the
    properties of the filter that follow from the code.

    - Go's [uint] is a machine word of 32 or 64 bits; it is an integer of
      [Z] reduced modulo [2 ^ uint_bits], the width being a parameter.
    - [float64] is IEEE 754 binary64, taken from the Standard Library's
      [SpecFloat] (precision 53, maximal exponent 1024).
    - The heap holds the objects the code shares by pointer: the FNV hasher
      all the filters of one Bloom filter point to, and the [RedisStorage]
      of each filter.
    - The Redis server is a finite map from keys to bit sets; a connection
      can fail, as decided by a schedule of outcomes that is part of the
      server's state.
    - A run-time panic (division by zero, nil dereference) is [None]. *)

From Stdlib Require Import ZArith List Bool Lia.
From Stdlib Require Import Strings.String Strings.Byte.
From Stdlib Require Import Floats.SpecFloat.
From stdpp Require Import base option list gmap strings pretty.

Local Open Scope Z_scope.

(** ** The Redis server, as far as the code talks to it *)

Module Server.

(** The four commands the package sends. *)
Inductive command :=
| EXISTS (key : string)
| SETBIT (key : string) (offset : Z) (value : bool)
| GETBIT (key : string) (offset : Z)
| EXPIRE (key : string) (seconds : Z).

(** A key holds a bit string, given by the set of the offsets whose bit is
    1, and possibly a time to live. *)
Record entry := Entry { bits : gset Z; ttl : option Z }.

Definition empty_entry : entry := Entry ∅ None.

Definition Z_of_bool (b : bool) : Z := if b then 1 else 0.

(** One command on the database: the new database and the integer reply.
    [SETBIT] creates a missing key and replies with the bit's old value;
    [EXPIRE] with a timeout that is not positive deletes the key. *)
Definition exec (c : command) (d : gmap string entry) : gmap string entry * Z :=
  match c with
  | EXISTS k => (d, Z_of_bool (bool_decide (is_Some (d !! k))))
  | GETBIT k i => (d, Z_of_bool (bool_decide (i ∈ bits (default empty_entry (d !! k)))))
  | SETBIT k i v =>
      let e := default empty_entry (d !! k) in
      (<[k := Entry (if v then {[i]} ∪ bits e else bits e ∖ {[i]}) (ttl e)]> d,
       Z_of_bool (bool_decide (i ∈ bits e)))
  | EXPIRE k s =>
      match d !! k with
      | None => (d, 0)
      | Some e => (if s <=? 0 then delete k d else <[k := Entry (bits e) (Some s)]> d, 1)
      end
  end.

(** A batch of commands, in order; the replies are dropped, as the code
    never reads the replies to what it pipelines. *)
Definition exec_all (cs : list command) (d : gmap string entry) : gmap string entry :=
  fold_left (fun d c => fst (exec c d)) cs d.

(** What happens to one round trip: it is [delivered], or the connection
    breaks after the server has run the first [applied] commands of it. *)
Inductive outcome := delivered | dropped (applied : nat).

(** The server: its database, every command it has run so far, and the
    outcomes of the round trips to come (none left: all delivered). *)
Record server := Build_server {
  db : gmap string entry;
  log : list command;
  faults : list outcome
}.

Inductive error := ConnError.

(** [conn.Do(cmd)]: one command, one reply or an error. A broken round trip
    of a single command runs nothing. *)
Definition Do (c : command) (s : server) : (Z + error) * server :=
  match faults s with
  | dropped _ :: rest => (inr ConnError, Build_server (db s) (log s) rest)
  | _ => let '(d, r) := exec c (db s) in
         (inl r, Build_server d (log s ++ [c]) (tail (faults s)))
  end.

(** [conn.Send(cmd)] for every command of [cs], then [conn.Flush()]. *)
Definition Flush (cs : list command) (s : server) : option error * server :=
  match faults s with
  | dropped n :: rest =>
      (Some ConnError, Build_server (exec_all (take n cs) (db s)) (log s ++ take n cs) rest)
  | _ => (None, Build_server (exec_all cs (db s)) (log s ++ cs) (tail (faults s)))
  end.

(** [GETBIT key offset], read off the database. *)
Definition getbit (k : string) (i : Z) (d : gmap string entry) : bool :=
  bool_decide (i ∈ bits (default empty_entry (d !! k))).

End Server.

Export Server.

(** ** hash/fnv: the 64-bit FNV-1 hash, and encoding/binary *)

Module fnv.

Definition offset64 : Z := 14695981039346656037.
Definition prime64 : Z := 1099511628211.

(** [New64()] and [Reset()]: the state is the running 64-bit hash. *)
Definition New64 : Z := offset64.

(** [Write(data)]: multiply, then xor the byte in. *)
Definition Write (h : Z) (data : list byte) : Z :=
  fold_left (fun h c => Z.lxor ((h * prime64) mod 2 ^ 64) (Z.of_N (Byte.to_N c))) data h.

(** [Sum(nil)]: the eight bytes of the hash, most significant first. *)
Definition Sum (h : Z) : list Z :=
  map (fun i => Z.land (Z.shiftr h (56 - 8 * i)) 255) [0; 1; 2; 3; 4; 5; 6; 7].

(** [binary.BigEndian.Uint32(b)]; it panics on fewer than four bytes. *)
Definition Uint32 (b : list Z) : option Z :=
  match b with
  | b0 :: b1 :: b2 :: b3 :: _ =>
      Some (Z.lor (Z.lor (Z.lor b3 (Z.shiftl b2 8)) (Z.shiftl b1 16)) (Z.shiftl b0 24))
  | _ => None
  end.

End fnv.

(** ** The heap and the monad of the package's functions *)

(** [RedisStorage] of redis.go; [pool] is the connection pool of the one
    server of the model and carries no data. *)
Module RedisStorageT.
Record RedisStorage := Build_RedisStorage {
  key : string;
  size : Z;
  queue : list Z
}.
End RedisStorageT.

Record machine := Build_machine {
  hashers : list Z;                              (* hash.Hash64 objects *)
  stores : list RedisStorageT.RedisStorage;      (* *RedisStorage objects *)
  redis : server
}.

(** A computation reads and writes the machine and may panic. *)
Definition M (A : Type) : Type := machine -> option (A * machine).

Definition ret {A} (a : A) : M A := fun m => Some (a, m).
Definition bind {A B} (c : M A) (k : A -> M B) : M B :=
  fun m => match c m with Some (a, m') => k a m' | None => None end.
Definition panic {A} : M A := fun _ => None.

Declare Scope go_scope.
Delimit Scope go_scope with go.
Notation "x <- c ;; k" := (bind c (fun x => k))
  (at level 100, c at next level, right associativity) : go_scope.
Notation "c ;;; k" := (bind c (fun _ => k))
  (at level 100, right associativity) : go_scope.

(** Lift a round trip on the server to the machine. *)
Definition on_server {A} (f : server -> A * server) : M A :=
  fun m => let '(a, s) := f (redis m) in
           Some (a, Build_machine (hashers m) (stores m) s).

(** A [for ... range] loop without early exit. *)
Fixpoint for_each {A} (body : A -> M unit) (l : list A) : M unit :=
  match l with
  | [] => ret tt
  | x :: l' => bind (body x) (fun _ => for_each body l')
  end.

Local Open Scope go_scope.

(** ** redis.go *)

Module RedisStorage.
Export RedisStorageT.

(** Dereference a [*RedisStorage]; a pointer to nothing panics. *)
Definition load (p : nat) : M RedisStorage :=
  fun m => match stores m !! p with Some s => Some (s, m) | None => None end.

Definition store (p : nat) (s : RedisStorage) : M unit :=
  fun m => Some (tt, Build_machine (hashers m) (<[p := s]> (stores m)) (redis m)).

(** [&store] of a new [RedisStorage]. *)
Definition alloc (s : RedisStorage) : M nat :=
  fun m => Some (length (stores m), Build_machine (hashers m) (stores m ++ [s]) (redis m)).

(** The batch [init] pipelines: one [SETBIT key i 0] for every [i] below
    [size], then [EXPIRE]. *)
Definition init_commands (k : string) (sz expiredAfterSeconds : Z) : list command :=
  ((fun i => SETBIT k i false) <$> seqZ 0 sz) ++ [EXPIRE k expiredAfterSeconds].

(** [init] takes care of settings every bit to 0 in the Redis bitset. *)
Definition init (p : nat) (expiredAfterSeconds : Z) : M (option error) :=
  s <- load p ;;
  on_server (Flush (init_commands (key s) (size s) expiredAfterSeconds)).

(** [NewRedisStorage] creates a Redis backend storage to be used with the
    bloom filter. *)
Definition NewRedisStorage (k : string) (sz expiredAfterSeconds : Z)
  : M (nat * bool * option error) :=
  p <- alloc (Build_RedisStorage k sz []) ;;
  r <- on_server (Do (EXISTS k)) ;;
  match r with
  | inr err => ret (p, false, Some err)
  | inl n =>
      let exists_ := negb (n =? 0) in
      if negb exists_ then
        e <- init p expiredAfterSeconds ;;
        match e with
        | Some err => ret (p, exists_, Some err)
        | None => ret (p, exists_, None)
        end
      else ret (p, exists_, None)
  end.

(** [Append] appends the bit, which is to be saved, to the queue. *)
Definition Append (p : nat) (bit : Z) : M unit :=
  s <- load p ;;
  store p (Build_RedisStorage (key s) (size s) (queue s ++ [bit])).

(** [Save] pushes the bits from the queue to the storage backend, assigning
    the value 1 in the process. The error of [Flush] is dropped. *)
Definition Save (p : nat) : M unit :=
  s <- load p ;;
  if (Z.of_nat (length (queue s)) <=? 0) then ret tt
  else
    _ <- on_server (Flush ((fun bit => SETBIT (key s) bit true) <$> queue s)) ;;
    ret tt.

(** [Exists] checks if the given bit exists in the Redis backend. *)
Definition Exists (p : nat) (bit : Z) : M (bool * option error) :=
  s <- load p ;;
  r <- on_server (Do (GETBIT (key s) bit)) ;;
  match r with
  | inr err => ret (false, Some err)
  | inl bitValue => ret (bitValue =? 1, None)
  end.

End RedisStorage.

(** ** float64, as filterSetup uses it *)

Module float64.

Definition prec : Z := 53.
Definition emax : Z := 1024.

(** [float64(n)] of an unsigned integer: the nearest binary64. *)
Definition of_uint (n : Z) : spec_float := binary_normalize prec emax n 0 false.

Definition div : spec_float -> spec_float -> spec_float := SFdiv prec emax.

(** [math.Ceil(x)]: the least integer value not below [x]; zeros, infinities
    and NaN are returned as they are. *)
Definition Ceil (x : spec_float) : spec_float :=
  match x with
  | S754_finite s m e =>
      if 0 <=? e then x
      else
        let z := if s then - (Z.pos m / 2 ^ (- e)) else - ((- Z.pos m) / 2 ^ (- e)) in
        if z =? 0 then S754_zero s else binary_normalize prec emax z 0 false
  | _ => x
  end.

(** The integer a finite float truncates to (towards zero). *)
Definition trunc (x : spec_float) : option Z :=
  match x with
  | S754_zero _ => Some 0
  | S754_finite s m e =>
      Some (cond_Zopp s (if 0 <=? e then Z.pos m * 2 ^ e else Z.pos m / 2 ^ (- e)))
  | _ => None
  end.

(** [uint(x)]: truncation; where the value cannot be represented Go leaves
    the result to the implementation: [unrepresentable] stands for it. *)
Definition to_uint (uint_bits unrepresentable : Z) (x : spec_float) : Z :=
  match trunc x with
  | Some z => if (0 <=? z) && (z <? 2 ^ uint_bits) then z else unrepresentable
  | None => unrepresentable
  end.

End float64.

(** ** bloom.go *)

Module BF.

(** [filter] represents each and every storage filter. Each hash iteration
    (k) = 1 storage filter. [storage] is an interface value, [None] when
    nil, else a pointer to a [RedisStorage]; [hasher] points to the hasher. *)
Record filter := Build_filter {
  size : Z;
  storage : option nat;
  hasher : nat;
  multiplier : Z
}.

(** [BF] holds all the storage filters. *)
Record BF := Build_BF { filters : list filter }.

(** The methods of the [storage] interface, on an interface value. *)
Definition storage_Append (s : option nat) (bit : Z) : M unit :=
  match s with Some p => RedisStorage.Append p bit | None => panic end.

Definition storage_Save (s : option nat) : M unit :=
  match s with Some p => RedisStorage.Save p | None => panic end.

Definition storage_Exists (s : option nat) (bit : Z) : M (bool * option error) :=
  match s with Some p => RedisStorage.Exists p bit | None => panic end.

(** The methods of [hash.Hash64], on a pointer to the hasher. *)
Definition hasher_New64 : M nat :=
  fun m => Some (length (hashers m),
                 Build_machine (hashers m ++ [fnv.New64]) (stores m) (redis m)).

Definition hasher_update (h : nat) (f : Z -> Z) : M unit :=
  fun m => match hashers m !! h with
           | Some x => Some (tt, Build_machine (<[h := f x]> (hashers m)) (stores m) (redis m))
           | None => None
           end.

Definition hasher_Reset (h : nat) : M unit := hasher_update h (fun _ => fnv.New64).

Definition hasher_Write (h : nat) (data : list byte) : M unit :=
  hasher_update h (fun x => fnv.Write x data).

Definition hasher_Sum (h : nat) : M (list Z) :=
  fun m => match hashers m !! h with
           | Some x => Some (fnv.Sum x, m)
           | None => None
           end.

Definition Uint32 (b : list Z) : M Z :=
  match fnv.Uint32 b with Some x => ret x | None => panic end.

(** [hashValue] takes care of hashing the value that is being stored in
    the bloom filter. *)
Definition hashValue (f : filter) (value : list byte) : M (Z * Z) :=
  hasher_Reset (hasher f) ;;;
  hasher_Write (hasher f) value ;;;
  sum <- hasher_Sum (hasher f) ;;
  a <- Uint32 (take 4 sum) ;;
  b <- Uint32 (take 4 (drop 4 sum)) ;;
  ret (a, b).

(** [hashedValue]: the same body, on a [Value]. *)
Definition hashedValue (f : filter) (value : list byte) : M (Z * Z) :=
  hasher_Reset (hasher f) ;;;
  hasher_Write (hasher f) value ;;;
  sum <- hasher_Sum (hasher f) ;;
  a <- Uint32 (take 4 sum) ;;
  b <- Uint32 (take 4 (drop 4 sum)) ;;
  ret (a, b).

Section Platform.

(** The width of [uint], and what [uint(x)] is for a float it cannot
    represent. *)
Variable uint_bits : Z.
Variable unrepresentable : Z.

Definition wrap (x : Z) : Z := x mod 2 ^ uint_bits.

(** [(a + b*f.multiplier) % f.size], on [uint]; a zero [size] panics. *)
Definition bit_index (f : filter) (a b : Z) : M Z :=
  if size f =? 0 then panic
  else ret (wrap (a + wrap (b * multiplier f)) mod size f).

(** The loop of [filterSetup]: [n] iterations are left, [k] is the counter. *)
Fixpoint filterSetup_loop (n : nat) (k : Z) (partitionSize : Z) (hasher : nat)
    (filters : list filter) : list filter :=
  match n with
  | O => filters
  | S n' =>
      filterSetup_loop n' (wrap (k + 1)) partitionSize hasher
        (filters ++ [Build_filter partitionSize None hasher (wrap (k + 1))])
  end.

(** [filterSetup] is a helper function to generate the required number of
    filters (hash iterations -> k). *)
Definition filterSetup (size hashIter : Z) : M (list filter) :=
  let partitionSize :=
    float64.Ceil (float64.div (float64.of_uint size) (float64.of_uint hashIter)) in
  hasher <- hasher_New64 ;;
  ret (filterSetup_loop (Z.to_nat hashIter) 0
         (float64.to_uint uint_bits unrepresentable partitionSize) hasher []).

(** The loop of [NewRedis] over [bloom.filters], from [index] on. *)
Fixpoint NewRedis_loop (key : string) (expiredAfterSeconds : Z)
    (rest : list filter) (index : nat) (filters : list filter) (exist : bool)
    : M (BF * bool * option error) :=
  match rest with
  | [] => ret (Build_BF filters, exist, None)
  | f :: rest' =>
      r <- RedisStorage.NewRedisStorage (key +:+ "." +:+ pretty (multiplier f))
             (size f) expiredAfterSeconds ;;
      let '(p, exist', err) := r in
      match err with
      | Some e => ret (Build_BF filters, exist', Some e)
      | None =>
          NewRedis_loop key expiredAfterSeconds rest' (S index)
            (<[index := Build_filter (size f) (Some p) (hasher f) (multiplier f)]> filters)
            exist'
      end
  end.

(** [NewRedis] creates and returns a new bloom filter using Redis as a
    backend. *)
Definition NewRedis (key : string) (size hashIter expiredAfterSeconds : Z)
  : M (BF * bool * option error) :=
  filters <- filterSetup size hashIter ;;
  NewRedis_loop key expiredAfterSeconds filters 0 filters false.

(** [Append] is used to append a value to the queue. *)
Definition Append (b : BF) (value : list byte) : M unit :=
  for_each (fun f =>
    ab <- hashValue f value ;;
    i <- bit_index f (fst ab) (snd ab) ;;
    storage_Append (storage f) i) (filters b).

(** [Save] takes care of saving the values from the queue to the correct
    backend. One goroutine per filter, each with a connection of its own,
    all joined before the return. The goroutines are run here one after the
    other in the order of the filters: one schedule of the many the code
    allows. The storages and, every [SETBIT] setting a bit to 1, the
    database are the same under every schedule; the order of the log of the
    server, and which flush a broken round trip falls to, are this
    schedule's. *)
Definition Save (b : BF) : M unit :=
  for_each (fun f => storage_Save (storage f)) (filters b).

(** The loop of [Exists]; [err] is the named result as the last iteration
    left it. *)
Fixpoint Exists_loop (fs : list filter) (value : list byte) (err : option error)
  : M (bool * option error) :=
  match fs with
  | [] => ret (true, err)
  | f :: fs' =>
      ab <- hashValue f value ;;
      i <- bit_index f (fst ab) (snd ab) ;;
      r <- storage_Exists (storage f) i ;;
      if negb (fst r) then ret r else Exists_loop fs' value (snd r)
  end.

(** [Exists] checks if the given value is in the bloom filter or not. False
    positives might occur. *)
Definition Exists (b : BF) (value : list byte) : M (bool * option error) :=
  Exists_loop (filters b) value None.

(** The inner loop of [Exist], for the value at [index]: the slice as the
    loop leaves it, and the error that ended it, if any. *)
Fixpoint Exist_filters (fs : list filter) (value : list byte) (index : nat)
    (exists_ : list bool) : M (list bool * option error) :=
  match fs with
  | [] => ret (exists_, None)
  | f :: fs' =>
      ab <- hashedValue f value ;;
      i <- bit_index f (fst ab) (snd ab) ;;
      r <- storage_Exists (storage f) i ;;
      match snd r with
      | Some e => ret (exists_, Some e)
      | None => Exist_filters fs' value index (<[index := fst r]> exists_)
      end
  end.

(** The outer loop of [Exist]. *)
Fixpoint Exist_values (fs : list filter) (values : list (list byte)) (index : nat)
    (exists_ : list bool) : M (list bool * option error) :=
  match values with
  | [] => ret (exists_, None)
  | value :: values' =>
      r <- Exist_filters fs value index exists_ ;;
      match snd r with
      | Some e => ret r
      | None => Exist_values fs values' (S index) (fst r)
      end
  end.

(** [Exist] checks if the given value is in the bloom filter or not. False
    positives might occur. *)
Definition Exist (b : BF) (values : list (list byte)) : M (list bool * option error) :=
  Exist_values (filters b) values 0 (replicate (length values) false).

(** [Add] is used to append a value to the queue. *)
Definition Add (b : BF) (values : list (list byte)) : M unit :=
  for_each (fun value =>
    for_each (fun f =>
      ab <- hashedValue f value ;;
      i <- bit_index f (fst ab) (snd ab) ;;
      storage_Append (storage f) i) (filters b)) values.

(** [Load]: [Add], then [Save]; the named results [exists] and [err] are
    returned as declared, a nil slice ([None]) and a nil error. *)
Definition Load (b : BF) (values : list (list byte))
  : M (option (list bool) * option error) :=
  Add b values ;;;
  Save b ;;;
  ret (None, None).

End Platform.

End BF.

(** * Properties *)

Import RedisStorageT.
#[local] Set Warnings "-clear-no-such-hyp".

(** ** Reasoning about computations *)

Lemma bind_Some {A B} (c : M A) (k : A -> M B) m r :
  bind c k m = Some r <-> exists a m', c m = Some (a, m') /\ k a m' = Some r.
Proof.
  unfold bind. destruct (c m) as [[a m']|]; split.
  - intros H. exists a, m'. auto.
  - intros (a0 & m0 & [= -> ->] & H). exact H.
  - discriminate.
  - intros (a0 & m0 & [=] & _).
Qed.

Lemma ret_Some {A} (a : A) m r : ret a m = Some r <-> r = (a, m).
Proof. unfold ret. split; [intros [= <-]|intros ->]; reflexivity. Qed.

Ltac inv_M H :=
  lazymatch type of H with
  | bind _ _ _ = Some _ =>
      let a := fresh "a" in let m := fresh "m" in
      let H1 := fresh "H" in let H2 := fresh "H" in
      apply bind_Some in H; destruct H as (a & m & H1 & H2);
      try inv_M H1; try inv_M H2
  | ret _ _ = Some _ => apply ret_Some in H; try (injection H as ?; subst)
  | panic _ = Some _ => discriminate H
  | _ => idtac
  end.

(** What no call on a filter undoes: the objects stay where they are, a
    storage keeps its key and size and its queue only grows at the end, a
    bit that is 1 stays 1, and a connection without faults stays so. *)
Record extends (m m' : machine) : Prop := {
  ext_hashers : length (hashers m') = length (hashers m);
  ext_stores_len : length (stores m') = length (stores m);
  ext_stores : forall p s, stores m !! p = Some s ->
      exists s', stores m' !! p = Some s' /\ key s' = key s /\ size s' = size s /\
                 queue s `prefix_of` queue s';
  ext_db : forall k i, getbit k i (db (redis m)) = true ->
                       getbit k i (db (redis m')) = true;
  ext_faults : faults (redis m) = [] -> faults (redis m') = []
}.

Lemma extends_refl m : extends m m.
Proof. split; try done. intros p s H. exists s. done. Qed.

Lemma extends_trans m1 m2 m3 : extends m1 m2 -> extends m2 m3 -> extends m1 m3.
Proof.
  intros [h1 l1 s1 d1 f1] [h2 l2 s2 d2 f2]. split.
  - congruence.
  - congruence.
  - intros p s H. destruct (s1 p s H) as (s' & H' & K1 & Z1 & Q1).
    destruct (s2 p s' H') as (s'' & H'' & K2 & Z2 & Q2).
    exists s''. repeat split; try congruence. by etrans.
  - auto.
  - auto.
Qed.

Definition preserves {A} (c : M A) : Prop :=
  forall m a m', c m = Some (a, m') -> extends m m'.

Lemma preserves_ret {A} (a : A) : preserves (ret a).
Proof. intros m a' m' H. inv_M H. apply extends_refl. Qed.

Lemma preserves_panic {A} : preserves (@panic A).
Proof. intros m a' m' H. discriminate. Qed.

Lemma preserves_bind {A B} (c : M A) (k : A -> M B) :
  preserves c -> (forall a, preserves (k a)) -> preserves (bind c k).
Proof.
  intros Hc Hk m b m' H. apply bind_Some in H. destruct H as (a & m1 & H1 & H2).
  eapply extends_trans; [eapply Hc|eapply Hk]; eauto.
Qed.

Lemma preserves_for_each {A} (body : A -> M unit) l :
  (forall x, preserves (body x)) -> preserves (for_each body l).
Proof.
  intros Hb. induction l as [|x l IH]; simpl.
  - apply preserves_ret.
  - apply preserves_bind; auto.
Qed.

(** The database under [SETBIT key i 1]. *)
Lemma getbit_setbit k i k' j d :
  getbit k' j (fst (exec (SETBIT k i true) d)) =
  getbit k' j d || bool_decide (k' = k /\ j = i).
Proof.
  apply eq_true_iff_eq. unfold getbit. simpl.
  rewrite orb_true_iff, !bool_decide_eq_true.
  destruct (decide (k' = k)) as [->|Hk].
  - rewrite lookup_insert_eq. simpl. set_solver.
  - rewrite lookup_insert_ne by done. naive_solver.
Qed.

Lemma exec_all_cons c cs d : exec_all (c :: cs) d = exec_all cs (fst (exec c d)).
Proof. reflexivity. Qed.

Lemma exec_all_app cs cs' d : exec_all (cs ++ cs') d = exec_all cs' (exec_all cs d).
Proof. unfold exec_all. apply fold_left_app. Qed.

Definition set_commands (k : string) (q : list Z) : list command :=
  (fun bit => SETBIT k bit true) <$> q.

Lemma getbit_set_commands k q k' j d :
  getbit k' j (exec_all (set_commands k q) d) =
  getbit k' j d || bool_decide (k' = k /\ j ∈ q).
Proof.
  revert d. induction q as [|i q IH]; intros d.
  - simpl. rewrite bool_decide_eq_false_2; [by rewrite orb_false_r|].
    intros [_ H]. by apply elem_of_nil in H.
  - change (set_commands k (i :: q)) with (SETBIT k i true :: set_commands k q).
    rewrite exec_all_cons, IH, getbit_setbit, <- orb_assoc. f_equal.
    apply eq_true_iff_eq. rewrite orb_true_iff, !bool_decide_eq_true, elem_of_cons.
    naive_solver.
Qed.

(** ** The primitive steps preserve [extends] *)

Lemma preserves_hasher_update h f : preserves (BF.hasher_update h f).
Proof.
  intros m a m' H. unfold BF.hasher_update in H.
  destruct (hashers m !! h); [|discriminate]. injection H as _ <-.
  split; simpl; eauto 10. apply length_insert.
Qed.

Lemma preserves_hasher_Sum h : preserves (BF.hasher_Sum h).
Proof.
  intros m a m' H. unfold BF.hasher_Sum in H.
  destruct (hashers m !! h); [|discriminate]. injection H as _ <-.
  apply extends_refl.
Qed.

Lemma preserves_Uint32 b : preserves (BF.Uint32 b).
Proof.
  unfold BF.Uint32. destruct (fnv.Uint32 b); [apply preserves_ret|apply preserves_panic].
Qed.

Lemma preserves_hashValue f v : preserves (BF.hashValue f v).
Proof.
  unfold BF.hashValue, BF.hasher_Reset, BF.hasher_Write.
  repeat (apply preserves_bind; [|intros ?]);
    auto using preserves_hasher_update, preserves_hasher_Sum, preserves_Uint32, preserves_ret.
Qed.

Lemma hashedValue_eq f v : BF.hashedValue f v = BF.hashValue f v.
Proof. reflexivity. Qed.

Lemma preserves_bit_index W f a b : preserves (BF.bit_index W f a b).
Proof.
  unfold BF.bit_index. destruct (BF.size f =? 0); [apply preserves_panic|apply preserves_ret].
Qed.

Lemma load_Some p m s m' :
  RedisStorage.load p m = Some (s, m') <-> stores m !! p = Some s /\ m' = m.
Proof.
  unfold RedisStorage.load. destruct (stores m !! p); split.
  - intros [= -> ->]. auto.
  - intros [[= ->] ->]. auto.
  - discriminate.
  - intros [[=] _].
Qed.

Lemma preserves_RS_Append p bit : preserves (RedisStorage.Append p bit).
Proof.
  intros m a m' H. unfold RedisStorage.Append in H.
  apply bind_Some in H as (s0 & m1 & Hl & H).
  apply load_Some in Hl as [Hs ->]. unfold RedisStorage.store in H.
  injection H as _ <-. split; simpl; auto.
  { apply length_insert. }
  intros q s Hq. destruct (decide (q = p)) as [->|Hne].
  - rewrite list_lookup_insert_eq by (by eapply lookup_lt_Some).
    eexists; split; [reflexivity|]. simpl.
    assert (s = s0) as -> by congruence. repeat split; auto.
    by exists [bit].
  - rewrite list_lookup_insert_ne by done. eauto 10.
Qed.

Lemma db_Flush_set k q s :
  forall k' j, getbit k' j (db s) = true ->
               getbit k' j (db (snd (Flush (set_commands k q) s))) = true.
Proof.
  intros k' j H. unfold Flush.
  destruct (faults s) as [|[|n] rest]; simpl;
    try (rewrite getbit_set_commands, H; reflexivity).
  unfold set_commands. rewrite <- fmap_take. fold (set_commands k (take n q)).
  rewrite getbit_set_commands, H. reflexivity.
Qed.

Lemma faults_Flush cs s : faults s = [] -> faults (snd (Flush cs s)) = [].
Proof. unfold Flush. intros ->. reflexivity. Qed.

Lemma faults_Do c s : faults s = [] -> faults (snd (Do c s)) = [].
Proof. unfold Do. intros ->. simpl. destruct (exec c (db s)). reflexivity. Qed.

Lemma on_server_Some {A} (f : server -> A * server) m a m' :
  on_server f m = Some (a, m') <->
  a = fst (f (redis m)) /\ m' = Build_machine (hashers m) (stores m) (snd (f (redis m))).
Proof.
  unfold on_server. destruct (f (redis m)) as [a0 s0]. simpl. split.
  - intros [= -> ->]. auto.
  - intros [-> ->]. auto.
Qed.

Lemma preserves_RS_Save p : preserves (RedisStorage.Save p).
Proof.
  intros m a m' H. unfold RedisStorage.Save in H.
  apply bind_Some in H as (s0 & m1 & Hl & H).
  apply load_Some in Hl as [Hs ->].
  destruct (Z.of_nat (length (queue s0)) <=? 0).
  - apply ret_Some in H as [= _ <-]. apply extends_refl.
  - apply bind_Some in H as (e & m1 & Hf & H).
    apply ret_Some in H as [= _ <-].
    apply on_server_Some in Hf as [_ ->].
    split; cbn [hashers stores redis].
    + reflexivity.
    + reflexivity.
    + intros q s Hq. exists s. auto.
    + intros k i. apply db_Flush_set.
    + apply faults_Flush.
Qed.

Lemma Do_GETBIT_db k i s : db (snd (Do (GETBIT k i) s)) = db s.
Proof. unfold Do. destruct (faults s) as [|[|n] rest]; reflexivity. Qed.

Lemma preserves_RS_Exists p bit : preserves (RedisStorage.Exists p bit).
Proof.
  intros m a m' H. unfold RedisStorage.Exists in H.
  apply bind_Some in H as (s0 & m1 & Hl & H).
  apply load_Some in Hl as [Hs ->].
  apply bind_Some in H as (r & m1 & Hd & H).
  apply on_server_Some in Hd as [-> ->].
  assert (m' = Build_machine (hashers m) (stores m)
                 (snd (Do (GETBIT (key s0) bit) (redis m)))) as ->.
  { destruct (Do (GETBIT (key s0) bit) (redis m)).1;
      apply ret_Some in H as [= _ <-]; reflexivity. }
  split; cbn [hashers stores redis].
  - reflexivity.
  - reflexivity.
  - intros q s Hq. exists s. auto.
  - intros k i. by rewrite Do_GETBIT_db.
  - apply faults_Do.
Qed.

Lemma preserves_storage_Append s bit : preserves (BF.storage_Append s bit).
Proof. destruct s; [apply preserves_RS_Append|apply preserves_panic]. Qed.

Lemma preserves_storage_Save s : preserves (BF.storage_Save s).
Proof. destruct s; [apply preserves_RS_Save|apply preserves_panic]. Qed.

Lemma preserves_storage_Exists s bit : preserves (BF.storage_Exists s bit).
Proof. destruct s; [apply preserves_RS_Exists|apply preserves_panic]. Qed.

(** ** The hash of a value and the bit a filter derives from it *)

(** The two words [hashValue] returns for the hash [h]. *)
Definition word_a (h : Z) : Z :=
  Z.lor (Z.lor (Z.lor (Z.land (Z.shiftr h 32) 255) (Z.shiftl (Z.land (Z.shiftr h 40) 255) 8))
               (Z.shiftl (Z.land (Z.shiftr h 48) 255) 16))
        (Z.shiftl (Z.land (Z.shiftr h 56) 255) 24).

Definition word_b (h : Z) : Z :=
  Z.lor (Z.lor (Z.lor (Z.land (Z.shiftr h 0) 255) (Z.shiftl (Z.land (Z.shiftr h 8) 255) 8))
               (Z.shiftl (Z.land (Z.shiftr h 16) 255) 16))
        (Z.shiftl (Z.land (Z.shiftr h 24) 255) 24).

(** The 64-bit digest of a value. *)
Definition digest (value : list byte) : Z := fnv.Write fnv.New64 value.

Definition set_hasher (h : nat) (x : Z) (m : machine) : machine :=
  Build_machine (<[h := x]> (hashers m)) (stores m) (redis m).

Lemma Uint32_Sum_a h : fnv.Uint32 (take 4 (fnv.Sum h)) = Some (word_a h).
Proof. reflexivity. Qed.

Lemma Uint32_Sum_b h : fnv.Uint32 (take 4 (drop 4 (fnv.Sum h))) = Some (word_b h).
Proof. reflexivity. Qed.

Lemma hasher_update_Some h g m x :
  hashers m !! h = Some x ->
  BF.hasher_update h g m = Some (tt, set_hasher h (g x) m).
Proof. intros H. unfold BF.hasher_update. rewrite H. reflexivity. Qed.

Lemma set_hasher_lookup h x m :
  (h < length (hashers m))%nat -> hashers (set_hasher h x m) !! h = Some x.
Proof. intros H. unfold set_hasher. cbn [hashers]. by apply list_lookup_insert_eq. Qed.

Lemma set_hasher_set_hasher h x y m :
  set_hasher h y (set_hasher h x m) = set_hasher h y m.
Proof. unfold set_hasher. cbn [hashers stores redis]. by rewrite list_insert_insert_eq. Qed.

Lemma set_hasher_length h x m : length (hashers (set_hasher h x m)) = length (hashers m).
Proof. unfold set_hasher. cbn [hashers]. apply length_insert. Qed.

Lemma hashValue_Some f v m :
  (BF.hasher f < length (hashers m))%nat ->
  BF.hashValue f v m =
  Some ((word_a (digest v), word_b (digest v)), set_hasher (BF.hasher f) (digest v) m).
Proof.
  intros Hv. destruct (lookup_lt_is_Some_2 _ _ Hv) as [x Hx].
  unfold BF.hashValue, BF.hasher_Reset, BF.hasher_Write.
  unfold bind at 1. rewrite (hasher_update_Some _ _ _ _ Hx).
  unfold bind at 1.
  rewrite (hasher_update_Some _ _ _ fnv.New64) by (by apply set_hasher_lookup).
  rewrite set_hasher_set_hasher. fold (digest v).
  unfold bind at 1. unfold BF.hasher_Sum.
  rewrite set_hasher_lookup by done.
  unfold bind at 1. unfold BF.Uint32 at 1. rewrite Uint32_Sum_a.
  unfold ret at 1. unfold bind at 1. unfold BF.Uint32 at 1. rewrite Uint32_Sum_b.
  reflexivity.
Qed.

Lemma hashValue_None f v m :
  (length (hashers m) <= BF.hasher f)%nat -> BF.hashValue f v m = None.
Proof.
  intros Hv. apply lookup_ge_None_2 in Hv.
  unfold BF.hashValue, BF.hasher_Reset, bind, BF.hasher_update. by rewrite Hv.
Qed.

(** ** Inserting, flushing and looking up one value *)

Section OneValue.
Variable W : Z.

(** The bit a filter derives from a value. *)
Definition index_of (f : BF.filter) (v : list byte) : Z :=
  BF.wrap W (word_a (digest v) + BF.wrap W (word_b (digest v) * BF.multiplier f))
    mod BF.size f.

(** The body of the loops of [Append] and [Add]. *)
Definition insert_step (v : list byte) (f : BF.filter) : M unit :=
  bind (BF.hashValue f v) (fun ab =>
  bind (BF.bit_index W f (fst ab) (snd ab)) (fun i =>
  BF.storage_Append (BF.storage f) i)).

Definition push (bit : Z) (s : RedisStorage) : RedisStorage :=
  Build_RedisStorage (key s) (size s) (queue s ++ [bit]).

Lemma bit_index_Some f a b m r :
  BF.bit_index W f a b m = Some r <->
  BF.size f <> 0 /\
  r = (BF.wrap W (a + BF.wrap W (b * BF.multiplier f)) mod BF.size f, m).
Proof.
  unfold BF.bit_index. destruct (Z.eqb_spec (BF.size f) 0) as [E|E].
  - split; [discriminate|tauto].
  - unfold ret. split; [intros [= <-]; auto|intros [_ ->]; auto].
Qed.

Lemma RS_Append_Some p bit m r :
  RedisStorage.Append p bit m = Some r <->
  exists s, stores m !! p = Some s /\
    r = (tt, Build_machine (hashers m) (<[p := push bit s]> (stores m)) (redis m)).
Proof.
  unfold RedisStorage.Append. rewrite bind_Some. split.
  - intros (s & m1 & Hl & H). apply load_Some in Hl as [Hs ->].
    exists s. split; [done|]. unfold RedisStorage.store in H. by injection H as <-.
  - intros (s & Hs & ->). exists s, m. split; [by apply load_Some|reflexivity].
Qed.

Lemma insert_step_Some v f m m' :
  insert_step v f m = Some (tt, m') <->
  (BF.hasher f < length (hashers m))%nat /\ BF.size f <> 0 /\
  exists p s, BF.storage f = Some p /\ stores m !! p = Some s /\
    m' = Build_machine (<[BF.hasher f := digest v]> (hashers m))
           (<[p := push (index_of f v) s]> (stores m)) (redis m).
Proof.
  unfold insert_step. rewrite bind_Some. split.
  - intros ([a b] & m1 & Hh & H).
    destruct (decide (BF.hasher f < length (hashers m))%nat) as [Hv|Hv];
      [|rewrite hashValue_None in Hh by lia; discriminate].
    rewrite hashValue_Some in Hh by done. injection Hh as <- <- <-.
    apply bind_Some in H as (i & m2 & Hi & H).
    apply bit_index_Some in Hi as [Hz [= -> ->]].
    destruct (BF.storage f) as [p|] eqn:Hst; [|discriminate].
    apply RS_Append_Some in H as (s & Hs & [= ->]).
    split; [done|]. split; [done|]. exists p, s. auto.
  - intros (Hv & Hz & p & s & Hst & Hs & ->).
    eexists _, _. split; [by apply hashValue_Some|].
    apply bind_Some. eexists _, _. split; [apply bit_index_Some; eauto|].
    rewrite Hst. apply RS_Append_Some. exists s. auto.
Qed.

Lemma preserves_insert_step v f : preserves (insert_step v f).
Proof.
  unfold insert_step.
  apply preserves_bind; [apply preserves_hashValue|intros ab].
  apply preserves_bind; [apply preserves_bit_index|intros i].
  apply preserves_storage_Append.
Qed.

(** A filter the calls can work with: it has a hasher, a storage and a
    size that is not zero. *)
Definition usable (m : machine) (f : BF.filter) : Prop :=
  (BF.hasher f < length (hashers m))%nat /\ BF.size f <> 0 /\
  exists p, BF.storage f = Some p /\ (p < length (stores m))%nat.

(** The bit of [v] in the queue of the filter's storage, and in the
    database under the storage's key. *)
Definition queued (v : list byte) (m : machine) (f : BF.filter) : Prop :=
  exists p s, BF.storage f = Some p /\ stores m !! p = Some s /\
              index_of f v ∈ queue s.

Definition stored (v : list byte) (m : machine) (f : BF.filter) : Prop :=
  exists p s, BF.storage f = Some p /\ stores m !! p = Some s /\
              getbit (key s) (index_of f v) (db (redis m)) = true.

Lemma usable_extends m m' f : extends m m' -> usable m f <-> usable m' f.
Proof.
  intros E. unfold usable.
  rewrite (ext_hashers _ _ E), (ext_stores_len _ _ E). tauto.
Qed.

Lemma queued_extends v m m' f : extends m m' -> queued v m f -> queued v m' f.
Proof.
  intros E (p & s & Hp & Hs & Hq).
  destruct (ext_stores _ _ E p s Hs) as (s' & Hs' & _ & _ & [l Hsub]).
  exists p, s'. split; [done|]. split; [done|]. rewrite Hsub. apply elem_of_app. by left.
Qed.

Lemma stored_extends v m m' f : extends m m' -> stored v m f -> stored v m' f.
Proof.
  intros E (p & s & Hp & Hs & Hq).
  destruct (ext_stores _ _ E p s Hs) as (s' & Hs' & Hk & _ & _).
  exists p, s'. rewrite Hk. split; [done|]. split; [done|].
  by apply (ext_db _ _ E).
Qed.

Lemma insert_step_queued v f m m' :
  insert_step v f m = Some (tt, m') -> usable m f /\ queued v m' f.
Proof.
  intros H. apply insert_step_Some in H as (Hv & Hz & p & s & Hst & Hs & ->).
  split.
  - split; [done|]. split; [done|]. exists p. split; [done|]. by eapply lookup_lt_Some.
  - exists p, (push (index_of f v) s). split; [done|]. cbn [stores]. split.
    + apply list_lookup_insert_eq. by eapply lookup_lt_Some.
    + unfold push. cbn [queue]. apply elem_of_app. right. apply list_elem_of_singleton. done.
Qed.

Lemma insert_all_queued v fs m m' :
  for_each (insert_step v) fs m = Some (tt, m') ->
  forall f, f ∈ fs -> usable m f /\ queued v m' f.
Proof.
  revert m. induction fs as [|g fs IH]; intros m H f Hf.
  - by apply elem_of_nil in Hf.
  - cbn [for_each] in H. apply bind_Some in H as ([] & m1 & H1 & H2).
    pose proof (preserves_insert_step _ _ _ _ _ H1) as E1.
    pose proof (preserves_for_each _ fs (preserves_insert_step v) _ _ _ H2) as E2.
    apply elem_of_cons in Hf as [->|Hf].
    + apply insert_step_queued in H1 as [Hu Hq]. split; [done|].
      by eapply queued_extends.
    + destruct (IH _ H2 f Hf) as [Hu Hq]. split; [|done].
      by eapply usable_extends.
Qed.
End OneValue.

(** ** Flushing *)

Lemma length_le_0 {A} (q : list A) : (Z.of_nat (length q) <=? 0) = bool_decide (q = []).
Proof. destruct q; reflexivity. Qed.

Definition flushed (s : RedisStorage) (m : machine) : machine :=
  if bool_decide (queue s = []) then m
  else Build_machine (hashers m) (stores m)
         (snd (Flush (set_commands (key s) (queue s)) (redis m))).

Lemma RS_Save_Some p m r :
  RedisStorage.Save p m = Some r <->
  exists s, stores m !! p = Some s /\ r = (tt, flushed s m).
Proof.
  unfold RedisStorage.Save. rewrite bind_Some. unfold flushed. split.
  - intros (s & m1 & Hl & H). apply load_Some in Hl as [Hs ->]. exists s.
    split; [done|]. rewrite length_le_0 in H. fold (set_commands (key s) (queue s)) in H.
    destruct (bool_decide (queue s = [])).
    + by apply ret_Some in H.
    + apply bind_Some in H as (e & m1 & Hf & H). apply ret_Some in H as ->.
      by apply on_server_Some in Hf as [_ ->].
  - intros (s & Hs & ->). exists s, m. split; [by apply load_Some|].
    rewrite length_le_0. fold (set_commands (key s) (queue s)).
    destruct (bool_decide (queue s = [])); [reflexivity|].
    apply bind_Some. eexists _, _. split; [by apply on_server_Some|reflexivity].
Qed.

Lemma stores_flushed s m : stores (flushed s m) = stores m.
Proof. unfold flushed. by destruct (bool_decide _). Qed.

Lemma db_Flush_delivered cs s :
  faults s = [] -> db (snd (Flush cs s)) = exec_all cs (db s).
Proof. unfold Flush. intros ->. reflexivity. Qed.

Section Flushing.
Variable W : Z.

Lemma preserves_save_step (f : BF.filter) : preserves (BF.storage_Save (BF.storage f)).
Proof. apply preserves_storage_Save. Qed.

(** ** Looking up *)

Lemma RS_Exists_delivered p bit m s :
  stores m !! p = Some s -> faults (redis m) = [] ->
  RedisStorage.Exists p bit m =
  Some ((getbit (key s) bit (db (redis m)), None),
        Build_machine (hashers m) (stores m)
          (Build_server (db (redis m)) (log (redis m) ++ [GETBIT (key s) bit]) [])).
Proof.
  intros Hs Hf. unfold RedisStorage.Exists.
  unfold bind at 1. unfold RedisStorage.load. rewrite Hs.
  unfold bind at 1. unfold on_server, Do. rewrite Hf. cbn [exec tail].
  unfold ret, getbit. by destruct (bool_decide _).
Qed.

End Flushing.

(** ** What a batch of [SETBIT key i 1] does to the database *)

Lemma exec_all_set_commands k q d :
  q <> [] ->
  exec_all (set_commands k q) d =
  <[k := Entry (list_to_set q ∪ bits (default empty_entry (d !! k)))
            (ttl (default empty_entry (d !! k)))]> d.
Proof.
  revert d. induction q as [|i q IH]; intros d Hq; [done|].
  change (set_commands k (i :: q)) with (SETBIT k i true :: set_commands k q).
  rewrite exec_all_cons. cbn [exec fst].
  destruct q as [|j q].
  - cbn [set_commands fmap list_fmap exec_all fold_left]. f_equal. f_equal. set_solver.
  - rewrite IH by done. rewrite lookup_insert_eq. cbn [default bits ttl].
    rewrite insert_insert_eq. f_equal. f_equal. set_solver.
Qed.

Lemma exec_all_set_commands_twice k q d :
  exec_all (set_commands k q) (exec_all (set_commands k q) d) =
  exec_all (set_commands k q) d.
Proof.
  destruct (decide (q = [])) as [->|Hq]; [reflexivity|].
  rewrite !exec_all_set_commands by done.
  rewrite lookup_insert_eq. cbn [default bits ttl].
  rewrite insert_insert_eq. f_equal. f_equal. set_solver.
Qed.

(** ** The queue of a storage across [Save] *)

Definition claim_C3_machine : machine :=
  Build_machine [] [Build_RedisStorage "bf.1" 8 [3]] (Build_server ∅ [] []).

Lemma flushed_faults s m : faults (redis m) = [] -> faults (redis (flushed s m)) = [].
Proof.
  intros H. unfold flushed. destruct (bool_decide _); [done|].
  cbn [redis]. by apply faults_Flush.
Qed.

Lemma log_Flush_delivered cs s :
  faults s = [] -> log (snd (Flush cs s)) = log s ++ cs.
Proof. unfold Flush. intros ->. reflexivity. Qed.

Lemma log_flushed s m :
  faults (redis m) = [] ->
  log (redis (flushed s m)) = log (redis m) ++ set_commands (key s) (queue s).
Proof.
  intros H. unfold flushed. destruct (bool_decide_reflect (queue s = [])) as [E|E].
  - rewrite E. cbn. by rewrite app_nil_r.
  - cbn [redis]. by apply log_Flush_delivered.
Qed.

Lemma db_flushed s m :
  faults (redis m) = [] ->
  db (redis (flushed s m)) = exec_all (set_commands (key s) (queue s)) (db (redis m)).
Proof.
  intros H. unfold flushed. destruct (bool_decide_reflect (queue s = [])) as [E|E].
  - rewrite E. reflexivity.
  - cbn [redis]. by apply db_Flush_delivered.
Qed.

(** C3, as the code has it: [RedisStorage.Save] leaves the queue, and every
    storage, as it was, whether the flush is delivered or not, and so does
    the [Save] after it. When the round trips are delivered it sends one
    [SETBIT key bit 1] for every queued index, and the next [Save] sends
    the same batch again, which leaves the database as it is. *)
Theorem Save_keeps_the_queue (p : nat) (m m' : machine) :
  RedisStorage.Save p m = Some (tt, m') ->
  stores m' = stores m /\
  (exists m'', RedisStorage.Save p m' = Some (tt, m'') /\ stores m'' = stores m) /\
  (faults (redis m) = [] ->
   exists s, stores m !! p = Some s /\
     log (redis m') = log (redis m) ++ set_commands (key s) (queue s) /\
     exists m'', RedisStorage.Save p m' = Some (tt, m'') /\
       log (redis m'') = log (redis m') ++ set_commands (key s) (queue s) /\
       db (redis m'') = db (redis m')).
Proof.
  intros H. apply RS_Save_Some in H as (s & Hs & [= ->]).
  assert (H2 : RedisStorage.Save p (flushed s m) = Some (tt, flushed s (flushed s m))).
  { apply RS_Save_Some. exists s. by rewrite stores_flushed. }
  split; [apply stores_flushed|]. split.
  - eexists. split; [exact H2|]. by rewrite !stores_flushed.
  - intros Hf. exists s. split; [done|]. split; [by apply log_flushed|].
    eexists. split; [exact H2|].
    split; [apply log_flushed; by apply flushed_faults|].
    rewrite db_flushed by (by apply flushed_faults).
    rewrite db_flushed by done. apply exec_all_set_commands_twice.
Qed.

(** A flush that breaks after the first of two commands: the queue is kept. *)
Definition claim_C3_broken_machine : machine :=
  Build_machine [] [Build_RedisStorage "bf.1" 8 [3; 5]] (Build_server ∅ [] [dropped 1]).

Lemma Save_keeps_the_queue_witness :
  exists m', RedisStorage.Save 0 claim_C3_broken_machine = Some (tt, m') /\
    queue <$> stores m' !! 0%nat = Some [3; 5] /\
    log (redis m') = [SETBIT "bf.1" 3 true].
Proof.
  eexists. split; [reflexivity|].
  rewrite (proj1 (Save_keeps_the_queue 0 claim_C3_broken_machine _ eq_refl)).
  split; reflexivity.
Defined.

(** C3, as the claim states it, fails: after a delivered flush the queue
    still holds the index 3, and the next flush sends it again. *)
Lemma Save_does_not_clear_the_queue :
  exists m', RedisStorage.Save 0 claim_C3_machine = Some (tt, m') /\
    faults (redis claim_C3_machine) = [] /\
    queue <$> stores m' !! 0%nat = Some [3] /\
    exists m'', RedisStorage.Save 0 m' = Some (tt, m'') /\
      log (redis m') = [SETBIT "bf.1" 3 true] /\
      log (redis m'') = [SETBIT "bf.1" 3 true; SETBIT "bf.1" 3 true].
Proof.
  eexists. split; [reflexivity|]. split; [reflexivity|]. split; [reflexivity|].
  eexists. split; [reflexivity|]. split; reflexivity.
Qed.

(** ** [Load], [Add] and [Append] *)

Lemma Append_unfold W b v : BF.Append W b v = for_each (insert_step W v) (BF.filters b).
Proof. reflexivity. Qed.

Lemma Add_unfold W b vs :
  BF.Add W b vs = for_each (fun v => for_each (insert_step W v) (BF.filters b)) vs.
Proof. reflexivity. Qed.

(** [Add] of a sequence is [Append] of its values, one after the other. *)
Lemma Add_Append W b vs : BF.Add W b vs = for_each (BF.Append W b) vs.
Proof. reflexivity. Qed.

(** C10: whatever the filter holds, [Load] panics or returns a nil slice and
    a nil error. *)
Theorem Load_returns_nil (W : Z) (b : BF.BF) (values : list (list byte)) (m : machine) :
  BF.Load W b values m = None \/
  exists m', BF.Load W b values m = Some ((None, None), m').
Proof.
  unfold BF.Load, bind.
  destruct (BF.Add W b values m) as [[[] m1]|]; [|by left].
  destruct (BF.Save b m1) as [[[] m2]|]; [|by left].
  right. exists m2. reflexivity.
Qed.

(** C8: the machine [Load] leaves is the one [Add] followed by [Save] leaves
    (and [Load] panics when they do). *)
Theorem Load_is_Add_then_Save (W : Z) (b : BF.BF) (values : list (list byte)) (m : machine) :
  snd <$> BF.Load W b values m =
  snd <$> bind (BF.Add W b values) (fun _ => BF.Save b) m.
Proof.
  unfold BF.Load, bind.
  destruct (BF.Add W b values m) as [[[] m1]|]; [|reflexivity].
  destruct (BF.Save b m1) as [[[] m2]|]; reflexivity.
Qed.

(** ** The lookup of one filter, and the loop of [Exists] *)

Lemma RS_Exists_dropped p bit m s n rest :
  stores m !! p = Some s -> faults (redis m) = dropped n :: rest ->
  RedisStorage.Exists p bit m =
  Some ((false, Some ConnError),
        Build_machine (hashers m) (stores m)
          (Build_server (db (redis m)) (log (redis m)) rest)).
Proof.
  intros Hs Hf. unfold RedisStorage.Exists.
  unfold bind at 1. unfold RedisStorage.load. rewrite Hs.
  unfold bind at 1. unfold on_server, Do. rewrite Hf. reflexivity.
Qed.

Lemma RS_Exists_sent p bit m s :
  stores m !! p = Some s ->
  (forall n rest, faults (redis m) <> dropped n :: rest) ->
  RedisStorage.Exists p bit m =
  Some ((getbit (key s) bit (db (redis m)), None),
        Build_machine (hashers m) (stores m)
          (Build_server (db (redis m)) (log (redis m) ++ [GETBIT (key s) bit])
             (tail (faults (redis m))))).
Proof.
  intros Hs Hf. unfold RedisStorage.Exists.
  unfold bind at 1. unfold RedisStorage.load. rewrite Hs.
  unfold bind at 1. unfold on_server, Do.
  destruct (faults (redis m)) as [|[|n] rest] eqn:E;
    try (by destruct (Hf n rest));
    cbn [exec tail]; unfold ret, getbit; by destruct (bool_decide _).
Qed.

Section Lookup.
Variable W : Z.

(** The body of the loop of [Exists]: the lookup of one filter. *)
Definition query (v : list byte) (f : BF.filter) : M (bool * option error) :=
  bind (BF.hashValue f v) (fun ab =>
  bind (BF.bit_index W f (fst ab) (snd ab)) (fun i =>
  BF.storage_Exists (BF.storage f) i)).

Lemma Exists_loop_cons f fs v err m :
  BF.Exists_loop W (f :: fs) v err m =
  bind (query v f) (fun r =>
    if negb (fst r) then ret r else BF.Exists_loop W fs v (snd r)) m.
Proof.
  cbn [BF.Exists_loop]. unfold query, bind.
  destruct (BF.hashValue f v m) as [[ab m1]|]; [|reflexivity].
  destruct (BF.bit_index W f ab.1 ab.2 m1) as [[i m2]|]; reflexivity.
Qed.

Lemma query_Some v f m p :
  (BF.hasher f < length (hashers m))%nat -> BF.size f <> 0 ->
  BF.storage f = Some p ->
  query v f m =
  RedisStorage.Exists p (index_of W f v) (set_hasher (BF.hasher f) (digest v) m).
Proof.
  intros Hv Hz Hp. unfold query.
  unfold bind at 1. rewrite hashValue_Some by done.
  unfold bind at 1. cbn [fst snd].
  assert (Hi : BF.bit_index W f (word_a (digest v)) (word_b (digest v))
                 (set_hasher (BF.hasher f) (digest v) m) =
               Some (index_of W f v, set_hasher (BF.hasher f) (digest v) m))
    by (by apply bit_index_Some).
  rewrite Hi, Hp. reflexivity.
Qed.

(** The loop over [pre ++ post] runs [post] only when every filter of [pre]
    reported its bit. *)
Lemma Exists_loop_app pre post v err m :
  BF.Exists_loop W (pre ++ post) v err m =
  match BF.Exists_loop W pre v err m with
  | Some ((true, e), m1) => BF.Exists_loop W post v e m1
  | r => r
  end.
Proof.
  revert err m. induction pre as [|f pre IH]; intros err m; [reflexivity|].
  rewrite <- app_comm_cons, !Exists_loop_cons. unfold bind.
  destruct (query v f m) as [[[[] e] m1]|]; cbn [fst snd negb]; [apply IH|done|done].
Qed.
End Lookup.

(** C5: once the filters before [f] have reported their bits, the lookup of
    [f] decides the call. A broken round trip returns [false] with the
    error, a delivered one that finds the bit unset returns [false] without
    error; either way nothing is asked of the filters after [f]: the log of
    the server ends with the query of [f], or is as it was when the round
    trip broke. *)
Theorem Exists_stops_at_first_false (W : Z) (pre post : list BF.filter) (f : BF.filter)
    (v : list byte) (m m1 : machine) (e0 : option error) (p : nat) (s : RedisStorage) :
  BF.Exists_loop W pre v None m = Some ((true, e0), m1) ->
  (BF.hasher f < length (hashers m1))%nat -> BF.size f <> 0 ->
  BF.storage f = Some p -> stores m1 !! p = Some s ->
  (forall n rest, faults (redis m1) = dropped n :: rest ->
     exists m2,
       BF.Exists W (BF.Build_BF (pre ++ f :: post)) v m =
         Some ((false, Some ConnError), m2) /\
       log (redis m2) = log (redis m1) /\ faults (redis m2) = rest) /\
  ((forall n rest, faults (redis m1) <> dropped n :: rest) ->
   getbit (key s) (index_of W f v) (db (redis m1)) = false ->
     exists m2,
       BF.Exists W (BF.Build_BF (pre ++ f :: post)) v m = Some ((false, None), m2) /\
       log (redis m2) = log (redis m1) ++ [GETBIT (key s) (index_of W f v)]).
Proof.
  intros Hpre Hv Hz Hp Hs. unfold BF.Exists. cbn [BF.filters].
  rewrite Exists_loop_app, Hpre, Exists_loop_cons. unfold bind.
  rewrite (query_Some W v f m1 p) by done.
  split.
  - intros n rest Hf.
    rewrite (RS_Exists_dropped p _ _ s n rest) by done.
    cbn [fst negb]. eexists. split; [reflexivity|]. split; reflexivity.
  - intros Hf Hb.
    rewrite (RS_Exists_sent p _ _ s) by done.
    cbn [redis set_hasher]. rewrite Hb. cbn [fst negb].
    eexists. split; [reflexivity|]. reflexivity.
Qed.

Definition claim_C5_filters : list BF.filter :=
  [BF.Build_filter 8 (Some 0%nat) 0 1; BF.Build_filter 8 (Some 1%nat) 0 2].

Definition claim_C5_machine (fs : list outcome) : machine :=
  Build_machine [fnv.New64]
    [Build_RedisStorage "bf.1" 8 []; Build_RedisStorage "bf.2" 8 []]
    (Build_server ∅ [] fs).

Lemma Exists_stops_at_first_false_witness :
  (exists m2,
     BF.Exists 64 (BF.Build_BF claim_C5_filters) (list_byte_of_string "alpha")
       (claim_C5_machine [dropped 0]) = Some ((false, Some ConnError), m2) /\
     log (redis m2) = [] /\ faults (redis m2) = []) /\
  (exists m2,
     BF.Exists 64 (BF.Build_BF claim_C5_filters) (list_byte_of_string "alpha")
       (claim_C5_machine []) = Some ((false, None), m2) /\
     log (redis m2) = [GETBIT "bf.1" 0]).
Proof.
  split.
  - apply (proj1 (Exists_stops_at_first_false 64 [] [BF.Build_filter 8 (Some 1%nat) 0 2]
             (BF.Build_filter 8 (Some 0%nat) 0 1) (list_byte_of_string "alpha")
             (claim_C5_machine [dropped 0]) (claim_C5_machine [dropped 0]) None 0%nat
             (Build_RedisStorage "bf.1" 8 [])
             eq_refl ltac:(simpl; lia) ltac:(simpl; lia) eq_refl eq_refl) 0%nat []).
    reflexivity.
  - apply (proj2 (Exists_stops_at_first_false 64 [] [BF.Build_filter 8 (Some 1%nat) 0 2]
             (BF.Build_filter 8 (Some 0%nat) 0 1) (list_byte_of_string "alpha")
             (claim_C5_machine []) (claim_C5_machine []) None 0%nat
             (Build_RedisStorage "bf.1" 8 [])
             eq_refl ltac:(simpl; lia) ltac:(simpl; lia) eq_refl eq_refl)).
    + intros n rest H. discriminate H.
    + vm_compute. reflexivity.
Defined.

(** ** Constructing a storage *)

(** Commands that set no bit. *)
Definition clears (c : command) : Prop :=
  match c with
  | SETBIT _ _ true => False
  | _ => True
  end.

Lemma getbit_exec_clears c d k j :
  clears c -> getbit k j (fst (exec c d)) = true -> getbit k j d = true.
Proof.
  unfold getbit. destruct c as [k'|k' i [|]|k' i|k' s]; cbn [exec fst clears]; try done.
  - intros _. rewrite !bool_decide_eq_true.
    destruct (decide (k = k')) as [->|Hk].
    + rewrite lookup_insert_eq. cbn [default bits]. set_solver.
    + by rewrite lookup_insert_ne.
  - intros _. destruct (d !! k') as [e|] eqn:E; cbn [fst]; [|done].
    rewrite !bool_decide_eq_true.
    destruct (s <=? 0); destruct (decide (k = k')) as [->|Hk].
    + rewrite lookup_delete_eq. cbn. set_solver.
    + by rewrite lookup_delete_ne.
    + rewrite lookup_insert_eq, E. done.
    + by rewrite lookup_insert_ne.
Qed.

Lemma getbit_exec_all_clears cs d k j :
  Forall clears cs -> getbit k j (exec_all cs d) = true -> getbit k j d = true.
Proof.
  revert d. induction cs as [|c cs IH]; intros d Hc H; [done|].
  apply Forall_cons in Hc as [Hc Hcs]. rewrite exec_all_cons in H.
  eapply getbit_exec_clears; eauto.
Qed.

Lemma init_commands_clears k sz e : Forall clears (RedisStorage.init_commands k sz e).
Proof.
  unfold RedisStorage.init_commands. apply Forall_app. split.
  - apply Forall_fmap, Forall_forall. done.
  - by apply Forall_singleton.
Qed.

Lemma getbit_absent k j d : d !! k = None -> getbit k j d = false.
Proof. intros H. unfold getbit. rewrite H. reflexivity. Qed.

Definition with_store (s : RedisStorage) (srv : server) (m : machine) : machine :=
  Build_machine (hashers m) (stores m ++ [s]) srv.

(** What [NewRedisStorage] does, by the outcome of its round trips. *)
Lemma NewRedisStorage_cases k sz e m :
  let s := Build_RedisStorage k sz [] in
  let p := length (stores m) in
  let r := redis m in
  RedisStorage.NewRedisStorage k sz e m =
  match faults r with
  | dropped _ :: rest =>
      Some ((p, false, Some ConnError), with_store s (Build_server (db r) (log r) rest) m)
  | _ =>
      let r1 := Build_server (db r) (log r ++ [EXISTS k]) (tail (faults r)) in
      if bool_decide (is_Some (db r !! k)) then Some ((p, true, None), with_store s r1 m)
      else
        let r2 := snd (Flush (RedisStorage.init_commands k sz e) r1) in
        Some ((p, false, fst (Flush (RedisStorage.init_commands k sz e) r1)),
              with_store s r2 m)
  end.
Proof.
  intros s p r. unfold RedisStorage.NewRedisStorage.
  unfold bind at 1. unfold RedisStorage.alloc.
  unfold bind at 1. unfold on_server at 1. cbn [redis hashers stores].
  fold s p r. unfold Do.
  destruct (faults r) as [|[|n] rest] eqn:Hf; cbn [exec tail].
  - destruct (bool_decide (is_Some (db r !! k))); cbn [Z_of_bool Z.eqb negb].
    + reflexivity.
    + unfold bind at 1. unfold RedisStorage.init, bind at 1, RedisStorage.load.
      cbn [stores]. rewrite lookup_app_r by done. rewrite Nat.sub_diag. cbn [lookup list_lookup].
      unfold on_server. cbn [redis key size hashers stores].
      destruct (Flush _ _) as [[err|] r2]; reflexivity.
  - destruct (bool_decide (is_Some (db r !! k))); cbn [Z_of_bool Z.eqb negb].
    + reflexivity.
    + unfold bind at 1. unfold RedisStorage.init, bind at 1, RedisStorage.load.
      cbn [stores]. rewrite lookup_app_r by done. rewrite Nat.sub_diag. cbn [lookup list_lookup].
      unfold on_server. cbn [redis key size hashers stores].
      destruct (Flush _ _) as [[err|] r2]; reflexivity.
  - reflexivity.
Qed.

Lemma Flush_delivered_inv cs r :
  fst (Flush cs r) = None ->
  snd (Flush cs r) = Build_server (exec_all cs (db r)) (log r ++ cs) (tail (faults r)).
Proof. unfold Flush. destruct (faults r) as [|[|n] rest]; [done|done|discriminate]. Qed.

(** C6: a construction that succeeds reports whether the key was there. If
    it was, the only command sent is [EXISTS] and the database is as before;
    if it was not, the commands sent after [EXISTS] are [SETBIT key i 0] for
    every [i] below [size], then [EXPIRE], and every bit of the key reads 0
    afterwards. *)
Theorem NewRedisStorage_zeroes_only_new_keys (k : string) (sz e : Z) (m m' : machine)
    (p : nat) (existed : bool) :
  RedisStorage.NewRedisStorage k sz e m = Some ((p, existed, None), m') ->
  existed = bool_decide (is_Some (db (redis m) !! k)) /\
  (existed = true ->
     db (redis m') = db (redis m) /\ log (redis m') = log (redis m) ++ [EXISTS k]) /\
  (existed = false ->
     log (redis m') =
       log (redis m) ++ [EXISTS k] ++
         ((fun i => SETBIT k i false) <$> seqZ 0 sz) ++ [EXPIRE k e] /\
     forall i, getbit k i (db (redis m')) = false).
Proof.
  rewrite NewRedisStorage_cases. cbv zeta.
  assert (Hgen : forall fl,
    (if bool_decide (is_Some (db (redis m) !! k))
     then Some ((length (stores m), true, None),
                with_store (Build_RedisStorage k sz [])
                  (Build_server (db (redis m)) (log (redis m) ++ [EXISTS k]) fl) m)
     else Some ((length (stores m), false,
                 fst (Flush (RedisStorage.init_commands k sz e)
                   (Build_server (db (redis m)) (log (redis m) ++ [EXISTS k]) fl))),
                with_store (Build_RedisStorage k sz [])
                  (snd (Flush (RedisStorage.init_commands k sz e)
                     (Build_server (db (redis m)) (log (redis m) ++ [EXISTS k]) fl))) m))
    = Some ((p, existed, None), m') ->
    existed = bool_decide (is_Some (db (redis m) !! k)) /\
    (existed = true ->
       db (redis m') = db (redis m) /\ log (redis m') = log (redis m) ++ [EXISTS k]) /\
    (existed = false ->
       log (redis m') =
         log (redis m) ++ [EXISTS k] ++
           ((fun i => SETBIT k i false) <$> seqZ 0 sz) ++ [EXPIRE k e] /\
       forall i, getbit k i (db (redis m')) = false)).
  { intros fl. destruct (bool_decide_reflect (is_Some (db (redis m) !! k))) as [Hk|Hk].
    - intros [= <- <- <-]. split; [done|]. split; [|done]. intros _. split; reflexivity.
    - intros [= <- <- Hfl <-]. split; [done|]. split; [done|]. intros _.
      cbn [redis with_store]. rewrite (Flush_delivered_inv _ _ Hfl). cbn [log db].
      split.
      + unfold RedisStorage.init_commands. by rewrite <- !app_assoc.
      + intros i. destruct (getbit k i _) eqn:Hb; [|done].
        apply getbit_exec_all_clears in Hb; [|apply init_commands_clears].
        rewrite getbit_absent in Hb; [done|].
        destruct (db (redis m) !! k) eqn:E; [|done]. destruct Hk. eauto. }
  destruct (faults (redis m)) as [|[|n] rest]; [apply Hgen|apply Hgen|discriminate].
Qed.

Definition empty_machine : machine := Build_machine [] [] (Build_server ∅ [] []).

Definition claim_C6_machine : machine :=
  Eval vm_compute in
    match RedisStorage.NewRedisStorage "bf.1" 8 60 empty_machine with
    | Some (_, m') => m'
    | None => empty_machine
    end.

Lemma NewRedisStorage_zeroes_only_new_keys_witness :
  RedisStorage.NewRedisStorage "bf.1" 8 60 empty_machine =
    Some ((0%nat, false, None), claim_C6_machine) /\
  forall i, getbit "bf.1" i (db (redis claim_C6_machine)) = false.
Proof.
  split; [vm_compute; reflexivity|].
  apply (proj2 (proj2 (NewRedisStorage_zeroes_only_new_keys "bf.1" 8 60 empty_machine
                         claim_C6_machine 0%nat false ltac:(vm_compute; reflexivity)))).
  reflexivity.
Defined.

(** ** The batch lookup *)

(** A filter of 10 bits and 2 hash iterations on a fresh server, on a 64-bit
    machine: "alpha" is added and saved, then "beta" is looked up with
    [Exists] and with [Exist]. *)
Definition claim_C2_run : M ((bool * option error) * (list bool * option error)) :=
  r <- BF.NewRedis 64 0 "bf" 10 2 60 ;;
  let b := fst (fst r) in
  BF.Add 64 b [list_byte_of_string "alpha"] ;;;
  BF.Save b ;;;
  single <- BF.Exists 64 b (list_byte_of_string "beta") ;;
  batch <- BF.Exist 64 b [list_byte_of_string "beta"] ;;
  ret (single, batch).

(** C2 fails on the code: the first filter's bit of "beta" is not set, so
    [Exists] answers false, but [Exist] keeps the answer of the last filter,
    whose bit "alpha" has set, and answers true. *)
Theorem Exist_keeps_the_last_filter_only :
  fst <$> claim_C2_run empty_machine = Some ((false, None), ([true], None)).
Proof. vm_compute. reflexivity. Qed.

(** ** The two words of the digest *)

Lemma testbit_field h k n i :
  0 <= k -> 0 <= n -> 0 <= i ->
  Z.testbit (Z.shiftl (Z.land (Z.shiftr h k) 255) n) i =
  (n <=? i) && (i <? n + 8) && Z.testbit h (i - n + k).
Proof.
  intros Hk Hn Hi. rewrite Z.shiftl_spec by done.
  destruct (Z.leb_spec n i) as [H|H].
  - rewrite Z.land_spec, Z.shiftr_spec by lia.
    change 255 with (Z.ones 8). rewrite Z.testbit_ones by lia.
    destruct (Z.ltb_spec (i - n) 8), (Z.ltb_spec i (n + 8)), (Z.leb_spec 0 (i - n)); try lia;
      cbn; rewrite ?andb_true_r, ?andb_false_r; reflexivity.
  - rewrite Z.testbit_neg_r by lia. reflexivity.
Qed.

Lemma testbit_field0 h k i :
  0 <= k -> 0 <= i ->
  Z.testbit (Z.land (Z.shiftr h k) 255) i = (i <? 8) && Z.testbit h (i + k).
Proof.
  intros Hk Hi. rewrite Z.land_spec, Z.shiftr_spec by lia.
  change 255 with (Z.ones 8). rewrite Z.testbit_ones by lia.
  destruct (Z.leb_spec 0 i); [|lia]. cbn. apply andb_comm.
Qed.

Lemma word_b_spec h : word_b h = h mod 2 ^ 32.
Proof.
  rewrite <- Z.land_ones by lia. apply Z.bits_inj'. intros i Hi.
  unfold word_b. rewrite !Z.lor_spec, !testbit_field, testbit_field0 by lia.
  rewrite Z.land_spec, Z.testbit_ones by lia.
  destruct (Z.leb_spec 0 i); [|lia].
  destruct (Z.ltb_spec i 8), (Z.leb_spec 8 i), (Z.ltb_spec i (8 + 8)),
    (Z.leb_spec 16 i), (Z.ltb_spec i (16 + 8)), (Z.leb_spec 24 i),
    (Z.ltb_spec i (24 + 8)), (Z.ltb_spec i 32); try lia; cbn;
    rewrite ?andb_true_r, ?andb_false_r, ?orb_false_r; try reflexivity;
    f_equal; lia.
Qed.

Lemma word_a_spec h : 0 <= h < 2 ^ 64 -> word_a h = h / 2 ^ 32.
Proof.
  intros Hh. rewrite <- Z.shiftr_div_pow2 by lia. apply Z.bits_inj'. intros i Hi.
  unfold word_a. rewrite !Z.lor_spec, !testbit_field, testbit_field0 by lia.
  rewrite Z.shiftr_spec by lia.
  destruct (Z.ltb_spec i 8), (Z.leb_spec 8 i), (Z.ltb_spec i (8 + 8)),
    (Z.leb_spec 16 i), (Z.ltb_spec i (16 + 8)), (Z.leb_spec 24 i),
    (Z.ltb_spec i (24 + 8)); try lia; cbn;
    rewrite ?andb_true_r, ?andb_false_r, ?orb_false_r; try (f_equal; lia).
  symmetry. apply (Z.bits_above_log2 h (i + 32)); [lia|].
  destruct (Z.eq_dec h 0) as [->|Hz]; [cbn; lia|].
  apply Z.log2_lt_pow2; [lia|]. assert (2 ^ 64 <= 2 ^ (i + 32)); [|lia].
  apply Z.pow_le_mono_r; lia.
Qed.

Lemma lxor_byte_bound h c : 0 <= h < 2 ^ 64 -> 0 <= c < 256 -> 0 <= Z.lxor h c < 2 ^ 64.
Proof.
  intros Hh Hc. split; [apply Z.lxor_nonneg; lia|].
  destruct (Z.eq_dec (Z.lxor h c) 0) as [->|Hz]; [lia|].
  apply Z.log2_lt_pow2; [pose proof (proj2 (Z.lxor_nonneg h c)); lia|].
  eapply Z.le_lt_trans; [apply Z.log2_lxor; lia|].
  apply Z.max_lub_lt.
  - destruct (Z.eq_dec h 0) as [->|Hh0]; [cbn; lia|]. apply Z.log2_lt_pow2; lia.
  - destruct (Z.eq_dec c 0) as [->|Hc0]; [cbn; lia|].
    apply Z.log2_lt_pow2; [lia|]. lia.
Qed.

Lemma Write_bound h data : 0 <= h < 2 ^ 64 -> 0 <= fnv.Write h data < 2 ^ 64.
Proof.
  revert h. induction data as [|c data IH]; intros h Hh; [exact Hh|].
  cbn [fnv.Write fold_left]. apply IH. apply lxor_byte_bound.
  - apply Z.mod_pos_bound. lia.
  - pose proof (Byte.to_N_bounded c). lia.
Qed.

Lemma digest_bound v : 0 <= digest v < 2 ^ 64.
Proof. apply Write_bound. unfold fnv.New64, fnv.offset64. lia. Qed.

Lemma word_bounds v :
  0 <= digest v / 2 ^ 32 < 2 ^ 32 /\ 0 <= digest v mod 2 ^ 32 < 2 ^ 32.
Proof.
  pose proof (digest_bound v) as H. split.
  - split; [apply Z.div_pos; lia|]. apply Z.div_lt_upper_bound; lia.
  - apply Z.mod_pos_bound. lia.
Qed.

Lemma wrap_add_wrap W a x : BF.wrap W (a + BF.wrap W x) = (a + x) mod 2 ^ W.
Proof. unfold BF.wrap. apply Zplus_mod_idemp_r. Qed.

(** C4, as the code has it: with [a] the first and [b] the second 32-bit
    word of the FNV-1 digest of [v], the bit a filter of multiplier [i]
    queues in [Append] and [Add] and asks for in [Exists] is
    [((a + i * b) mod 2 ^ uint_bits) mod size]: the sum wraps around at the
    width of [uint]. It is [(a + i * b) mod size] when the sum fits, as it
    does on a 64-bit machine for every multiplier up to [2 ^ 32]. *)
Theorem bit_index_wraps (W : Z) (f : BF.filter) (v : list byte) :
  let a := digest v / 2 ^ 32 in
  let b := digest v mod 2 ^ 32 in
  let i := BF.multiplier f in
  let index := ((a + i * b) mod 2 ^ W) mod BF.size f in
  (forall m m', insert_step W v f m = Some (tt, m') ->
     exists p s, BF.storage f = Some p /\ stores m !! p = Some s /\
       stores m' = <[p := push index s]> (stores m)) /\
  (forall m p, (BF.hasher f < length (hashers m))%nat -> BF.size f <> 0 ->
     BF.storage f = Some p ->
     query W v f m =
       RedisStorage.Exists p index (set_hasher (BF.hasher f) (digest v) m)) /\
  (0 <= i -> a + i * b < 2 ^ W -> index = (a + i * b) mod BF.size f) /\
  (W = 64 -> 0 <= i <= 2 ^ 32 -> index = (a + i * b) mod BF.size f).
Proof.
  intros a b i index.
  assert (Hidx : index_of W f v = index).
  { unfold index_of. rewrite wrap_add_wrap.
    rewrite word_b_spec, word_a_spec by apply digest_bound.
    unfold index, a, b, i. do 3 f_equal. lia. }
  pose proof (word_bounds v) as [Ha Hb]. fold a in Ha. fold b in Hb.
  repeat split.
  - intros m m' H. apply insert_step_Some in H as (_ & _ & p & s & Hp & Hs & ->).
    exists p, s. rewrite Hidx. auto.
  - intros m p Hv Hz Hp. rewrite <- Hidx. by apply query_Some.
  - intros Hi Hfit. unfold index. rewrite (Z.mod_small (a + i * b)); [done|nia].
  - intros -> Hi. unfold index. rewrite (Z.mod_small (a + i * b)); [done|nia].
Qed.

Definition claim_C4_filter (i : Z) : BF.filter := BF.Build_filter 250 (Some 0%nat) 0 i.

Definition claim_C4_machine : machine :=
  Build_machine [fnv.New64] [Build_RedisStorage "bf.4" 250 []] (Build_server ∅ [] []).

Lemma bit_index_wraps_witness :
  let v := list_byte_of_string "alpha" in
  ((digest v / 2 ^ 32 + 4 * (digest v mod 2 ^ 32)) mod 2 ^ 64) mod 250 =
  (digest v / 2 ^ 32 + 4 * (digest v mod 2 ^ 32)) mod 250.
Proof.
  intros v.
  apply (proj2 (proj2 (proj2 (bit_index_wraps 64 (claim_C4_filter 4) v))) eq_refl).
  cbn [claim_C4_filter BF.multiplier]. lia.
Defined.

(** C4, as the claim states it, fails where the sum wraps: on a 32-bit
    machine the filter of multiplier 4 and size 250 puts "alpha" at bit 47,
    and on a 64-bit machine the filter of multiplier [2 ^ 34] at bit 67,
    while [(a + i * b) mod 250] is 93 and 183. *)
Lemma bit_index_not_exact :
  let v := list_byte_of_string "alpha" in
  let a := digest v / 2 ^ 32 in
  let b := digest v mod 2 ^ 32 in
  (queue <$> (stores <$> (snd <$>
     BF.Append 32 (BF.Build_BF [claim_C4_filter 4]) v claim_C4_machine))
       ≫= (.!! 0%nat)) = Some [47] /\
  (log <$> (redis <$> (snd <$>
     BF.Exists 32 (BF.Build_BF [claim_C4_filter 4]) v claim_C4_machine)))
     = Some [GETBIT "bf.4" 47] /\
  (a + 4 * b) mod 250 = 93 /\
  (queue <$> (stores <$> (snd <$>
     BF.Append 64 (BF.Build_BF [claim_C4_filter (2 ^ 34)]) v claim_C4_machine))
       ≫= (.!! 0%nat)) = Some [67] /\
  (a + 2 ^ 34 * b) mod 250 = 183.
Proof. vm_compute. repeat split; reflexivity. Qed.

(** ** Every call on a filter preserves [extends] *)

Section Calls.
Variable W : Z.

Lemma preserves_query v f : preserves (query W v f).
Proof.
  unfold query.
  apply preserves_bind; [apply preserves_hashValue|intros ab].
  apply preserves_bind; [apply preserves_bit_index|intros i].
  apply preserves_storage_Exists.
Qed.

Lemma preserves_Append b v : preserves (BF.Append W b v).
Proof. rewrite Append_unfold. apply preserves_for_each, preserves_insert_step. Qed.

Lemma preserves_Add b vs : preserves (BF.Add W b vs).
Proof. rewrite Add_Append. apply preserves_for_each. intros v. apply preserves_Append. Qed.

Lemma preserves_Save b : preserves (BF.Save b).
Proof. apply preserves_for_each. intros f. apply preserves_storage_Save. Qed.

Lemma preserves_Exists_loop fs v err : preserves (BF.Exists_loop W fs v err).
Proof.
  revert err. induction fs as [|f fs IH]; intros err; [apply preserves_ret|].
  intros m a m' H. rewrite Exists_loop_cons in H. revert m a m' H.
  apply preserves_bind; [apply preserves_query|]. intros r.
  destruct (negb (fst r)); [apply preserves_ret|apply IH].
Qed.

Lemma preserves_Exists b v : preserves (BF.Exists W b v).
Proof. apply preserves_Exists_loop. Qed.

Lemma preserves_Exist_filters fs v index ex : preserves (BF.Exist_filters W fs v index ex).
Proof.
  revert ex. induction fs as [|f fs IH]; intros ex; [apply preserves_ret|].
  cbn [BF.Exist_filters]. rewrite hashedValue_eq.
  apply preserves_bind; [apply preserves_hashValue|intros ab].
  apply preserves_bind; [apply preserves_bit_index|intros i].
  apply preserves_bind; [apply preserves_storage_Exists|intros r].
  destruct (snd r); [apply preserves_ret|apply IH].
Qed.

Lemma preserves_Exist_values fs vs index ex : preserves (BF.Exist_values W fs vs index ex).
Proof.
  revert index ex. induction vs as [|v vs IH]; intros index ex; [apply preserves_ret|].
  cbn [BF.Exist_values].
  apply preserves_bind; [apply preserves_Exist_filters|intros r].
  destruct (snd r); [apply preserves_ret|apply IH].
Qed.

Lemma preserves_Exist b vs : preserves (BF.Exist W b vs).
Proof. apply preserves_Exist_values. Qed.

Lemma preserves_Load b vs : preserves (BF.Load W b vs).
Proof.
  unfold BF.Load.
  apply preserves_bind; [apply preserves_Add|intros _].
  apply preserves_bind; [apply preserves_Save|intros _]. apply preserves_ret.
Qed.
End Calls.

(** ** Sequences of calls on one filter *)

Inductive call :=
| call_Append (value : list byte)
| call_Add (values : list (list byte))
| call_Save
| call_Exists (value : list byte)
| call_Exist (values : list (list byte))
| call_Load (values : list (list byte)).

Section Sequences.
Variable W : Z.
Variable b : BF.BF.

Definition run_call (c : call) : M unit :=
  match c with
  | call_Append v => BF.Append W b v
  | call_Add vs => BF.Add W b vs
  | call_Save => BF.Save b
  | call_Exists v => _ <- BF.Exists W b v ;; ret tt
  | call_Exist vs => _ <- BF.Exist W b vs ;; ret tt
  | call_Load vs => _ <- BF.Load W b vs ;; ret tt
  end.

Definition run_calls (cs : list call) : M unit := for_each run_call cs.

(** The calls that queue the bits of [v], and the calls that flush. *)
Definition inserts (v : list byte) (c : call) : Prop :=
  match c with
  | call_Append v' => v' = v
  | call_Add vs | call_Load vs => v ∈ vs
  | _ => False
  end.

Definition flushes (c : call) : Prop :=
  match c with
  | call_Save | call_Load _ => True
  | _ => False
  end.

Lemma preserves_run_call c : preserves (run_call c).
Proof.
  destruct c; cbn [run_call];
    auto using preserves_Append, preserves_Add, preserves_Save;
    (apply preserves_bind; [|intros ?; apply preserves_ret]);
    auto using preserves_Exists, preserves_Exist, preserves_Load.
Qed.

Lemma preserves_run_calls cs : preserves (run_calls cs).
Proof. apply preserves_for_each, preserves_run_call. Qed.

Lemma run_calls_app cs cs' m :
  run_calls (cs ++ cs') m = bind (run_calls cs) (fun _ => run_calls cs') m.
Proof.
  unfold run_calls. revert m. induction cs as [|c cs IH]; intros m; [reflexivity|].
  cbn [app for_each]. unfold bind.
  destruct (run_call c m) as [[[] m1]|]; [|reflexivity].
  specialize (IH m1). unfold bind in IH. exact IH.
Qed.

Definition all_queued (v : list byte) (m : machine) : Prop :=
  forall f, f ∈ BF.filters b -> usable m f /\ queued W v m f.

Definition all_stored (v : list byte) (m : machine) : Prop :=
  forall f, f ∈ BF.filters b -> usable m f /\ stored W v m f.

Lemma all_queued_extends v m m' : extends m m' -> all_queued v m -> all_queued v m'.
Proof.
  intros E H f Hf. destruct (H f Hf) as [Hu Hq]. split.
  - by apply (usable_extends _ _ _ E).
  - by eapply queued_extends.
Qed.

Lemma all_stored_extends v m m' : extends m m' -> all_stored v m -> all_stored v m'.
Proof.
  intros E H f Hf. destruct (H f Hf) as [Hu Hq]. split.
  - by apply (usable_extends _ _ _ E).
  - by eapply stored_extends.
Qed.

Lemma Append_all_queued v m m' : BF.Append W b v m = Some (tt, m') -> all_queued v m'.
Proof.
  intros H f Hf. rewrite Append_unfold in H.
  destruct (insert_all_queued W v _ _ _ H f Hf) as [Hu Hq]. split; [|done].
  apply (usable_extends m m'); [|done]. by eapply preserves_Append.
Qed.

Lemma Add_all_queued v vs m m' :
  v ∈ vs -> BF.Add W b vs m = Some (tt, m') -> all_queued v m'.
Proof.
  rewrite Add_Append. revert m. induction vs as [|v' vs IH]; intros m Hv H.
  - by apply elem_of_nil in Hv.
  - cbn [for_each] in H. apply bind_Some in H as ([] & m1 & H1 & H2).
    apply elem_of_cons in Hv as [->|Hv].
    + eapply all_queued_extends; [|by eapply Append_all_queued].
      eapply (preserves_for_each (BF.Append W b)); [apply preserves_Append|exact H2].
    + by eapply IH.
Qed.

Lemma inserts_all_queued v c m m' :
  inserts v c -> run_call c m = Some (tt, m') -> all_queued v m'.
Proof.
  destruct c as [v'|vs| | | |vs]; cbn [inserts run_call]; try done.
  - intros ->. apply Append_all_queued.
  - apply Add_all_queued.
  - intros Hv H. apply bind_Some in H as (r & m1 & H & Hr).
    apply ret_Some in Hr as [= <-]. unfold BF.Load in H.
    apply bind_Some in H as ([] & m2 & Ha & H).
    apply bind_Some in H as ([] & m3 & Hs & H). apply ret_Some in H as [= _ <-].
    eapply all_queued_extends; [by eapply preserves_Save|]. by eapply Add_all_queued.
Qed.

End Sequences.

(** ** Round trips that are delivered *)

(** The next [n] round trips are delivered. *)
Definition delivers (n : nat) (fl : list outcome) : Prop :=
  Forall (fun o => o = delivered) (take n fl).

Lemma delivers_nil n : delivers n [].
Proof. unfold delivers. rewrite take_nil. constructor. Qed.

Lemma delivers_S n fl :
  delivers (S n) fl ->
  (forall k rest, fl <> dropped k :: rest) /\ delivers n (tail fl).
Proof.
  destruct fl as [|o rest]; unfold delivers; cbn [take tail].
  - intros _. split; [done|]. rewrite take_nil. constructor.
  - intros H. apply Forall_cons in H as [-> H]. done.
Qed.

Lemma Flush_sent cs s :
  (forall k rest, faults s <> dropped k :: rest) ->
  Flush cs s = (None, Build_server (exec_all cs (db s)) (log s ++ cs) (tail (faults s))).
Proof.
  intros H. unfold Flush. destruct (faults s) as [|[|k] rest]; [done|done|].
  by destruct (H k rest).
Qed.

Section Delivered.
Variable W : Z.

Lemma save_step_delivered v f m m' :
  BF.storage_Save (BF.storage f) m = Some (tt, m') ->
  (forall k rest, faults (redis m) <> dropped k :: rest) ->
  queued W v m f ->
  stored W v m' f /\ faults (redis m') = tail (faults (redis m)).
Proof.
  intros H Hf (p & s & Hp & Hs & Hq). rewrite Hp in H. cbn [BF.storage_Save] in H.
  apply RS_Save_Some in H as (s' & Hs' & [= ->]).
  assert (s' = s) as -> by congruence.
  assert (Hne : queue s <> []) by (intros E; rewrite E in Hq; by apply elem_of_nil in Hq).
  unfold flushed. rewrite bool_decide_eq_false_2 by done. rewrite Flush_sent by done.
  cbn [snd redis faults]. split; [|done].
  exists p, s. cbn [stores redis db]. split; [done|]. split; [done|].
  rewrite getbit_set_commands. rewrite (bool_decide_eq_true_2 (_ /\ _)) by done.
  apply orb_true_r.
Qed.

Lemma save_all_delivered v fs m m' :
  for_each (fun f => BF.storage_Save (BF.storage f)) fs m = Some (tt, m') ->
  delivers (length fs) (faults (redis m)) ->
  (forall f, f ∈ fs -> queued W v m f) ->
  forall f, f ∈ fs -> stored W v m' f.
Proof.
  revert m. induction fs as [|g fs IH]; intros m H Hd Hq f Hf.
  - by apply elem_of_nil in Hf.
  - cbn [for_each] in H. apply bind_Some in H as ([] & m1 & H1 & H2).
    pose proof (preserves_save_step _ _ _ _ H1) as E1.
    pose proof (preserves_for_each _ fs preserves_save_step _ _ _ H2) as E2.
    cbn [length] in Hd. apply delivers_S in Hd as [Hhd Htl].
    destruct (save_step_delivered v g m m1 H1 Hhd) as [Hst Hf1]; [apply Hq; left|].
    apply elem_of_cons in Hf as [->|Hf].
    + by eapply stored_extends.
    + apply (IH m1); [done|by rewrite Hf1| |done].
      intros h Hh. eapply queued_extends; [exact E1|]. apply Hq. by right.
Qed.

(** The loop of [Exists] on a value whose bits are all stored: it answers
    true, unless a round trip breaks, and then it returns the error. *)
Lemma Exists_loop_of_stored v fs err0 m :
  (forall f, f ∈ fs -> usable m f /\ stored W v m f) ->
  exists r err m',
    BF.Exists_loop W fs v err0 m = Some ((r, err), m') /\
    (err = None -> r = true) /\
    (delivers (length fs) (faults (redis m)) -> err = if fs is [] then err0 else None).
Proof.
  revert m err0. induction fs as [|g fs IH]; intros m err0 H.
  - exists true, err0, m. done.
  - destruct (H g) as [(Hv & Hz & _) (p & s & Hp & Hs & Hb)]; [left|].
    set (m1 := set_hasher (BF.hasher g) (digest v) m).
    assert (Hs1 : stores m1 !! p = Some s) by done.
    assert (Hcase : (exists k rest, faults (redis m) = dropped k :: rest) \/
                    ~ (exists k rest, faults (redis m) = dropped k :: rest)).
    { destruct (faults (redis m)) as [|[|k] rest]; [right|right|left; eauto];
        by intros (k' & rest' & ?). }
    destruct Hcase as [(k & rest & Hfl)|Hfl].
    + exists false, (Some ConnError). eexists.
      rewrite Exists_loop_cons. unfold bind at 1.
      rewrite (query_Some W v g m p) by done. fold m1.
      rewrite (RS_Exists_dropped p _ m1 s k rest Hs1 Hfl). cbn [fst snd negb].
      split; [reflexivity|]. split; [discriminate|].
      intros Hd. cbn [length] in Hd. apply delivers_S in Hd as [Hd _].
      by destruct (Hd k rest).
    + assert (Hsent : forall k rest, faults (redis m1) <> dropped k :: rest).
      { intros k rest E. apply Hfl. by exists k, rest. }
      pose (m2 := Build_machine (hashers m1) (stores m1)
              (Build_server (db (redis m1))
                 (log (redis m1) ++ [GETBIT (key s) (index_of W g v)])
                 (tail (faults (redis m1))))).
      assert (Hq : query W v g m = Some ((true, None), m2)).
      { rewrite (query_Some W v g m p) by done. fold m1.
        rewrite (RS_Exists_sent p _ m1 s Hs1 Hsent). unfold m2.
        change (db (redis m1)) with (db (redis m)). by rewrite Hb. }
      pose proof (preserves_query W v g _ _ _ Hq) as E.
      destruct (IH m2 None) as (r & err & m' & Hm' & Hr & Hd).
      { intros f Hf. destruct (H f) as [Hu Hst]; [by right|]. split.
        - by apply (usable_extends _ _ _ E).
        - by eapply stored_extends. }
      exists r, err, m'. rewrite Exists_loop_cons. unfold bind at 1. rewrite Hq.
      cbn [fst snd negb]. split; [done|]. split; [done|].
      intros Hdel. cbn [length] in Hdel. apply delivers_S in Hdel as [_ Htl].
      rewrite (Hd Htl). by destruct fs.
Qed.
End Delivered.

Lemma Add_keeps_server W b vs m m' :
  BF.Add W b vs m = Some (tt, m') -> redis m' = redis m.
Proof.
  rewrite Add_unfold. revert m. induction vs as [|v vs IH]; intros m H.
  - by apply ret_Some in H as [= <-].
  - cbn [for_each] in H. apply bind_Some in H as ([] & m1 & H1 & H2).
    rewrite (IH _ H2). clear IH H2. revert m H1.
    induction (BF.filters b) as [|f fs IHf]; intros m H1.
    + by apply ret_Some in H1 as [= <-].
    + cbn [for_each] in H1. apply bind_Some in H1 as ([] & m2 & Hf & H1).
      apply insert_step_Some in Hf as (_ & _ & p & s & _ & _ & ->).
      by rewrite (IHf _ H1).
Qed.

Lemma flushes_all_stored_delivered W b v c m m' :
  flushes c -> run_call W b c m = Some (tt, m') ->
  delivers (length (BF.filters b)) (faults (redis m)) ->
  all_queued W b v m -> all_stored W b v m'.
Proof.
  assert (HS : forall m m', BF.Save b m = Some (tt, m') ->
    delivers (length (BF.filters b)) (faults (redis m)) ->
    all_queued W b v m -> all_stored W b v m').
  { clear m m'. intros m m' H Hd Hq f Hin. destruct (Hq f Hin) as [Hu _]. split.
    - apply (usable_extends m m'); [by eapply preserves_Save|done].
    - apply (save_all_delivered W v (BF.filters b) m m'); [done|done| |done].
      intros g Hg. by destruct (Hq g Hg). }
  destruct c as [v'|vs| | | |vs]; cbn [flushes run_call]; try done.
  - intros _. apply HS.
  - intros _ H Hd Hq. apply bind_Some in H as (r & m1 & H & Hr).
    apply ret_Some in Hr as [= <-]. unfold BF.Load in H.
    apply bind_Some in H as ([] & m2 & Ha & H).
    apply bind_Some in H as ([] & m3 & Hs & H). apply ret_Some in H as [= _ <-].
    pose proof (preserves_Add W b vs _ _ _ Ha) as E.
    eapply HS; [exact Hs| |].
    + by rewrite (Add_keeps_server _ _ _ _ _ Ha).
    + by eapply all_queued_extends.
Qed.

(** C1, as the code has it: [Save] drops the error of [Flush], so the
    property needs the flushes to reach the server. After a value has been
    inserted (by [Append], [Add] or [Load]) and a flush ([Save] or [Load])
    whose round trips, one per filter, are delivered has come after it,
    whatever calls on the same filter came before, between and after, failed
    round trips among them, [Exists] of the value never answers false with a
    nil error: it returns an error when one of its own round trips breaks,
    and true with no error when they are delivered. *)
Theorem no_false_negatives (W : Z) (b : BF.BF) (v : list byte)
    (pre mid post : list call) (ins fl : call) (m m1 m' : machine) :
  inserts v ins -> flushes fl ->
  run_calls W b (pre ++ ins :: mid) m = Some (tt, m1) ->
  delivers (length (BF.filters b)) (faults (redis m1)) ->
  run_calls W b (fl :: post) m1 = Some (tt, m') ->
  exists r err m'',
    BF.Exists W b v m' = Some ((r, err), m'') /\
    (err = None -> r = true) /\
    (delivers (length (BF.filters b)) (faults (redis m')) -> r = true /\ err = None).
Proof.
  intros Hins Hfl H Hd H'.
  rewrite run_calls_app in H. apply bind_Some in H as ([] & m0 & H0 & H).
  change (ins :: mid) with ([ins] ++ mid) in H.
  rewrite run_calls_app in H. apply bind_Some in H as ([] & m2 & H2 & H3).
  unfold run_calls in H2. cbn [for_each] in H2.
  apply bind_Some in H2 as ([] & m2' & H2 & R2). apply ret_Some in R2 as [= <-].
  unfold run_calls in H'. cbn [for_each] in H'.
  apply bind_Some in H' as ([] & m4 & H4 & H5). fold (run_calls W b post) in H5.
  pose proof (preserves_run_calls W b _ _ _ _ H3) as E3.
  pose proof (preserves_run_calls W b _ _ _ _ H5) as E5.
  assert (Hq : all_queued W b v m1).
  { eapply all_queued_extends; [exact E3|]. by eapply inserts_all_queued. }
  assert (Hs : all_stored W b v m').
  { eapply all_stored_extends; [exact E5|]. by eapply flushes_all_stored_delivered. }
  destruct (Exists_loop_of_stored W v (BF.filters b) None m' Hs)
    as (r & err & m'' & Hm & Hr & Herr).
  exists r, err, m''. split; [exact Hm|]. split; [done|].
  intros Hd'. assert (err = None) as -> by (rewrite (Herr Hd'); by destruct (BF.filters b)).
  split; [by apply Hr|done].
Qed.

Definition claim_C1_calls : list call :=
  [call_Add [list_byte_of_string "alpha"; list_byte_of_string "beta"]; call_Save].

Definition claim_C1_machine : machine :=
  Eval vm_compute in
    match run_calls 64 (BF.Build_BF claim_C5_filters) claim_C1_calls (claim_C5_machine []) with
    | Some (_, m') => m'
    | None => empty_machine
    end.

(** A run with a round trip that fails before the insertion. *)
Definition claim_C1_faulty_calls : list call :=
  [call_Exists (list_byte_of_string "alpha");
   call_Add [list_byte_of_string "alpha"; list_byte_of_string "beta"]].

Definition claim_C1_queued_machine : machine :=
  Eval vm_compute in
    match run_calls 64 (BF.Build_BF claim_C5_filters) claim_C1_faulty_calls
            (claim_C5_machine [dropped 0]) with
    | Some (_, m') => m'
    | None => empty_machine
    end.

Lemma no_false_negatives_witness :
  exists r err m'',
    BF.Exists 64 (BF.Build_BF claim_C5_filters) (list_byte_of_string "beta")
      claim_C1_machine = Some ((r, err), m'') /\
    (err = None -> r = true) /\
    (delivers 2 (faults (redis claim_C1_machine)) -> r = true /\ err = None).
Proof.
  apply (no_false_negatives 64 (BF.Build_BF claim_C5_filters) (list_byte_of_string "beta")
           [call_Exists (list_byte_of_string "alpha")] [] []
           (call_Add [list_byte_of_string "alpha"; list_byte_of_string "beta"]) call_Save
           (claim_C5_machine [dropped 0])
           claim_C1_queued_machine claim_C1_machine).
  - cbn [inserts]. repeat constructor.
  - exact I.
  - vm_compute. reflexivity.
  - vm_compute. constructor.
  - vm_compute. reflexivity.
Defined.

(** The machine after [Add] of a value and a [Save] whose first flush is
    lost. *)
Definition claim_C1_lost_machine : machine :=
  Eval vm_compute in
    match run_calls 64 (BF.Build_BF claim_C5_filters)
            [call_Add [list_byte_of_string "alpha"]; call_Save]
            (claim_C5_machine [dropped 0]) with
    | Some (_, m') => m'
    | None => empty_machine
    end.

(** C1, as the claim states it, fails: the flush of the first filter is
    lost, [Save] returns as if nothing had happened, and [Exists] of the
    value that was inserted and flushed answers false with a nil error. *)
Lemma lost_flush_gives_a_false_negative :
  run_calls 64 (BF.Build_BF claim_C5_filters)
    [call_Add [list_byte_of_string "alpha"]; call_Save] (claim_C5_machine [dropped 0]) =
    Some (tt, claim_C1_lost_machine) /\
  log (redis claim_C1_lost_machine) = [SETBIT "bf.2" 3 true] /\
  fst <$> BF.Exists 64 (BF.Build_BF claim_C5_filters) (list_byte_of_string "alpha")
            claim_C1_lost_machine = Some (false, None).
Proof. split; [|split]; vm_compute; reflexivity. Qed.

(** ** Inserting a value twice *)

Lemma exec_all_set_commands_ext k q1 q2 d :
  (q1 = [] <-> q2 = []) -> (forall x, x ∈ q1 <-> x ∈ q2) ->
  exec_all (set_commands k q1) d = exec_all (set_commands k q2) d.
Proof.
  intros Hnil Hel. destruct (decide (q1 = [])) as [E1|E1].
  - rewrite E1, (proj1 Hnil E1). reflexivity.
  - rewrite !exec_all_set_commands by tauto. do 2 f_equal.
    apply set_eq. intros x. rewrite !elem_of_union, !elem_of_list_to_set. by rewrite Hel.
Qed.

(** A queue and the same queue with its last entries repeated. *)
Definition repeats (q1 q2 : list Z) : Prop :=
  exists q l, q1 = q ++ l ++ l /\ q2 = q ++ l.

Lemma repeats_nil q1 q2 : repeats q1 q2 -> (q1 = [] <-> q2 = []).
Proof.
  intros (q & l & -> & ->). split; intros H.
  - apply app_eq_nil in H as [-> H]. apply app_eq_nil in H as [-> _]. done.
  - apply app_eq_nil in H as [-> ->]. done.
Qed.

Lemma repeats_take n q1 q2 :
  repeats q1 q2 ->
  (take n q1 = [] <-> take n q2 = []) /\ (forall x, x ∈ take n q1 <-> x ∈ take n q2).
Proof.
  intros (q & l & -> & ->). rewrite (app_assoc q l l).
  destruct (decide (n <= length (q ++ l))%nat) as [Hn|Hn].
  - rewrite take_app_le by done. done.
  - rewrite take_app_ge by lia. rewrite (take_ge (q ++ l)) by lia. split.
    + split; intros H; [by apply app_eq_nil in H as [-> _]|].
      apply app_eq_nil in H as [-> ->]. by rewrite take_nil.
    + intros x. rewrite elem_of_app. split; [|tauto].
      intros [H|H]; [done|]. apply elem_of_app. right.
      by apply (subseteq_take (n - length (q ++ l)) l).
Qed.

Section Twice.
Variable W : Z.
Variable v : list byte.

(** What one pass of the insertion loop adds to the queue of the storage
    at [p]. *)
Fixpoint added (fs : list BF.filter) (p : nat) : list Z :=
  match fs with
  | [] => []
  | f :: fs' =>
      (if decide (BF.storage f = Some p) then [index_of W f v] else []) ++ added fs' p
  end.

Definition enqueue (l : list Z) (s : RedisStorage) : RedisStorage :=
  Build_RedisStorage (key s) (size s) (queue s ++ l).

Lemma insert_pass fs m m' :
  for_each (insert_step W v) fs m = Some (tt, m') ->
  redis m' = redis m /\
  forall p, stores m' !! p = enqueue (added fs p) <$> stores m !! p.
Proof.
  revert m. induction fs as [|f fs IH]; intros m H.
  - apply ret_Some in H as [= <-]. split; [done|]. intros p.
    destruct (stores m' !! p) as [[k z q]|]; [|done].
    cbn. unfold enqueue. cbn. by rewrite app_nil_r.
  - cbn [for_each] in H. apply bind_Some in H as ([] & m1 & H1 & H2).
    apply insert_step_Some in H1 as (_ & _ & p0 & s0 & Hp0 & Hs0 & ->).
    destruct (IH _ H2) as [Hr Hst]. split; [done|].
    intros p. rewrite Hst. cbn [stores added].
    destruct (decide (p = p0)) as [->|Hne].
    + rewrite list_lookup_insert_eq by (by eapply lookup_lt_Some).
      rewrite Hs0. rewrite decide_True by done. cbn.
      unfold enqueue, push. cbn. by rewrite <- app_assoc.
    + rewrite list_lookup_insert_ne by done.
      rewrite decide_False by congruence. done.
Qed.

Lemma insert_pass_succeeds fs m :
  (forall f, f ∈ fs -> usable m f) ->
  exists m', for_each (insert_step W v) fs m = Some (tt, m').
Proof.
  revert m. induction fs as [|f fs IH]; intros m H; [by eexists|].
  destruct (H f) as (Hv & Hz & p & Hp & Hlt); [left|].
  destruct (lookup_lt_is_Some_2 _ _ Hlt) as [s Hs].
  assert (H1 : insert_step W v f m = Some (tt,
            Build_machine (<[BF.hasher f := digest v]> (hashers m))
              (<[p := push (index_of W f v) s]> (stores m)) (redis m))).
  { apply insert_step_Some. split; [done|]. split; [done|]. exists p, s. auto. }
  destruct (IH (Build_machine (<[BF.hasher f := digest v]> (hashers m))
              (<[p := push (index_of W f v) s]> (stores m)) (redis m))) as [m' Hm'].
  { intros g Hg. apply (usable_extends m); [|apply H; by right].
    by eapply preserves_insert_step. }
  exists m'. cbn [for_each]. apply bind_Some. eauto.
Qed.
End Twice.

(** Two machines that differ in the server's log and in that the queues of
    the first repeat the last entries of the queues of the second. *)
Record sim (m1 m2 : machine) : Prop := {
  sim_db : db (redis m1) = db (redis m2);
  sim_faults : faults (redis m1) = faults (redis m2);
  sim_stores : forall p,
    match stores m1 !! p, stores m2 !! p with
    | Some s1, Some s2 => key s1 = key s2 /\ repeats (queue s1) (queue s2)
    | None, None => True
    | _, _ => False
    end
}.

Lemma RS_Save_None p m : stores m !! p = None -> RedisStorage.Save p m = None.
Proof.
  intros H. destruct (RedisStorage.Save p m) as [r|] eqn:E; [|done].
  apply RS_Save_Some in E as (s & Hs & _). congruence.
Qed.

Lemma repeats_elem q1 q2 x : repeats q1 q2 -> x ∈ q1 <-> x ∈ q2.
Proof. intros (q & l & -> & ->). rewrite !elem_of_app. tauto. Qed.

Lemma sim_flushed s1 s2 m1 m2 :
  sim m1 m2 -> key s1 = key s2 -> repeats (queue s1) (queue s2) ->
  sim (flushed s1 m1) (flushed s2 m2).
Proof.
  intros [Hd Hf Hs] Hk Hq. unfold flushed.
  pose proof (repeats_nil _ _ Hq) as Hnil.
  destruct (bool_decide_reflect (queue s1 = [])) as [E1|E1];
    destruct (bool_decide_reflect (queue s2 = [])) as [E2|E2]; try tauto.
  { by split. }
  split; cbn [redis stores]; [| |exact Hs].
  - unfold Flush. rewrite Hf, Hd, Hk.
    destruct (faults (redis m2)) as [|[|n] rest]; cbn [snd db].
    + apply exec_all_set_commands_ext; [done|]. intros x. by apply repeats_elem.
    + apply exec_all_set_commands_ext; [done|]. intros x. by apply repeats_elem.
    + unfold set_commands. rewrite <- !fmap_take.
      destruct (repeats_take n _ _ Hq) as [Hn He].
      by apply exec_all_set_commands_ext.
  - unfold Flush. rewrite Hf.
    destruct (faults (redis m2)) as [|[|n] rest]; reflexivity.
Qed.

Lemma sim_Save_step so m1 m2 :
  sim m1 m2 ->
  match BF.storage_Save so m1, BF.storage_Save so m2 with
  | Some (_, m1'), Some (_, m2') => sim m1' m2'
  | None, None => True
  | _, _ => False
  end.
Proof.
  intros H. destruct so as [p|]; [|done]. cbn [BF.storage_Save].
  pose proof (sim_stores _ _ H p) as Hp.
  destruct (stores m1 !! p) as [s1|] eqn:E1; destruct (stores m2 !! p) as [s2|] eqn:E2;
    try done.
  - destruct Hp as [Hk Hq].
    assert (R1 : RedisStorage.Save p m1 = Some (tt, flushed s1 m1))
      by (apply RS_Save_Some; eauto).
    assert (R2 : RedisStorage.Save p m2 = Some (tt, flushed s2 m2))
      by (apply RS_Save_Some; eauto).
    rewrite R1, R2. by apply sim_flushed.
  - by rewrite !RS_Save_None.
Qed.

Lemma sim_Save fs m1 m2 :
  sim m1 m2 ->
  match for_each (fun f => BF.storage_Save (BF.storage f)) fs m1,
        for_each (fun f => BF.storage_Save (BF.storage f)) fs m2 with
  | Some (_, m1'), Some (_, m2') => sim m1' m2'
  | None, None => True
  | _, _ => False
  end.
Proof.
  revert m1 m2. induction fs as [|f fs IH]; intros m1 m2 H; [exact H|].
  cbn [for_each]. unfold bind.
  pose proof (sim_Save_step (BF.storage f) m1 m2 H) as Hs.
  destruct (BF.storage_Save (BF.storage f) m1) as [[[] m1']|];
    destruct (BF.storage_Save (BF.storage f) m2) as [[[] m2']|]; try done.
  by apply IH.
Qed.

Lemma Add_one W b v m :
  BF.Add W b [v] m = for_each (insert_step W v) (BF.filters b) m.
Proof.
  rewrite Add_unfold. cbn [for_each]. unfold bind.
  by destruct (for_each (insert_step W v) (BF.filters b) m) as [[[] m1]|].
Qed.

Lemma sim_second_pass W v fs m ma mb :
  for_each (insert_step W v) fs m = Some (tt, ma) ->
  for_each (insert_step W v) fs ma = Some (tt, mb) ->
  sim mb ma.
Proof.
  intros H1 H2. apply insert_pass in H1 as [Hr1 Hs1]. apply insert_pass in H2 as [Hr2 Hs2].
  split.
  - by rewrite Hr2.
  - by rewrite Hr2.
  - intros p. rewrite Hs2, Hs1.
    destruct (stores m !! p) as [s|]; [|done]. cbn. split; [done|].
    exists (queue s), (added W v fs p). by rewrite <- app_assoc.
Qed.

(** C9: adding a value twice and saving leaves the database of the server
    as adding it once and saving does, whatever the filter, the machine and
    the faults of the connection (and the one run panics when the other
    does). *)
Theorem insertion_is_idempotent (W : Z) (b : BF.BF) (v : list byte) (m : machine) :
  (fun r => db (redis (snd r))) <$>
    (BF.Add W b [v] ;;; BF.Add W b [v] ;;; BF.Save b) m =
  (fun r => db (redis (snd r))) <$> (BF.Add W b [v] ;;; BF.Save b) m.
Proof.
  unfold bind. rewrite Add_one.
  destruct (for_each (insert_step W v) (BF.filters b) m) as [[[] ma]|] eqn:H1; [|done].
  rewrite Add_one.
  destruct (insert_pass_succeeds W v (BF.filters b) ma) as [mb H2].
  { intros f Hf. apply (usable_extends m ma).
    - eapply (preserves_for_each (insert_step W v)); [apply preserves_insert_step|exact H1].
    - by destruct (insert_all_queued W v _ _ _ H1 f Hf). }
  rewrite H2.
  pose proof (sim_Save (BF.filters b) mb ma (sim_second_pass W v _ _ _ _ H1 H2)) as Hs.
  unfold BF.Save.
  destruct (for_each (fun f => BF.storage_Save (BF.storage f)) (BF.filters b) mb)
    as [[[] mb']|];
    destruct (for_each (fun f => BF.storage_Save (BF.storage f)) (BF.filters b) ma)
      as [[[] ma']|]; try done.
  cbn. f_equal. apply (sim_db _ _ Hs).
Qed.

(** ** The layout [filterSetup] builds *)

Section Layout.
Variable W : Z.
Variable oob : Z.

(** The partition size [filterSetup] computes. *)
Definition partitionSize (size hashIter : Z) : Z :=
  float64.to_uint W oob
    (float64.Ceil (float64.div (float64.of_uint size) (float64.of_uint hashIter))).

Lemma filterSetup_loop_spec n k P h acc :
  0 <= k -> k + Z.of_nat n < 2 ^ W ->
  BF.filterSetup_loop W n k P h acc =
  acc ++ ((fun i => BF.Build_filter P None h i) <$> seqZ (k + 1) (Z.of_nat n)).
Proof.
  revert k acc. induction n as [|n IH]; intros k acc Hk Hn.
  - cbn. by rewrite app_nil_r.
  - cbn [BF.filterSetup_loop].
    assert (Hw : BF.wrap W (k + 1) = k + 1) by (unfold BF.wrap; apply Z.mod_small; lia).
    rewrite Hw, IH by lia. rewrite <- app_assoc. f_equal.
    rewrite Nat2Z.inj_succ, (seqZ_cons (k + 1) (Z.succ (Z.of_nat n))) by lia. cbn [fmap list_fmap app].
    do 3 f_equal; lia.
Qed.

Lemma filterSetup_spec size hashIter m :
  0 <= hashIter < 2 ^ W ->
  BF.filterSetup W oob size hashIter m =
  Some ((fun i => BF.Build_filter (partitionSize size hashIter) None (length (hashers m)) i)
          <$> seqZ 1 hashIter,
        Build_machine (hashers m ++ [fnv.New64]) (stores m) (redis m)).
Proof.
  intros H. unfold BF.filterSetup, bind, BF.hasher_New64, ret.
  rewrite filterSetup_loop_spec by lia. rewrite Z2Nat.id by lia. reflexivity.
Qed.

(** The size, hasher and multiplier of a filter. *)
Definition layout (f : BF.filter) : Z * nat * Z := (BF.size f, BF.hasher f, BF.multiplier f).

Lemma NewRedis_loop_layout key e rest index fs ex m r m' :
  BF.NewRedis_loop key e rest index fs ex m = Some (r, m') ->
  drop index fs = rest ->
  layout <$> BF.filters (fst (fst r)) = layout <$> fs.
Proof.
  revert index fs ex m. induction rest as [|f rest IH]; intros index fs ex m H Hd.
  - apply ret_Some in H as [= -> _]. done.
  - cbn [BF.NewRedis_loop] in H. apply bind_Some in H as ([[p ex'] err] & m1 & _ & H).
    destruct err as [err|].
    + apply ret_Some in H as [= -> _]. done.
    + apply IH in H.
      * rewrite H. rewrite list_fmap_insert. apply list_insert_id.
        rewrite list_lookup_fmap.
        assert (Hl : fs !! index = Some f).
        { rewrite <- (Nat.add_0_r index), <- lookup_drop, Hd. done. }
        by rewrite Hl.
      * rewrite drop_insert_lt by lia.
        change (S index) with (1 + index)%nat. rewrite Nat.add_comm, <- drop_drop, Hd. done.
Qed.
End Layout.


(** * Further properties of the code *)

(** ** Hashing *)

(** [hashValue] and [hashedValue] reset the shared hasher first: whatever it
    held, they return the upper and the lower 32 bits of the FNV-1 digest of
    the value, both below [2 ^ 32], and leave the digest in the hasher. *)
Theorem hashValue_halves (f : BF.filter) (v : list byte) (m : machine) :
  (BF.hasher f < length (hashers m))%nat ->
  BF.hashValue f v m =
    Some ((digest v / 2 ^ 32, digest v mod 2 ^ 32),
          set_hasher (BF.hasher f) (digest v) m) /\
  BF.hashedValue f v m = BF.hashValue f v m /\
  0 <= digest v / 2 ^ 32 < 2 ^ 32 /\ 0 <= digest v mod 2 ^ 32 < 2 ^ 32.
Proof.
  intros H. change (BF.hashedValue f v m) with (BF.hashValue f v m).
  rewrite hashValue_Some by done.
  rewrite word_a_spec, word_b_spec by apply digest_bound.
  split; [done|]. split; [done|]. apply word_bounds.
Qed.

Lemma hashValue_halves_witness :
  BF.hashValue (BF.Build_filter 8 None 0 1) (list_byte_of_string "a")
    (Build_machine [0] [] (Build_server ∅ [] [])) =
  Some ((2942549324, 2248259518),
        Build_machine [12638153115695167422] [] (Build_server ∅ [] [])).
Proof.
  destruct (hashValue_halves (BF.Build_filter 8 None 0 1) (list_byte_of_string "a")
              (Build_machine [0] [] (Build_server ∅ [] [])) ltac:(simpl; lia)) as [H _].
  rewrite H. vm_compute. reflexivity.
Defined.

(** ** Insertion *)

(** [Append] and [Add] send nothing to the server: they leave it as it is,
    database, log and pending faults. *)
Theorem Add_sends_nothing (W : Z) (b : BF.BF) (values : list (list byte)) (m m' : machine) :
  BF.Add W b values m = Some (tt, m') -> redis m' = redis m.
Proof.
  rewrite Add_unfold. revert m. induction values as [|v vs IH]; intros m H.
  - by apply ret_Some in H as [= <-].
  - cbn [for_each] in H. apply bind_Some in H as ([] & m1 & H1 & H2).
    apply insert_pass in H1 as [H1 _]. rewrite (IH _ H2). exact H1.
Qed.

(** The machine a computation leaves (the one it started on if it panics). *)
Definition machine_after {A} (c : M A) (m : machine) : machine :=
  match c m with Some (_, m') => m' | None => m end.

Definition example_filter : BF.BF := BF.Build_BF claim_C5_filters.
Definition example_machine : machine := claim_C5_machine [].
Definition alpha : list byte := list_byte_of_string "alpha".
Definition beta : list byte := list_byte_of_string "beta".

Lemma Add_sends_nothing_witness :
  redis (machine_after (BF.Add 64 example_filter [alpha; beta]) example_machine) =
  redis example_machine.
Proof.
  apply (Add_sends_nothing 64 example_filter [alpha; beta]).
  vm_compute. reflexivity.
Defined.

Lemma added_elem W v fs p x :
  x ∈ added W v fs p ->
  exists f, f ∈ fs /\ BF.storage f = Some p /\ x = index_of W f v.
Proof.
  induction fs as [|f fs IH]; cbn [added]; [by intros H%elem_of_nil|].
  intros [H|H]%elem_of_app.
  - destruct (decide (BF.storage f = Some p)) as [E|E]; [|by apply elem_of_nil in H].
    apply list_elem_of_singleton in H. exists f. split; [left|done].
  - destruct (IH H) as (g & Hg & Hp & Hx). exists g. split; [by right|done].
Qed.

(** [Append] adds to the queue of each storage the bits of the filters that
    use it, in the order of the filters, and nothing else changes in a
    storage; every bit added lies within the partition of its filter. *)
Theorem Append_queues_within_partition (W : Z) (b : BF.BF) (v : list byte)
    (m m' : machine) (p : nat) (s : RedisStorage) :
  BF.Append W b v m = Some (tt, m') ->
  (forall f, f ∈ BF.filters b -> 0 <= BF.size f) ->
  stores m !! p = Some s ->
  stores m' !! p =
    Some (Build_RedisStorage (key s) (size s) (queue s ++ added W v (BF.filters b) p)) /\
  forall x, x ∈ added W v (BF.filters b) p ->
    exists f, f ∈ BF.filters b /\ BF.storage f = Some p /\ 0 <= x < BF.size f.
Proof.
  intros H Hsz Hs. rewrite Append_unfold in H.
  pose proof (insert_all_queued W v _ _ _ H) as Hu.
  apply insert_pass in H as [_ Hst]. split.
  - rewrite Hst, Hs. reflexivity.
  - intros x Hx. apply added_elem in Hx as (f & Hf & Hp & ->).
    exists f. split; [done|]. split; [done|].
    destruct (Hu f Hf) as [(_ & Hz & _) _]. specialize (Hsz f Hf).
    unfold index_of. apply Z.mod_pos_bound. lia.
Qed.

Lemma Append_queues_within_partition_witness :
  stores (machine_after (BF.Append 64 example_filter alpha) example_machine) !! 1%nat =
    Some (Build_RedisStorage "bf.2" 8 [3]).
Proof.
  apply (proj1 (Append_queues_within_partition 64 example_filter alpha example_machine
                  (machine_after (BF.Append 64 example_filter alpha) example_machine)
                  1%nat (Build_RedisStorage "bf.2" 8 [])
                  ltac:(vm_compute; reflexivity)
                  ltac:(intros f Hf; repeat (apply elem_of_cons in Hf as [->|Hf];
                          [cbn; lia|]); by apply elem_of_nil in Hf)
                  eq_refl)).
Defined.

Lemma for_each_panics {A} (body : A -> M unit) (l : list A) (x : A) m :
  x ∈ l -> (forall m, body x m = None) -> for_each body l m = None.
Proof.
  revert m. induction l as [|y l IH]; intros m Hx Hb; [by apply elem_of_nil in Hx|].
  cbn [for_each]. unfold bind. apply elem_of_cons in Hx as [->|Hx].
  - by rewrite Hb.
  - destruct (body y m) as [[[] m1]|]; [by apply IH|done].
Qed.

Lemma insert_step_zero_size W v f m : BF.size f = 0 -> insert_step W v f m = None.
Proof.
  intros Hz. destruct (insert_step W v f m) as [[[] m']|] eqn:E; [|done].
  apply insert_step_Some in E as (_ & Hne & _). done.
Qed.

Lemma insert_step_nil_storage W v f m : BF.storage f = None -> insert_step W v f m = None.
Proof.
  intros Hz. destruct (insert_step W v f m) as [[[] m']|] eqn:E; [|done].
  apply insert_step_Some in E as (_ & _ & p & s & Hp & _). congruence.
Qed.

(** A filter with a partition of size zero (as [filterSetup] builds for a
    total size of zero) makes [Append] and [Add] panic with a division by
    zero, on every value and every machine. *)
Theorem zero_size_panics (W : Z) (b : BF.BF) (f : BF.filter) (v : list byte)
    (values : list (list byte)) (m : machine) :
  f ∈ BF.filters b -> BF.size f = 0 ->
  BF.Append W b v m = None /\ BF.Add W b (v :: values) m = None.
Proof.
  intros Hf Hz.
  assert (H : forall m, BF.Append W b v m = None).
  { intros m0. rewrite Append_unfold. apply (for_each_panics _ _ f); [done|].
    intros m1. by apply insert_step_zero_size. }
  split; [apply H|]. rewrite Add_Append. cbn [for_each]. unfold bind. by rewrite H.
Qed.

Lemma zero_size_panics_witness :
  BF.Append 64 (BF.Build_BF [BF.Build_filter 0 (Some 0%nat) 0 1]) alpha example_machine = None.
Proof.
  apply (proj1 (zero_size_panics 64 (BF.Build_BF [BF.Build_filter 0 (Some 0%nat) 0 1])
                  (BF.Build_filter 0 (Some 0%nat) 0 1) alpha [] example_machine
                  ltac:(left) eq_refl)).
Defined.

(** ** Flushing an empty queue *)

(** [RedisStorage.Save] with an empty queue returns at once: no connection
    is taken, nothing is sent, the machine is as before. *)
Theorem Save_of_empty_queue_is_silent (p : nat) (m : machine) (s : RedisStorage) :
  stores m !! p = Some s -> queue s = [] ->
  RedisStorage.Save p m = Some (tt, m).
Proof.
  intros Hs Hq. apply RS_Save_Some. exists s. split; [done|].
  unfold flushed. by rewrite bool_decide_eq_true_2.
Qed.

Lemma Save_of_empty_queue_is_silent_witness :
  RedisStorage.Save 0 (claim_C5_machine [dropped 0]) = Some (tt, claim_C5_machine [dropped 0]).
Proof.
  apply (Save_of_empty_queue_is_silent 0 (claim_C5_machine [dropped 0])
           (Build_RedisStorage "bf.1" 8 []) eq_refl eq_refl).
Defined.

(** ** A filter without filters *)

Lemma Exist_values_no_filters W vs index ex m :
  BF.Exist_values W [] vs index ex m = Some ((ex, None), m).
Proof.
  revert index. induction vs as [|v vs IH]; intros index; [reflexivity|].
  cbn [BF.Exist_values BF.Exist_filters]. unfold bind, ret. cbn [snd fst]. apply IH.
Qed.

(** With zero hash iterations [NewRedis] builds a filter without filters and
    talks to no server; on it [Exists] reports every value as present, and
    [Exist] every value as absent. *)
Theorem no_filters_no_answers (W oob : Z) (key : string) (size e : Z) (m : machine)
    (v : list byte) (values : list (list byte)) :
  BF.NewRedis W oob key size 0 e m =
    Some ((BF.Build_BF [], false, None),
          Build_machine (hashers m ++ [fnv.New64]) (stores m) (redis m)) /\
  BF.Exists W (BF.Build_BF []) v m = Some ((true, None), m) /\
  BF.Exist W (BF.Build_BF []) values m =
    Some ((replicate (length values) false, None), m).
Proof.
  split; [reflexivity|]. split; [reflexivity|]. apply Exist_values_no_filters.
Qed.

(** ** Constructing a filter on Redis *)

Lemma NewRedisStorage_alloc k sz e m p ex err m' :
  RedisStorage.NewRedisStorage k sz e m = Some ((p, ex, err), m') ->
  p = length (stores m) /\ stores m' = stores m ++ [Build_RedisStorage k sz []] /\
  hashers m' = hashers m.
Proof.
  rewrite NewRedisStorage_cases. cbv zeta.
  destruct (faults (redis m)) as [|[|n] rest];
    try destruct (bool_decide (is_Some (db (redis m) !! k)));
    intros [= <- _ _ <-]; done.
Qed.

Lemma NewRedis_loop_error key e rest index fs ex m b ex' err m' :
  BF.NewRedis_loop key e rest index fs ex m = Some ((b, ex', Some err), m') ->
  drop index fs = rest -> Forall (fun f => BF.storage f = None) rest ->
  exists f, f ∈ BF.filters b /\ BF.storage f = None.
Proof.
  revert index fs ex m. induction rest as [|f rest IH]; intros index fs ex m H Hd Hn.
  - apply ret_Some in H. discriminate H.
  - assert (Hl : fs !! index = Some f).
    { rewrite <- (Nat.add_0_r index), <- lookup_drop, Hd. done. }
    apply Forall_cons in Hn as [Hf Hn].
    cbn [BF.NewRedis_loop] in H. apply bind_Some in H as ([[p ex1] err1] & m1 & _ & H).
    destruct err1 as [err1|].
    + apply ret_Some in H as [= -> _ _]. exists f. split; [|done].
      by eapply list_elem_of_lookup_2.
    + eapply IH; [exact H| |exact Hn].
      rewrite drop_insert_lt by lia.
      change (S index) with (1 + index)%nat. by rewrite Nat.add_comm, <- drop_drop, Hd.
Qed.

(** When [NewRedis] returns an error, the filter it returns with it has a
    filter without storage: [Save], [Append] and [Add] on it panic. *)
Theorem NewRedis_error_leaves_unusable_filter (W oob : Z) (key : string)
    (size hashIter e : Z) (m m' : machine) (b : BF.BF) (ex : bool) (err : error) :
  0 <= hashIter < 2 ^ W ->
  BF.NewRedis W oob key size hashIter e m = Some ((b, ex, Some err), m') ->
  forall m1 v,
    BF.Save b m1 = None /\ BF.Append W b v m1 = None /\ BF.Add W b [v] m1 = None.
Proof.
  intros Hk H m1 v. unfold BF.NewRedis in H.
  apply bind_Some in H as (fs & m0 & Hfs & H).
  rewrite filterSetup_spec in Hfs by done. injection Hfs as <- <-.
  apply NewRedis_loop_error in H as (f & Hf & Hnil); [|done|].
  - assert (Ha : forall m2, BF.Append W b v m2 = None).
    { intros m2. rewrite Append_unfold. apply (for_each_panics _ _ f); [done|].
      intros m3. by apply insert_step_nil_storage. }
    split; [|split; [apply Ha|]].
    + apply (for_each_panics _ _ f); [done|]. intros m2. by rewrite Hnil.
    + rewrite Add_Append. cbn [for_each]. unfold bind. by rewrite Ha.
  - apply Forall_fmap, Forall_forall. done.
Qed.

Lemma NewRedis_error_leaves_unusable_filter_witness :
  BF.Save (BF.Build_BF [BF.Build_filter 5 None 0 1; BF.Build_filter 5 None 0 2])
    empty_machine = None.
Proof.
  apply (proj1 (NewRedis_error_leaves_unusable_filter 64 0 "bf" 10 2 60
           (Build_machine [] [] (Build_server ∅ [] [dropped 0]))
           (machine_after (BF.NewRedis 64 0 "bf" 10 2 60)
              (Build_machine [] [] (Build_server ∅ [] [dropped 0])))
           (BF.Build_BF [BF.Build_filter 5 None 0 1; BF.Build_filter 5 None 0 2])
           false ConnError ltac:(lia) ltac:(vm_compute; reflexivity) empty_machine alpha)).
Defined.

(** ** What the calls never do *)

(** No sequence of calls on a filter clears a bit of the database or changes
    the key or the size of a storage, and a queue only grows at its end: the
    queue after the calls is the queue before them followed by what the
    calls have added, so no entry is dropped, moved or merged with a
    repeated one; and a connection without faults stays without. *)
Theorem calls_only_add (W : Z) (b : BF.BF) (calls : list call) (m m' : machine) :
  run_calls W b calls m = Some (tt, m') ->
  (forall k i, getbit k i (db (redis m)) = true -> getbit k i (db (redis m')) = true) /\
  (forall p s, stores m !! p = Some s ->
     exists s' added, stores m' !! p = Some s' /\ key s' = key s /\ size s' = size s /\
                      queue s' = queue s ++ added) /\
  length (stores m') = length (stores m) /\
  (faults (redis m) = [] -> faults (redis m') = []).
Proof.
  intros H. apply preserves_run_calls in H as [_ Hl Hs Hd Hf].
  split; [done|]. split; [|done].
  intros p s Hp. destruct (Hs p s Hp) as (s' & Hs' & Hk & Hz & [added Hq]).
  by exists s', added.
Qed.

Lemma calls_only_add_witness :
  getbit "bf.2" 3 (db (redis (machine_after
     (run_calls 64 example_filter (claim_C1_calls ++ [call_Exists alpha; call_Add [beta]; call_Save]))
     claim_C1_machine))) = true /\
  exists s' added,
    stores (machine_after
      (run_calls 64 example_filter (claim_C1_calls ++ [call_Exists alpha; call_Add [beta]; call_Save]))
      claim_C1_machine) !! 1%nat = Some s' /\
    key s' = "bf.2" /\ size s' = 8 /\ queue s' = [3; 4] ++ added.
Proof.
  destruct (calls_only_add 64 example_filter
              (claim_C1_calls ++ [call_Exists alpha; call_Add [beta]; call_Save])
              claim_C1_machine _ ltac:(vm_compute; reflexivity)) as (Hd & Hs & _).
  split; [apply Hd; vm_compute; reflexivity|].
  apply (Hs 1%nat (Build_RedisStorage "bf.2" 8 [3; 4])). vm_compute. reflexivity.
Defined.

(** Computations that read: they leave the storages and the database. *)
Definition reads_only {A} (c : M A) : Prop :=
  forall m a m', c m = Some (a, m') ->
    stores m' = stores m /\ db (redis m') = db (redis m).

Lemma reads_only_ret {A} (a : A) : reads_only (ret a).
Proof. intros m a' m' [= _ <-]%ret_Some. done. Qed.

Lemma reads_only_panic {A} : reads_only (@panic A).
Proof. intros m a m' H. discriminate. Qed.

Lemma reads_only_bind {A B} (c : M A) (k : A -> M B) :
  reads_only c -> (forall a, reads_only (k a)) -> reads_only (bind c k).
Proof.
  intros Hc Hk m b m' H. apply bind_Some in H as (a & m1 & H1 & H2).
  destruct (Hc _ _ _ H1) as [E1 E2]. destruct (Hk _ _ _ _ H2) as [E3 E4].
  split; congruence.
Qed.

Lemma reads_only_hashValue f v : reads_only (BF.hashValue f v).
Proof.
  intros m a m' H.
  destruct (decide (BF.hasher f < length (hashers m))%nat) as [Hv|Hv].
  - rewrite hashValue_Some in H by done. by injection H as _ <-.
  - rewrite hashValue_None in H by lia. discriminate.
Qed.

Lemma reads_only_query W v f : reads_only (query W v f).
Proof.
  unfold query.
  apply reads_only_bind; [apply reads_only_hashValue|intros ab].
  apply reads_only_bind.
  { intros m a m' H. apply bit_index_Some in H as [_ [= _ <-]]. done. }
  intros i. destruct (BF.storage f) as [p|]; [|apply reads_only_panic].
  intros m a m' H. cbn [BF.storage_Exists] in H. unfold RedisStorage.Exists in H.
  apply bind_Some in H as (s & m1 & [Hs ->]%load_Some & H).
  apply bind_Some in H as (r & m1 & [-> ->]%on_server_Some & H).
  assert (m' = Build_machine (hashers m) (stores m)
                 (snd (Do (GETBIT (key s) i) (redis m)))) as ->.
  { destruct (Do (GETBIT (key s) i) (redis m)).1; by apply ret_Some in H as [= _ <-]. }
  cbn [stores redis]. by rewrite Do_GETBIT_db.
Qed.

Lemma reads_only_Exists_loop W fs v err : reads_only (BF.Exists_loop W fs v err).
Proof.
  revert err. induction fs as [|f fs IH]; intros err; [apply reads_only_ret|].
  intros m a m' H. rewrite Exists_loop_cons in H. revert m a m' H.
  apply reads_only_bind; [apply reads_only_query|]. intros r.
  destruct (negb (fst r)); [apply reads_only_ret|apply IH].
Qed.

Lemma Exist_filters_cons W f fs v index ex m :
  BF.Exist_filters W (f :: fs) v index ex m =
  bind (query W v f) (fun r =>
    match snd r with
    | Some e => ret (ex, Some e)
    | None => BF.Exist_filters W fs v index (<[index := fst r]> ex)
    end) m.
Proof.
  cbn [BF.Exist_filters]. change (BF.hashedValue f v) with (BF.hashValue f v).
  unfold query, bind.
  destruct (BF.hashValue f v m) as [[ab m1]|]; [|reflexivity].
  destruct (BF.bit_index W f ab.1 ab.2 m1) as [[i m2]|]; reflexivity.
Qed.

Lemma reads_only_Exist_filters W fs v index ex : reads_only (BF.Exist_filters W fs v index ex).
Proof.
  revert ex. induction fs as [|f fs IH]; intros ex; [apply reads_only_ret|].
  intros m a m' H. rewrite Exist_filters_cons in H. revert m a m' H.
  apply reads_only_bind; [apply reads_only_query|]. intros r.
  destruct (snd r); [apply reads_only_ret|apply IH].
Qed.

Lemma reads_only_Exist_values W fs vs index ex : reads_only (BF.Exist_values W fs vs index ex).
Proof.
  revert index ex. induction vs as [|v vs IH]; intros index ex; [apply reads_only_ret|].
  cbn [BF.Exist_values].
  apply reads_only_bind; [apply reads_only_Exist_filters|intros r].
  destruct (snd r); [apply reads_only_ret|apply IH].
Qed.

(** [Exists] and [Exist] only read: whatever they return, the queues and the
    other fields of the storages and the database of the server are as
    before. *)
Theorem lookups_only_read (W : Z) (b : BF.BF) (v : list byte) (values : list (list byte))
    (m : machine) :
  (forall r m', BF.Exists W b v m = Some (r, m') ->
     stores m' = stores m /\ db (redis m') = db (redis m)) /\
  (forall r m', BF.Exist W b values m = Some (r, m') ->
     stores m' = stores m /\ db (redis m') = db (redis m)).
Proof.
  split; intros r m' H.
  - by apply reads_only_Exists_loop in H.
  - by apply reads_only_Exist_values in H.
Qed.

(** ** What the batch lookup answers *)

Section Batch.
Variable W : Z.

(** The bit of [v] of one filter, as the database has it. *)
Definition stored_bit (m : machine) (v : list byte) (f : BF.filter) : bool :=
  match BF.storage f with
  | Some p =>
      match stores m !! p with
      | Some s => getbit (key s) (index_of W f v) (db (redis m))
      | None => false
      end
  | None => false
  end.

Lemma stored_bit_ext m m' v f :
  stores m' = stores m -> db (redis m') = db (redis m) ->
  stored_bit m' v f = stored_bit m v f.
Proof. intros H1 H2. unfold stored_bit. by rewrite H1, H2. Qed.

Lemma query_delivered v f m :
  usable m f -> faults (redis m) = [] ->
  exists m', query W v f m = Some ((stored_bit m v f, None), m') /\ extends m m'.
Proof.
  intros (Hv & Hz & p & Hp & Hlt) Hf.
  destruct (lookup_lt_is_Some_2 _ _ Hlt) as [s Hs].
  rewrite (query_Some W v f m p) by done.
  rewrite (RS_Exists_delivered p _ _ s) by done.
  eexists. split.
  - unfold stored_bit. rewrite Hp, Hs. reflexivity.
  - eapply extends_trans.
    + eapply preserves_hashValue. by apply hashValue_Some.
    + eapply (preserves_RS_Exists p (index_of W f v)).
      by apply (RS_Exists_delivered p _ _ s).
Qed.

Lemma Exist_filters_last fs v index ex m :
  (forall f, f ∈ fs -> usable m f) -> faults (redis m) = [] ->
  exists m',
    BF.Exist_filters W fs v index ex m =
      Some ((from_option (fun f => <[index := stored_bit m v f]> ex) ex (last fs), None), m')
    /\ extends m m'.
Proof.
  revert ex m. induction fs as [|f fs IH]; intros ex m Hu Hf.
  - exists m. split; [reflexivity|apply extends_refl].
  - destruct (query_delivered v f m) as (m1 & Hq & E1); [apply Hu; left|done|].
    destruct (IH (<[index := stored_bit m v f]> ex) m1) as (m' & H' & E').
    { intros g Hg. apply (usable_extends m m1 g E1), Hu. by right. }
    { by apply (ext_faults _ _ E1). }
    exists m'. split; [|by eapply extends_trans].
    rewrite Exist_filters_cons. unfold bind. rewrite Hq. cbn [fst snd]. rewrite H'.
    destruct (reads_only_query W v f _ _ _ Hq) as [Hs Hd].
    destruct fs as [|g fs]; [reflexivity|].
    change (last (f :: g :: fs)) with (last (g :: fs)).
    destruct (last (g :: fs)) as [h|] eqn:El; cbn [from_option].
    + by rewrite list_insert_insert_eq, (stored_bit_ext m m1).
    + by apply last_None in El.
Qed.

Lemma Exist_values_last fs vs done m :
  (forall f, f ∈ fs -> usable m f) -> faults (redis m) = [] ->
  exists m',
    BF.Exist_values W fs vs (length done) (done ++ replicate (length vs) false) m =
      Some ((done ++ ((fun v => from_option (stored_bit m v) false (last fs)) <$> vs),
             None), m').
Proof.
  revert done m. induction vs as [|v vs IH]; intros done m Hu Hf.
  - exists m. reflexivity.
  - cbn [BF.Exist_values length replicate].
    destruct (Exist_filters_last fs v (length done)
                (done ++ false :: replicate (length vs) false) m Hu Hf) as (m1 & H1 & E1).
    pose proof (reads_only_Exist_filters W fs v _ _ _ _ _ H1) as [Hs Hd].
    destruct (IH (done ++ [from_option (stored_bit m v) false (last fs)]) m1)
      as (m' & H').
    { intros g Hg. apply (usable_extends m m1 g E1), Hu, Hg. }
    { by apply (ext_faults _ _ E1). }
    { exists m'. unfold bind. rewrite H1. cbn [fst snd].
      assert (Hex : from_option
                (fun f => <[length done := stored_bit m v f]>
                            (done ++ false :: replicate (length vs) false))
                (done ++ false :: replicate (length vs) false) (last fs) =
              (done ++ [from_option (stored_bit m v) false (last fs)]) ++
                replicate (length vs) false).
      { rewrite <- app_assoc. destruct (last fs) as [g|]; cbn [from_option app]; [|done].
        rewrite insert_app_r_alt by lia. by rewrite Nat.sub_diag. }
      rewrite Hex. rewrite length_app, Nat.add_1_r in H'. rewrite H'.
      rewrite <- app_assoc. cbn [fmap list_fmap app].
      do 5 f_equal. apply list_fmap_ext. intros _ w _.
      destruct (last fs) as [g|]; [|done]. cbn. by apply stored_bit_ext. }
Qed.
End Batch.

(** On a connection without faults and a filter whose filters all have a
    hasher, a storage and a size that is not zero, [Exist] returns no error
    and, for every value, the bit of the last filter alone (false when there
    is no filter): the answers of the filters before it are overwritten. *)
Theorem Exist_answers_with_the_last_filter (W : Z) (b : BF.BF)
    (values : list (list byte)) (m : machine) :
  (forall f, f ∈ BF.filters b -> usable m f) -> faults (redis m) = [] ->
  exists m',
    BF.Exist W b values m =
      Some (((fun v => from_option (stored_bit W m v) false (last (BF.filters b)))
               <$> values, None), m').
Proof.
  intros Hu Hf.
  destruct (Exist_values_last W (BF.filters b) values [] m Hu Hf) as (m' & H).
  exists m'. exact H.
Qed.

Lemma Exist_answers_with_the_last_filter_witness :
  exists m',
    BF.Exist 64 example_filter [alpha; beta] claim_C1_machine =
      Some (((fun v => from_option (stored_bit 64 claim_C1_machine v) false
                         (last (BF.filters example_filter))) <$> [alpha; beta], None), m').
Proof.
  apply (Exist_answers_with_the_last_filter 64 example_filter [alpha; beta] claim_C1_machine).
  - intros f Hf. repeat (apply elem_of_cons in Hf as [->|Hf];
      [split; [cbn; lia|split; [cbn; lia|eexists; split; [reflexivity|cbn; lia]]]|]).
    by apply elem_of_nil in Hf.
  - reflexivity.
Defined.

(** ** The storages [NewRedis] attaches *)

Definition storage_key (key : string) (multiplier : Z) : string :=
  key +:+ "." +:+ pretty multiplier.

Lemma NewRedis_loop_ok key e rest index fs ex m b ex' m' :
  BF.NewRedis_loop key e rest index fs ex m = Some ((b, ex', None), m') ->
  drop index fs = rest ->
  BF.filters b =
    take index fs ++
    imap (fun j f => BF.Build_filter (BF.size f) (Some (length (stores m) + j)%nat)
                       (BF.hasher f) (BF.multiplier f)) rest /\
  stores m' =
    stores m ++
    ((fun f => Build_RedisStorage (storage_key key (BF.multiplier f)) (BF.size f) []) <$> rest).
Proof.
  revert index fs ex m. induction rest as [|f rest IH]; intros index fs ex m H Hd.
  - apply ret_Some in H as [= -> _ <-]. cbn. rewrite !app_nil_r. split; [|done].
    rewrite <- (take_drop index fs) at 1. by rewrite Hd, app_nil_r.
  - assert (Hl : fs !! index = Some f).
    { rewrite <- (Nat.add_0_r index), <- lookup_drop, Hd. done. }
    cbn [BF.NewRedis_loop] in H. apply bind_Some in H as ([[p ex1] err1] & m1 & Hn & H).
    apply NewRedisStorage_alloc in Hn as (-> & Hs1 & _).
    destruct err1 as [err1|]; [apply ret_Some in H; discriminate H|].
    apply IH in H as [Hf Hs].
    + split.
      * rewrite Hf. rewrite (take_S_r _ _ (BF.Build_filter (BF.size f)
           (Some (length (stores m))) (BF.hasher f) (BF.multiplier f))).
        2:{ apply list_lookup_insert_eq. by eapply lookup_lt_Some. }
        rewrite take_insert_ge by lia. rewrite <- app_assoc. f_equal.
        cbn [imap app]. rewrite Nat.add_0_r. f_equal.
        apply imap_ext. intros j g _. cbn. rewrite Hs1, length_app. cbn.
        do 2 f_equal. lia.
      * rewrite Hs, Hs1, <- app_assoc. reflexivity.
    + rewrite drop_insert_lt by lia.
      change (S index) with (1 + index)%nat. by rewrite Nat.add_comm, <- drop_drop, Hd.
Qed.

(** Key isolation: a [NewRedis] that returns no error gives the filter of
    multiplier [i] a storage of its own, with the key [key.i], the partition
    size and an empty queue; the keys of different filters differ. *)
Theorem NewRedis_gives_each_filter_its_key (W oob : Z) (key : string)
    (size hashIter e : Z) (m m' : machine) (b : BF.BF) (ex : bool) :
  0 <= hashIter < 2 ^ W ->
  BF.NewRedis W oob key size hashIter e m = Some ((b, ex, None), m') ->
  let P := partitionSize W oob size hashIter in
  BF.filters b =
    imap (fun j i => BF.Build_filter P (Some (length (stores m) + j)%nat)
                       (length (hashers m)) i) (seqZ 1 hashIter) /\
  stores m' =
    stores m ++ ((fun i => Build_RedisStorage (storage_key key i) P []) <$> seqZ 1 hashIter) /\
  NoDup (storage_key key <$> seqZ 1 hashIter).
Proof.
  intros Hk H P. unfold BF.NewRedis in H.
  apply bind_Some in H as (fs & m0 & Hfs & H).
  rewrite filterSetup_spec in Hfs by done. injection Hfs as <- <-.
  apply NewRedis_loop_ok in H as [Hf Hs]; [|done]. cbn [stores] in Hf, Hs.
  split; [|split].
  - rewrite Hf. cbn [take app]. by rewrite imap_fmap.
  - rewrite Hs. by rewrite <- list_fmap_compose.
  - apply NoDup_fmap_2; [|apply NoDup_seqZ].
    intros i j Hij. unfold storage_key in Hij.
    apply (inj (String.app key)) in Hij. apply (inj (String.app ".")) in Hij.
    by apply (inj pretty) in Hij.
Qed.

Lemma NewRedis_gives_each_filter_its_key_witness :
  stores (machine_after (BF.NewRedis 64 0 "bf" 10 2 60) empty_machine) =
    [Build_RedisStorage "bf.1" 5 []; Build_RedisStorage "bf.2" 5 []].
Proof.
  rewrite (proj1 (proj2 (NewRedis_gives_each_filter_its_key 64 0 "bf" 10 2 60 empty_machine
             (machine_after (BF.NewRedis 64 0 "bf" 10 2 60) empty_machine)
             (BF.Build_BF [BF.Build_filter 5 (Some 0%nat) 0 1; BF.Build_filter 5 (Some 1%nat) 0 2])
             false ltac:(lia) ltac:(vm_compute; reflexivity)))).
  vm_compute. reflexivity.
Defined.

(** ** The errors of [NewRedisStorage] *)

Lemma Flush_dropped_inv cs r err :
  fst (Flush cs r) = Some err ->
  exists n rest, faults r = dropped n :: rest /\
    snd (Flush cs r) = Build_server (exec_all (take n cs) (db r)) (log r ++ take n cs) rest.
Proof.
  unfold Flush. destruct (faults r) as [|[|n] rest]; [done|done|]. intros _. eauto.
Qed.

(** [NewRedisStorage] never panics and always allocates the storage with an
    empty queue. When it returns an error the flag is false, and either the
    [EXISTS] round trip broke and the server ran nothing, or the key was
    absent and the round trip of [init] broke after the server had run some
    first commands of its batch. *)
Theorem NewRedisStorage_errors (k : string) (sz e : Z) (m : machine) :
  exists p ex err m',
    RedisStorage.NewRedisStorage k sz e m = Some ((p, ex, err), m') /\
    p = length (stores m) /\
    stores m' = stores m ++ [Build_RedisStorage k sz []] /\
    (is_Some err ->
       ex = false /\
       ((exists n rest, faults (redis m) = dropped n :: rest /\
           db (redis m') = db (redis m) /\ log (redis m') = log (redis m)) \/
        (db (redis m) !! k = None /\
         exists n,
           db (redis m') =
             exec_all (take n (RedisStorage.init_commands k sz e)) (db (redis m)) /\
           log (redis m') =
             log (redis m) ++ [EXISTS k] ++ take n (RedisStorage.init_commands k sz e)))).
Proof.
  destruct (RedisStorage.NewRedisStorage k sz e m) as [[[[p ex] err] m']|] eqn:H.
  2:{ rewrite NewRedisStorage_cases in H. cbv zeta in H.
      destruct (faults (redis m)) as [|[|n] rest];
        try destruct (bool_decide (is_Some (db (redis m) !! k))); discriminate. }
  exists p, ex, err, m'. split; [done|].
  destruct (NewRedisStorage_alloc _ _ _ _ _ _ _ _ H) as (Hp & Hs & _).
  split; [done|]. split; [done|]. intros [err0 ->].
  rewrite NewRedisStorage_cases in H. cbv zeta in H.
  assert (Hgen : forall fl,
    (if bool_decide (is_Some (db (redis m) !! k))
     then Some ((length (stores m), true, None),
                with_store (Build_RedisStorage k sz [])
                  (Build_server (db (redis m)) (log (redis m) ++ [EXISTS k]) fl) m)
     else Some ((length (stores m), false,
                 fst (Flush (RedisStorage.init_commands k sz e)
                   (Build_server (db (redis m)) (log (redis m) ++ [EXISTS k]) fl))),
                with_store (Build_RedisStorage k sz [])
                  (snd (Flush (RedisStorage.init_commands k sz e)
                     (Build_server (db (redis m)) (log (redis m) ++ [EXISTS k]) fl))) m))
    = Some ((p, ex, Some err0), m') ->
    ex = false /\
    (db (redis m) !! k = None /\
     exists n,
       db (redis m') =
         exec_all (take n (RedisStorage.init_commands k sz e)) (db (redis m)) /\
       log (redis m') =
         log (redis m) ++ [EXISTS k] ++ take n (RedisStorage.init_commands k sz e))).
  { intros fl. destruct (bool_decide_reflect (is_Some (db (redis m) !! k))) as [Hk|Hk];
      [discriminate|].
    intros [= _ <- Hfl <-]. split; [done|]. split.
    - destruct (db (redis m) !! k); [destruct Hk; eauto|done].
    - apply Flush_dropped_inv in Hfl as (n & rest & _ & Hsnd). exists n.
      cbn [with_store redis]. rewrite Hsnd. cbn [db log]. by rewrite <- app_assoc. }
  destruct (faults (redis m)) as [|[|n] rest] eqn:Hf.
  - destruct (Hgen _ H) as [? ?]. auto.
  - destruct (Hgen _ H) as [? ?]. auto.
  - inversion H; subst. split; [done|]. left. exists n, rest. done.
Qed.

(** ** Constructing twice on the same key *)

Lemma exec_all_zero_present k l d b t :
  d !! k = Some (Entry b t) ->
  exec_all ((fun i => SETBIT k i false) <$> l) d = <[k := Entry (b ∖ list_to_set l) t]> d.
Proof.
  revert d b. induction l as [|i l IH]; intros d b Hk.
  - cbn. rewrite insert_id; [done|]. rewrite Hk. do 2 f_equal. set_solver.
  - cbn [fmap list_fmap]. rewrite exec_all_cons. cbn [exec fst]. rewrite Hk.
    cbn [default bits ttl].
    rewrite (IH _ (b ∖ {[i]})) by apply lookup_insert_eq.
    rewrite insert_insert_eq. do 2 f_equal. set_solver.
Qed.

Lemma exec_all_zero_absent k l d :
  d !! k = None -> l <> [] ->
  exec_all ((fun i => SETBIT k i false) <$> l) d = <[k := Entry ∅ None]> d.
Proof.
  intros Hk Hl. destruct l as [|i l]; [done|]. clear Hl.
  cbn [fmap list_fmap]. rewrite exec_all_cons. cbn [exec fst]. rewrite Hk.
  cbn [default empty_entry bits ttl].
  rewrite (exec_all_zero_present k l _ (∅ ∖ {[i]}) None) by apply lookup_insert_eq.
  rewrite insert_insert_eq. do 2 f_equal. set_solver.
Qed.

Lemma init_on_absent_key k sz e d :
  d !! k = None -> 0 < sz -> 0 < e ->
  exec_all (RedisStorage.init_commands k sz e) d = <[k := Entry ∅ (Some e)]> d.
Proof.
  intros Hk Hsz He. unfold RedisStorage.init_commands.
  rewrite exec_all_app, exec_all_zero_absent; [|done|].
  - cbn [exec_all fold_left exec fst]. rewrite lookup_insert_eq.
    destruct (Z.leb_spec e 0); [lia|]. cbn [bits]. by rewrite insert_insert_eq.
  - intros E. apply (f_equal length) in E. rewrite length_seqZ in E. cbn in E. lia.
Qed.

(** A first construction on an absent key, with a positive size and expiry
    and delivered round trips, leaves the key with every bit zero and the
    expiry as its time to live; a second construction on that key (its round
    trip delivered) reports that the key existed, sends [EXISTS] alone and
    leaves the database as it is. *)
Theorem second_construction_keeps_the_bits (k : string) (sz e sz' e' : Z)
    (m m1 : machine) (p : nat) :
  0 < sz -> 0 < e ->
  RedisStorage.NewRedisStorage k sz e m = Some ((p, false, None), m1) ->
  (forall n rest, faults (redis m1) <> dropped n :: rest) ->
  db (redis m1) = <[k := Entry ∅ (Some e)]> (db (redis m)) /\
  exists m2,
    RedisStorage.NewRedisStorage k sz' e' m1 = Some ((S p, true, None), m2) /\
    db (redis m2) = db (redis m1) /\
    log (redis m2) = log (redis m1) ++ [EXISTS k].
Proof.
  intros Hsz He H Hf.
  destruct (NewRedisStorage_alloc _ _ _ _ _ _ _ _ H) as (-> & Hs & _).
  assert (Hdb : db (redis m1) = <[k := Entry ∅ (Some e)]> (db (redis m))).
  { rewrite NewRedisStorage_cases in H. cbv zeta in H.
    assert (Hgen : forall fl,
      (if bool_decide (is_Some (db (redis m) !! k))
       then Some ((length (stores m), true, None),
                  with_store (Build_RedisStorage k sz [])
                    (Build_server (db (redis m)) (log (redis m) ++ [EXISTS k]) fl) m)
       else Some ((length (stores m), false,
                   fst (Flush (RedisStorage.init_commands k sz e)
                     (Build_server (db (redis m)) (log (redis m) ++ [EXISTS k]) fl))),
                  with_store (Build_RedisStorage k sz [])
                    (snd (Flush (RedisStorage.init_commands k sz e)
                       (Build_server (db (redis m)) (log (redis m) ++ [EXISTS k]) fl))) m))
      = Some ((length (stores m), false, None), m1) ->
      db (redis m1) = <[k := Entry ∅ (Some e)]> (db (redis m))).
    { intros fl. destruct (bool_decide_reflect (is_Some (db (redis m) !! k))) as [Hk|Hk];
        [discriminate|].
      intros [= Hfl <-]. cbn [with_store redis].
      rewrite (Flush_delivered_inv _ _ Hfl). cbn [db].
      apply init_on_absent_key; [|done|done].
      destruct (db (redis m) !! k); [destruct Hk; eauto|done]. }
    destruct (faults (redis m)) as [|[|n] rest];
      [exact (Hgen _ H)|exact (Hgen _ H)|discriminate]. }
  split; [done|].
  rewrite NewRedisStorage_cases. cbv zeta.
  assert (Hk : bool_decide (is_Some (db (redis m1) !! k)) = true).
  { apply bool_decide_eq_true_2. rewrite Hdb, lookup_insert_eq. eauto. }
  rewrite Hk, Hs, length_app. cbn [length]. rewrite Nat.add_1_r.
  destruct (faults (redis m1)) as [|[|n] rest] eqn:E.
  - eexists. split; [reflexivity|]. split; reflexivity.
  - eexists. split; [reflexivity|]. split; reflexivity.
  - by destruct (Hf n rest).
Qed.

Lemma second_construction_keeps_the_bits_witness :
  db (redis claim_C6_machine) = <[ "bf.1" := Entry ∅ (Some 60)]> ∅.
Proof.
  apply (second_construction_keeps_the_bits "bf.1" 8 60 8 60 empty_machine claim_C6_machine
           0%nat ltac:(lia) ltac:(lia) ltac:(vm_compute; reflexivity)
           ltac:(intros n rest H; discriminate H)).
Defined.

(** ** The order of the flushes *)

Lemma exec_set_commute k i k' j d :
  fst (exec (SETBIT k' j true) (fst (exec (SETBIT k i true) d))) =
  fst (exec (SETBIT k i true) (fst (exec (SETBIT k' j true) d))).
Proof.
  cbn [exec fst]. destruct (decide (k = k')) as [->|Hk].
  - rewrite !lookup_insert_eq. cbn [default bits ttl]. rewrite !insert_insert_eq.
    do 2 f_equal. set_solver.
  - rewrite !lookup_insert_ne by done. by apply insert_insert_ne.
Qed.

Lemma exec_set_commands_commute k q k' j d :
  fst (exec (SETBIT k' j true) (exec_all (set_commands k q) d)) =
  exec_all (set_commands k q) (fst (exec (SETBIT k' j true) d)).
Proof.
  revert d. induction q as [|i q IH]; intros d; [reflexivity|].
  change (set_commands k (i :: q)) with (SETBIT k i true :: set_commands k q).
  rewrite !exec_all_cons, IH. f_equal. apply exec_set_commute.
Qed.

Lemma exec_all_set_commands_commute k q k' q' d :
  exec_all (set_commands k' q') (exec_all (set_commands k q) d) =
  exec_all (set_commands k q) (exec_all (set_commands k' q') d).
Proof.
  revert d. induction q' as [|j q' IH]; intros d; [reflexivity|].
  change (set_commands k' (j :: q')) with (SETBIT k' j true :: set_commands k' q').
  rewrite !exec_all_cons, exec_set_commands_commute. apply IH.
Qed.

(** The batch [Save] sends for one filter. *)
Definition batch (m : machine) (f : BF.filter) : list command :=
  match BF.storage f with
  | Some p =>
      match stores m !! p with
      | Some s => set_commands (key s) (queue s)
      | None => []
      end
  | None => []
  end.

Lemma batch_commute m f g d :
  exec_all (batch m g) (exec_all (batch m f) d) =
  exec_all (batch m f) (exec_all (batch m g) d).
Proof.
  unfold batch. destruct (BF.storage f) as [p|]; [|reflexivity].
  destruct (stores m !! p) as [s|]; [|reflexivity].
  destruct (BF.storage g) as [p'|]; [|reflexivity].
  destruct (stores m !! p') as [s'|]; [|reflexivity].
  apply exec_all_set_commands_commute.
Qed.

Lemma batches_permutation m fs fs' d :
  fs ≡ₚ fs' ->
  exec_all (concat (batch m <$> fs)) d = exec_all (concat (batch m <$> fs')) d.
Proof.
  intros H. revert d. induction H as [|f fs fs' _ IH|f g fs|fs1 fs2 fs3 _ IH1 _ IH2];
    intros d.
  - reflexivity.
  - cbn [fmap list_fmap concat]. rewrite !exec_all_app. apply IH.
  - cbn [fmap list_fmap concat]. rewrite !exec_all_app. f_equal. apply batch_commute.
  - by rewrite IH1.
Qed.

Definition has_storage (m : machine) (f : BF.filter) : Prop :=
  exists p s, BF.storage f = Some p /\ stores m !! p = Some s.

Lemma Save_delivered fs m :
  faults (redis m) = [] -> (forall f, f ∈ fs -> has_storage m f) ->
  exists m',
    for_each (fun f => BF.storage_Save (BF.storage f)) fs m = Some (tt, m') /\
    stores m' = stores m /\ faults (redis m') = [] /\
    db (redis m') = exec_all (concat (batch m <$> fs)) (db (redis m)) /\
    log (redis m') = log (redis m) ++ concat (batch m <$> fs).
Proof.
  revert m. induction fs as [|f fs IH]; intros m Hf Hv.
  - exists m. cbn. by rewrite app_nil_r.
  - destruct (Hv f) as (p & s & Hp & Hs); [left|].
    destruct (IH (flushed s m)) as (m' & H' & Hs' & Hf' & Hd' & Hl').
    { by apply flushed_faults. }
    { intros g Hg. destruct (Hv g) as (q & t & Hq & Ht); [by right|].
      exists q, t. by rewrite stores_flushed. }
    exists m'. cbn [for_each]. unfold bind. rewrite Hp. cbn [BF.storage_Save].
    assert (R : RedisStorage.Save p m = Some (tt, flushed s m))
      by (apply RS_Save_Some; eauto).
    rewrite R, H'. split; [done|]. split; [by rewrite Hs', stores_flushed|].
    split; [done|].
    assert (Hb : batch m f = set_commands (key s) (queue s)) by (unfold batch; by rewrite Hp, Hs).
    assert (Hbs : batch (flushed s m) <$> fs = batch m <$> fs).
    { apply list_fmap_ext. intros _ g _. unfold batch. by rewrite stores_flushed. }
    cbn [fmap list_fmap concat]. rewrite Hd', Hl', Hbs, Hb, exec_all_app.
    rewrite db_flushed, log_flushed by done. by rewrite <- app_assoc.
Qed.

Lemma Save_Some_has_storage fs m m' :
  for_each (fun f => BF.storage_Save (BF.storage f)) fs m = Some (tt, m') ->
  forall f, f ∈ fs -> has_storage m f.
Proof.
  revert m. induction fs as [|g fs IH]; intros m H f Hf; [by apply elem_of_nil in Hf|].
  cbn [for_each] in H. apply bind_Some in H as ([] & m1 & H1 & H2).
  destruct (BF.storage g) as [p|] eqn:Hp; [|discriminate].
  cbn [BF.storage_Save] in H1. apply RS_Save_Some in H1 as (s & Hs & [= ->]).
  apply elem_of_cons in Hf as [->|Hf].
  - exists p, s. done.
  - destruct (IH _ H2 f Hf) as (q & t & Hq & Ht). exists q, t.
    by rewrite stores_flushed in Ht.
Qed.

(** A command that sets a bit to 1. *)
Definition is_set (c : command) : Prop :=
  match c with SETBIT _ _ true => True | _ => False end.

Lemma batch_sets m f : Forall is_set (batch m f).
Proof.
  unfold batch. destruct (BF.storage f) as [p|]; [|constructor].
  destruct (stores m !! p) as [s|]; [|constructor].
  unfold set_commands. apply Forall_fmap, Forall_forall. done.
Qed.

Lemma batches_set m fs : Forall is_set (concat (batch m <$> fs)).
Proof.
  apply Forall_concat, Forall_fmap, Forall_forall. intros f _. apply batch_sets.
Qed.

(** Commands that set bits to 1 can be run in any order. *)
Lemma exec_all_sets_permutation cs cs' d :
  Forall is_set cs -> cs ≡ₚ cs' -> exec_all cs d = exec_all cs' d.
Proof.
  intros Hall Hp. revert d Hall.
  induction Hp as [|c cs cs' _ IH|c c' cs|cs1 cs2 cs3 H12 IH1 _ IH2]; intros d Hall.
  - reflexivity.
  - apply Forall_cons in Hall as [_ Hall]. rewrite !exec_all_cons. by apply IH.
  - apply Forall_cons in Hall as [Hc' Hall]. apply Forall_cons in Hall as [Hc _].
    rewrite !exec_all_cons. f_equal.
    destruct c as [?|k i v|? ?|? ?]; try done. destruct v; [|done].
    destruct c' as [?|k' i' v'|? ?|? ?]; try done. destruct v'; [|done].
    apply exec_set_commute.
  - rewrite IH1 by done. apply IH2. by rewrite <- H12.
Qed.

(** [Save] flushes the storages one goroutine each, so the order in which
    the server receives the [SETBIT]s of the filters is not fixed. On a
    connection without faults the storages stay as they are and the
    database [Save] leaves is the one every interleaving of the batches of
    the filters (one [SETBIT key bit 1] per queued index) gives; flushing
    the filters in any other order gives the same database and storages. *)
Theorem Save_order_is_irrelevant (fs fs' : list BF.filter) (m m1 : machine) :
  faults (redis m) = [] -> fs ≡ₚ fs' ->
  BF.Save (BF.Build_BF fs) m = Some (tt, m1) ->
  stores m1 = stores m /\
  (forall cs, cs ≡ₚ concat (batch m <$> fs) ->
     db (redis m1) = exec_all cs (db (redis m))) /\
  exists m2,
    BF.Save (BF.Build_BF fs') m = Some (tt, m2) /\
    db (redis m2) = db (redis m1) /\ stores m2 = stores m1.
Proof.
  intros Hf Hp H. unfold BF.Save in *. cbn [BF.filters] in *.
  pose proof (Save_Some_has_storage _ _ _ H) as Hv.
  destruct (Save_delivered fs m Hf Hv) as (m1' & H1 & Hs1 & _ & Hd1 & Hl1).
  rewrite H in H1. injection H1 as <-.
  split; [done|]. split.
  { intros cs Hcs. rewrite Hd1. symmetry.
    apply exec_all_sets_permutation; [|done]. rewrite Hcs. apply batches_set. }
  destruct (Save_delivered fs' m Hf) as (m2 & H2 & Hs2 & _ & Hd2 & _).
  { intros f Hin. apply Hv. by rewrite Hp. }
  exists m2. split; [done|]. split; [|congruence].
  rewrite Hd1, Hd2. symmetry. by apply batches_permutation.
Qed.

Lemma Save_order_is_irrelevant_witness :
  exists m2,
    BF.Save (BF.Build_BF (rev claim_C5_filters))
      (machine_after (BF.Add 64 example_filter [alpha]) example_machine) = Some (tt, m2) /\
    db (redis m2) =
      db (redis (machine_after (BF.Save example_filter)
                   (machine_after (BF.Add 64 example_filter [alpha]) example_machine))) /\
    stores m2 =
      stores (machine_after (BF.Save example_filter)
                (machine_after (BF.Add 64 example_filter [alpha]) example_machine)).
Proof.
  apply (proj2 (proj2 (Save_order_is_irrelevant claim_C5_filters (rev claim_C5_filters)
           (machine_after (BF.Add 64 example_filter [alpha]) example_machine)
           (machine_after (BF.Save example_filter)
              (machine_after (BF.Add 64 example_filter [alpha]) example_machine))
           ltac:(vm_compute; reflexivity) ltac:(apply Permutation_rev)
           ltac:(vm_compute; reflexivity)))).
Defined.

(** ** What the single lookup answers *)

Lemma Exists_loop_conjunction W fs v err m :
  (forall f, f ∈ fs -> usable m f) -> faults (redis m) = [] ->
  exists m',
    BF.Exists_loop W fs v err m =
      Some ((forallb (stored_bit W m v) fs, if fs is [] then err else None), m').
Proof.
  revert err m. induction fs as [|f fs IH]; intros err m Hu Hf.
  - exists m. reflexivity.
  - destruct (query_delivered W v f m) as (m1 & Hq & E1); [apply Hu; left|done|].
    destruct (reads_only_query W v f _ _ _ Hq) as [Hs Hd].
    rewrite Exists_loop_cons. unfold bind. rewrite Hq. cbn [fst snd forallb].
    destruct (stored_bit W m v f); cbn [negb andb].
    + destruct (IH None m1) as (m' & H').
      { intros g Hg. apply (usable_extends m m1 g E1), Hu. by right. }
      { by apply (ext_faults _ _ E1). }
      exists m'. rewrite H'. do 3 f_equal.
      * clear -Hs Hd. induction fs as [|g fs IHfs]; [done|]. cbn [forallb].
        rewrite IHfs. f_equal. by apply stored_bit_ext.
      * by destruct fs.
    + exists m1. reflexivity.
Qed.

(** On a connection without faults and a filter whose filters all have a
    hasher, a storage and a size that is not zero, [Exists] returns no error
    and the conjunction of the bits of the value over all the filters. *)
Theorem Exists_is_the_conjunction (W : Z) (b : BF.BF) (v : list byte) (m : machine) :
  (forall f, f ∈ BF.filters b -> usable m f) -> faults (redis m) = [] ->
  exists m',
    BF.Exists W b v m = Some ((forallb (stored_bit W m v) (BF.filters b), None), m').
Proof.
  intros Hu Hf.
  destruct (Exists_loop_conjunction W (BF.filters b) v None m Hu Hf) as (m' & H).
  exists m'. unfold BF.Exists. rewrite H. by destruct (BF.filters b).
Qed.

Lemma Exists_is_the_conjunction_witness :
  exists m',
    BF.Exists 64 example_filter beta claim_C1_machine =
      Some ((forallb (stored_bit 64 claim_C1_machine beta) (BF.filters example_filter),
             None), m').
Proof.
  apply (Exists_is_the_conjunction 64 example_filter beta claim_C1_machine).
  - intros f Hf. repeat (apply elem_of_cons in Hf as [->|Hf];
      [split; [cbn; lia|split; [cbn; lia|eexists; split; [reflexivity|cbn; lia]]]|]).
    by apply elem_of_nil in Hf.
  - reflexivity.
Defined.

(** * redis.go, as src/unnamed/part_000 has it (lines 176-283)

    The revision of redis.go that comes with bloom.go in part_000: no
    expiry, [Save] without the test of the queue, and the batch methods
    [Add], [Exist] and [Load] on bits. *)

Module RedisStorageV0.

(** [init] takes care of settings every bit to 0 in the Redis bitset. *)
Definition init (p : nat) : M (option error) :=
  s <- RedisStorage.load p ;;
  on_server (Flush ((fun i => SETBIT (key s) i false) <$> seqZ 0 (size s))).

(** [NewRedisStorage] creates a Redis backend storage to be used with the
    bloom filter. *)
Definition NewRedisStorage (k : string) (sz : Z) : M (nat * option error) :=
  p <- RedisStorage.alloc (Build_RedisStorage k sz []) ;;
  r <- on_server (Do (EXISTS k)) ;;
  match r with
  | inr err => ret (p, Some err)
  | inl n =>
      if negb (negb (n =? 0)) then
        e <- init p ;;
        match e with
        | Some err => ret (p, Some err)
        | None => ret (p, None)
        end
      else ret (p, None)
  end.

(** [Append] appends the bit, which is to be saved, to the queue. *)
Definition Append (p : nat) (bit : Z) : M unit :=
  s <- RedisStorage.load p ;;
  RedisStorage.store p (Build_RedisStorage (key s) (size s) (queue s ++ [bit])).

(** [Save] pushes the bits from the queue to the storage backend, assigning
    the value 1 in the process. *)
Definition Save (p : nat) : M unit :=
  s <- RedisStorage.load p ;;
  _ <- on_server (Flush ((fun bit => SETBIT (key s) bit true) <$> queue s)) ;;
  ret tt.

(** [Exists] checks if the given bit exists in the Redis backend. *)
Definition Exists (p : nat) (bit : Z) : M (bool * option error) :=
  s <- RedisStorage.load p ;;
  r <- on_server (Do (GETBIT (key s) bit)) ;;
  match r with
  | inr err => ret (false, Some err)
  | inl bitValue => ret (bitValue =? 1, None)
  end.

(** [Add] add the bits, which are to be saved, to the queue. *)
Definition Add (p : nat) (bits : list Z) : M unit :=
  s <- RedisStorage.load p ;;
  RedisStorage.store p (Build_RedisStorage (key s) (size s) (queue s ++ bits)).

(** The loop of [Exist], from [index] on, on one connection. *)
Fixpoint Exist_loop (k : string) (bits : list Z) (index : nat) (ret_ : list bool)
  : M (list bool * option error) :=
  match bits with
  | [] => ret (ret_, None)
  | bit :: bits' =>
      r <- on_server (Do (GETBIT k bit)) ;;
      match r with
      | inr err => ret (ret_, Some err)
      | inl bitValue => Exist_loop k bits' (S index) (<[index := bitValue =? 1]> ret_)
      end
  end.

(** [Exist] check if the given bits exists in the Redis backend. *)
Definition Exist (p : nat) (bits : list Z) : M (list bool * option error) :=
  s <- RedisStorage.load p ;;
  Exist_loop (key s) bits 0 (replicate (length bits) false).

(** [Load] load all init data and save into the Redis backend. *)
Definition Load (p : nat) (bits : list Z) : M unit :=
  Add p bits ;;;
  Save p.

End RedisStorageV0.

(** ** Properties of the part_000 revision *)

Lemma Do_GETBIT_delivered k i s :
  faults s = [] ->
  Do (GETBIT k i) s =
  (inl (Z_of_bool (getbit k i (db s))), Build_server (db s) (log s ++ [GETBIT k i]) []).
Proof. unfold Do. intros ->. reflexivity. Qed.

Lemma Z_of_bool_eqb_1 b : (Z_of_bool b =? 1) = b.
Proof. by destruct b. Qed.

Lemma V0_Exist_loop_delivered k bits done m :
  faults (redis m) = [] ->
  RedisStorageV0.Exist_loop k bits (length done) (done ++ replicate (length bits) false) m =
  Some ((done ++ ((fun bit => getbit k bit (db (redis m))) <$> bits), None),
        Build_machine (hashers m) (stores m)
          (Build_server (db (redis m))
             (log (redis m) ++ ((fun bit => GETBIT k bit) <$> bits)) [])).
Proof.
  revert done m. induction bits as [|bit bits IH]; intros done m Hf.
  - cbn. rewrite !app_nil_r. unfold ret. do 2 f_equal.
    destruct m as [h st [d l f]]. cbn in *. by rewrite Hf.
  - cbn [RedisStorageV0.Exist_loop length replicate]. unfold bind at 1, on_server.
    rewrite Do_GETBIT_delivered by done. rewrite Z_of_bool_eqb_1.
    rewrite insert_app_r_alt by lia. rewrite Nat.sub_diag. cbn [insert list_insert].
    specialize (IH (done ++ [getbit k bit (db (redis m))])
      (Build_machine (hashers m) (stores m)
         (Build_server (db (redis m)) (log (redis m) ++ [GETBIT k bit]) [])) eq_refl).
    rewrite length_app, Nat.add_1_r, <- app_assoc in IH. cbn [app] in IH.
    rewrite IH. cbn [hashers stores redis db log fmap list_fmap].
    by rewrite <- !app_assoc.
Qed.

Lemma V0_Exist_delivered (p : nat) (bits : list Z) (m : machine) (s : RedisStorage) :
  stores m !! p = Some s -> faults (redis m) = [] ->
  RedisStorageV0.Exist p bits m =
  Some (((fun bit => getbit (key s) bit (db (redis m))) <$> bits, None),
        Build_machine (hashers m) (stores m)
          (Build_server (db (redis m))
             (log (redis m) ++ ((fun bit => GETBIT (key s) bit) <$> bits)) [])).
Proof.
  intros Hs Hf. unfold RedisStorageV0.Exist, bind, RedisStorage.load. rewrite Hs.
  apply (V0_Exist_loop_delivered (key s) bits [] m Hf).
Qed.

(** [Exist] of the part_000 revision, on a connection without faults: one
    [GETBIT] per bit, in order, and the answers in the order of the bits;
    the database and the storages stay as they are. *)
Theorem V0_Exist_answers_each_bit (p : nat) (bits : list Z) (m : machine) (s : RedisStorage) :
  stores m !! p = Some s -> faults (redis m) = [] ->
  RedisStorageV0.Exist p bits m =
  Some (((fun bit => getbit (key s) bit (db (redis m))) <$> bits, None),
        Build_machine (hashers m) (stores m)
          (Build_server (db (redis m))
             (log (redis m) ++ ((fun bit => GETBIT (key s) bit) <$> bits)) [])).
Proof.
  intros Hs Hf. unfold RedisStorageV0.Exist, bind, RedisStorage.load. rewrite Hs.
  apply (V0_Exist_loop_delivered (key s) bits [] m Hf).
Qed.

Lemma V0_Exist_answers_each_bit_witness :
  fst <$> RedisStorageV0.Exist 1 [3; 5] claim_C1_machine = Some ([true; false], None).
Proof.
  rewrite (V0_Exist_answers_each_bit 1 [3; 5] claim_C1_machine
             (Build_RedisStorage "bf.2" 8 [3; 4]) ltac:(vm_compute; reflexivity) eq_refl).
  vm_compute. reflexivity.
Defined.

Lemma V0_Add_Some p bits m r :
  RedisStorageV0.Add p bits m = Some r <->
  exists s, stores m !! p = Some s /\
    r = (tt, Build_machine (hashers m)
               (<[p := Build_RedisStorage (key s) (size s) (queue s ++ bits)]> (stores m))
               (redis m)).
Proof.
  unfold RedisStorageV0.Add. rewrite bind_Some. split.
  - intros (s & m1 & [Hs ->]%load_Some & H). exists s. split; [done|].
    unfold RedisStorage.store in H. by injection H as <-.
  - intros (s & Hs & ->). exists s, m. split; [by apply load_Some|reflexivity].
Qed.

(** [Add] of the part_000 revision queues its bits as [Append] does one by
    one, on a storage that exists; on a pointer to nothing it panics. *)
Theorem V0_Add_is_repeated_Append (p : nat) (bits : list Z) (m : machine) :
  (stores m !! p = None -> RedisStorageV0.Add p bits m = None) /\
  (is_Some (stores m !! p) ->
   RedisStorageV0.Add p bits m = for_each (RedisStorageV0.Append p) bits m).
Proof.
  split.
  - intros Hn. destruct (RedisStorageV0.Add p bits m) as [r|] eqn:E; [|done].
    apply V0_Add_Some in E as (s & Hs & _). congruence.
  - revert m. induction bits as [|bit bits IH]; intros m [s Hs].
    + assert (H : RedisStorageV0.Add p [] m = Some (tt, m)); [|by rewrite H].
      apply V0_Add_Some. exists s. split; [done|]. rewrite app_nil_r.
      destruct s, m. cbn in *. by rewrite list_insert_id.
    + cbn [for_each]. unfold bind at 1.
      assert (Ha : RedisStorageV0.Append p bit m =
                   Some (tt, Build_machine (hashers m) (<[p := push bit s]> (stores m)) (redis m))).
      { change (RedisStorageV0.Append p bit) with (RedisStorage.Append p bit).
        apply RS_Append_Some. eauto. }
      rewrite Ha, <- IH.
      2:{ cbn [stores]. rewrite list_lookup_insert_eq by (by eapply lookup_lt_Some). eauto. }
      assert (H1 : RedisStorageV0.Add p (bit :: bits) m = Some (tt,
                Build_machine (hashers m)
                  (<[p := Build_RedisStorage (key s) (size s) (queue s ++ bit :: bits)]> (stores m))
                  (redis m))) by (apply V0_Add_Some; eauto).
      rewrite H1. symmetry. apply V0_Add_Some. exists (push bit s). split.
      * cbn [stores]. apply list_lookup_insert_eq. by eapply lookup_lt_Some.
      * cbn [stores hashers redis push key size queue].
        by rewrite list_insert_insert_eq, <- app_assoc.
Qed.

Lemma fmap_all_true {A} (g : A -> bool) (l : list A) :
  (forall x, x ∈ l -> g x = true) -> g <$> l = replicate (length l) true.
Proof.
  induction l as [|x l IH]; intros H; [done|].
  cbn. rewrite H by left. f_equal. apply IH. intros y Hy. apply H. by right.
Qed.

(** Round trip of the part_000 revision: on a connection without faults,
    after [Load] of some bits [Exist] of the same bits answers true for
    every one of them. *)
Theorem V0_Load_then_Exist (p : nat) (bits : list Z) (m m1 : machine) :
  faults (redis m) = [] ->
  RedisStorageV0.Load p bits m = Some (tt, m1) ->
  exists m2, RedisStorageV0.Exist p bits m1 = Some ((replicate (length bits) true, None), m2).
Proof.
  intros Hf H. unfold RedisStorageV0.Load in H.
  apply bind_Some in H as ([] & ma & Ha & Hs).
  apply V0_Add_Some in Ha as (s & Hsp & [= ->]).
  unfold RedisStorageV0.Save in Hs.
  apply bind_Some in Hs as (s' & mb & [Hs' ->]%load_Some & Hs).
  apply bind_Some in Hs as (e & mb & [_ ->]%on_server_Some & Hs).
  apply ret_Some in Hs as [= ->]. cbn [stores redis hashers] in *.
  rewrite list_lookup_insert_eq in Hs' by (by eapply lookup_lt_Some).
  injection Hs' as <-. cbn [key queue].
  fold (set_commands (key s) (queue s ++ bits)).
  eexists. rewrite (V0_Exist_delivered p bits _
             (Build_RedisStorage (key s) (size s) (queue s ++ bits))).
  - do 3 f_equal. cbn [redis key]. rewrite db_Flush_delivered by done.
    apply fmap_all_true. intros x Hx.
    rewrite getbit_set_commands, bool_decide_eq_true_2; [by rewrite orb_true_r|].
    split; [done|]. apply elem_of_app. by right.
  - cbn [stores]. apply list_lookup_insert_eq. by eapply lookup_lt_Some.
  - cbn [redis]. by apply faults_Flush.
Qed.

Lemma V0_Load_then_Exist_witness :
  exists m2,
    RedisStorageV0.Exist 0 [1; 2; 1]
      (machine_after (RedisStorageV0.Load 0 [1; 2; 1]) example_machine) =
    Some ((replicate 3 true, None), m2).
Proof.
  apply (V0_Load_then_Exist 0 [1; 2; 1] example_machine
           (machine_after (RedisStorageV0.Load 0 [1; 2; 1]) example_machine)
           eq_refl ltac:(vm_compute; reflexivity)).
Defined.

Lemma V0_Save_Some p m r :
  RedisStorageV0.Save p m = Some r <->
  exists s, stores m !! p = Some s /\
    r = (tt, Build_machine (hashers m) (stores m)
               (snd (Flush (set_commands (key s) (queue s)) (redis m)))).
Proof.
  unfold RedisStorageV0.Save. rewrite bind_Some. split.
  - intros (s & m1 & [Hs ->]%load_Some & H). exists s. split; [done|].
    apply bind_Some in H as (e & m1 & [_ ->]%on_server_Some & H).
    by apply ret_Some in H as ->.
  - intros (s & Hs & ->). exists s, m. split; [by apply load_Some|].
    apply bind_Some. eexists _, _. split; [by apply on_server_Some|reflexivity].
Qed.

(** The two revisions of [Save] do the same when the queue is not empty, and
    also when it is empty and the connection has no faults pending. On an
    empty queue the part_000 revision still takes a connection and flushes
    it: the server runs nothing, but the outcome of a round trip is used up. *)
Theorem V0_Save_and_Save (p : nat) (m : machine) (s : RedisStorage) :
  stores m !! p = Some s ->
  (queue s <> [] \/ faults (redis m) = [] ->
     RedisStorageV0.Save p m = RedisStorage.Save p m) /\
  (queue s = [] ->
     exists m',
       RedisStorageV0.Save p m = Some (tt, m') /\ RedisStorage.Save p m = Some (tt, m) /\
       stores m' = stores m /\ db (redis m') = db (redis m) /\
       log (redis m') = log (redis m) /\ faults (redis m') = tail (faults (redis m))).
Proof.
  intros Hs.
  assert (H0 : RedisStorageV0.Save p m = Some (tt,
            Build_machine (hashers m) (stores m)
              (snd (Flush (set_commands (key s) (queue s)) (redis m)))))
    by (apply V0_Save_Some; eauto).
  assert (H1 : RedisStorage.Save p m = Some (tt, flushed s m))
    by (apply RS_Save_Some; eauto).
  split.
  - intros Hc. rewrite H0, H1. do 2 f_equal. unfold flushed.
    destruct (bool_decide_reflect (queue s = [])) as [E|E]; [|done].
    destruct Hc as [Hc|Hc]; [done|]. rewrite E. unfold Flush. rewrite Hc. cbn.
    destruct m as [h st [d l f]]. cbn in *. by rewrite Hc, app_nil_r.
  - intros E. eexists. split; [exact H0|]. split.
    + rewrite H1. unfold flushed. by rewrite bool_decide_eq_true_2.
    + rewrite E. cbn [stores redis]. unfold Flush.
      destruct (faults (redis m)) as [|[|n] rest]; cbn;
        rewrite ?take_nil, ?app_nil_r; done.
Qed.

Lemma V0_Save_and_Save_witness :
  RedisStorageV0.Save 0 example_machine = RedisStorage.Save 0 example_machine.
Proof.
  apply (proj1 (V0_Save_and_Save 0 example_machine (Build_RedisStorage "bf.1" 8 []) eq_refl)).
  right. reflexivity.
Defined.

Lemma V0_Add_is_repeated_Append_witness :
  RedisStorageV0.Add 0 [1; 2] example_machine =
  for_each (RedisStorageV0.Append 0) [1; 2] example_machine.
Proof.
  apply (proj2 (V0_Add_is_repeated_Append 0 [1; 2] example_machine)).
  vm_compute. eexists. reflexivity.
Defined.

(** ** The partition size below 2^53 *)

Lemma digits2_pos_size (p : positive) : digits2_pos p = Pos.size p.
Proof. induction p as [p IH|p IH|]; cbn; by rewrite ?IH. Qed.

Lemma Zdigits2_bounds (p : positive) :
  2 ^ (Z.pos (digits2_pos p) - 1) <= Z.pos p < 2 ^ Z.pos (digits2_pos p).
Proof.
  induction p as [p IH|p IH|]; cbn [digits2_pos].
  - rewrite Pos2Z.inj_succ, Z.pow_succ_r by lia.
    replace (Z.succ (Z.pos (digits2_pos p)) - 1) with (Z.succ (Z.pos (digits2_pos p) - 1)) by lia.
    rewrite Z.pow_succ_r by lia. lia.
  - rewrite Pos2Z.inj_succ, Z.pow_succ_r by lia.
    replace (Z.succ (Z.pos (digits2_pos p)) - 1) with (Z.succ (Z.pos (digits2_pos p) - 1)) by lia.
    rewrite Z.pow_succ_r by lia. lia.
  - cbn. lia.
Qed.

Lemma Zdigits2_eq (q d : Z) : 2 ^ (d - 1) <= q < 2 ^ d -> 0 < d -> Zdigits2 q = d.
Proof.
  intros Hq Hd. assert (0 < q) by (pose proof (Z.pow_pos_nonneg 2 (d - 1)); lia).
  destruct q as [|p|p]; try lia. cbn [Zdigits2].
  pose proof (Zdigits2_bounds p) as Hp. set (d' := Z.pos (digits2_pos p)) in *.
  destruct (Z.lt_trichotomy d' d) as [Hlt|[->|Hlt]]; [|done|].
  - assert (2 ^ d' <= 2 ^ (d - 1)) by (apply Z.pow_le_mono_r; lia). lia.
  - assert (2 ^ d <= 2 ^ (d' - 1)) by (apply Z.pow_le_mono_r; lia). lia.
Qed.

Lemma iter_xO (p k : positive) : Z.pos (Pos.iter xO p k) = Z.pos p * 2 ^ Z.pos k.
Proof.
  induction k as [|k IH] using Pos.peano_ind.
  - cbn. lia.
  - rewrite Pos.iter_succ, Pos2Z.inj_succ, Z.pow_succ_r by lia.
    rewrite Pos2Z.inj_xO, IH. lia.
Qed.

Lemma fexp_normal (e : Z) : -1021 <= e -> fexp 53 1024 e = e - 53.
Proof. unfold fexp, emin. lia. Qed.

Lemma shr_1_nonneg (q : Z) (r s : bool) :
  0 <= q ->
  shr_1 (Build_shr_record q r s) = Build_shr_record (q / 2) (Z.odd q) (r || s).
Proof.
  intros Hq. rewrite <- Z.div2_div. by destruct q as [|[p|p|]|].
Qed.

(** A mantissa of 53 digits that is exact is left as it is. *)
Lemma binary_round_aux_exact (m : positive) (e : Z) :
  2 ^ 52 <= Z.pos m < 2 ^ 53 -> -1074 <= e <= 971 ->
  binary_round_aux 53 1024 false (Z.pos m) e loc_Exact = S754_finite false m e.
Proof.
  intros Hm He. unfold binary_round_aux, shr_fexp.
  rewrite (Zdigits2_eq (Z.pos m) 53) by (change (53 - 1) with 52; lia).
  rewrite fexp_normal, Z.add_simpl_l, Z.sub_diag by lia.
  cbn [shr shr_record_of_loc shr_m loc_of_shr_record round_nearest_even].
  rewrite (Zdigits2_eq (Z.pos m) 53) by (change (53 - 1) with 52; lia).
  rewrite fexp_normal, Z.add_simpl_l, Z.sub_diag by lia.
  cbn [shr shr_record_of_loc shr_m].
  replace (e <=? 1024 - 53) with true by lia. done.
Qed.

(** [float64(n)] is exact below 2^53: a mantissa of 53 digits. *)
Lemma of_uint_exact (n : Z) :
  0 < n < 2 ^ 53 ->
  exists m e, float64.of_uint n = S754_finite false m e /\
    2 ^ 52 <= Z.pos m < 2 ^ 53 /\ -52 <= e <= 0 /\ Z.pos m = n * 2 ^ (- e).
Proof.
  intros Hn. destruct n as [|p|p]; try lia.
  unfold float64.of_uint, float64.prec, float64.emax, binary_normalize, binary_round.
  pose proof (Zdigits2_bounds p) as Hp. set (d := Z.pos (digits2_pos p)) in *.
  assert (Hd : 1 <= d <= 53).
  { split; [lia|]. destruct (Z.le_gt_cases d 53) as [|Hgt]; [done|].
    assert (2 ^ 53 <= 2 ^ (d - 1)) by (apply Z.pow_le_mono_r; lia). lia. }
  rewrite fexp_normal by lia. unfold shl_align.
  destruct (d + 0 - 53 - 0) as [|k|k] eqn:Hk; try lia.
  - assert (d = 53) as Hd53 by lia. rewrite Hd53 in Hp. change (53 - 1) with 52 in Hp.
    exists p, 0. rewrite binary_round_aux_exact by lia.
    split; [done|]. split; [lia|]. split; [lia|]. cbn. lia.
  - assert (Z.pos k = 53 - d) as Hk' by lia.
    assert (Hm : 2 ^ 52 <= Z.pos (Pos.iter xO p k) < 2 ^ 53).
    { rewrite iter_xO, Hk'.
      assert (E52 : 2 ^ 52 = 2 ^ (d - 1) * 2 ^ (53 - d))
        by (rewrite <- Z.pow_add_r by lia; f_equal; lia).
      assert (E53 : 2 ^ 53 = 2 ^ d * 2 ^ (53 - d))
        by (rewrite <- Z.pow_add_r by lia; f_equal; lia).
      rewrite E52, E53.
      assert (0 < 2 ^ (53 - d)) by (apply Z.pow_pos_nonneg; lia). nia. }
    exists (Pos.iter xO p k), (d + 0 - 53). rewrite binary_round_aux_exact by lia.
    split; [done|]. split; [done|]. split; [lia|].
    rewrite iter_xO, Hk'. f_equal. f_equal. lia.
Qed.

Lemma trunc_of_uint (n : Z) : 0 <= n < 2 ^ 53 -> float64.trunc (float64.of_uint n) = Some n.
Proof.
  intros Hn. destruct (Z.eq_dec n 0) as [->|Hn0]; [done|].
  destruct (of_uint_exact n) as (m & e & -> & Hm & He & Hme); [lia|].
  cbn [float64.trunc cond_Zopp]. f_equal.
  destruct (Z.leb_spec 0 e).
  - assert (e = 0) as -> by lia. cbn in Hme. lia.
  - rewrite Hme. apply Z.div_mul. apply Z.pow_nonzero; lia.
Qed.

(** [M] is a nearest integer of [N / D]: the quotient itself when the
    division is exact, else the integer below or above, and the one above
    when the remainder is more than half of [D]. *)
Definition nearest (N D M : Z) : Prop :=
  N / D <= M <= N / D + 1 /\
  (N mod D = 0 -> M = N / D) /\
  (D < 2 * (N mod D) -> M = N / D + 1).

Lemma nearest_scale (N D K M : Z) :
  0 < D -> 0 < K -> nearest (N * K) (D * K) M -> nearest N D M.
Proof.
  unfold nearest. intros HD HK.
  rewrite Z.div_mul_cancel_r, Z.mul_mod_distr_r by lia.
  intros (Hb & He & Hu). split; [done|]. split.
  - intros H0. apply He. rewrite H0. lia.
  - intros H0. apply Hu. nia.
Qed.

Lemma div_finite (mx my : positive) (ex ey : Z) :
  2 ^ 52 <= Z.pos mx < 2 ^ 53 -> 2 ^ 52 <= Z.pos my < 2 ^ 53 ->
  -52 <= ex <= 0 -> -52 <= ey <= 0 ->
  float64.div (S754_finite false mx ex) (S754_finite false my ey) =
  binary_round_aux 53 1024 false (Z.pos mx * 2 ^ 53 / Z.pos my) (ex - ey - 53)
    (new_location (Z.pos my) ((Z.pos mx * 2 ^ 53) mod Z.pos my)).
Proof.
  intros Hx Hy Hex Hey.
  unfold float64.div, float64.prec, float64.emax, SFdiv, SFdiv_core_binary.
  rewrite (Zdigits2_eq (Z.pos mx) 53), (Zdigits2_eq (Z.pos my) 53)
    by (change (53 - 1) with 52; lia).
  rewrite fexp_normal by lia.
  replace (Z.min (53 + ex - (53 + ey) - 53) (ex - ey)) with (ex - ey - 53) by lia.
  replace (ex - ey - (ex - ey - 53)) with 53 by lia.
  rewrite Z.shiftl_mul_pow2 by lia.
  unfold Z.div, Z.modulo.
  destruct (Z.div_eucl (Z.pos mx * 2 ^ 53) (Z.pos my)) as [q r]. reflexivity.
Qed.

Lemma new_location_cases (D r : Z) :
  0 <= r < D ->
  match new_location D r with
  | loc_Exact => r = 0
  | loc_Inexact Lt => 0 < r /\ 2 * r < D
  | loc_Inexact Eq => 0 < r /\ 2 * r = D
  | loc_Inexact Gt => D < 2 * r
  end.
Proof.
  intros Hr. unfold new_location, new_location_even, new_location_odd.
  destruct (Z.even D) eqn:HD; destruct (Z.eqb_spec r 0) as [|H0]; try done.
  - destruct (Z.compare_spec (2 * r) D); cbv beta iota; lia.
  - assert (D <> 2 * r) by (intros ->; by rewrite Z.even_mul in HD).
    destruct (Z.compare_spec (2 * r + 1) D); cbv beta iota; lia.
Qed.

Lemma shr_record_of_loc_m (q : Z) (l : location) : shr_m (shr_record_of_loc q l) = q.
Proof. by destruct l as [|[]]. Qed.

Lemma loc_of_shr_record_of_loc (q : Z) (l : location) :
  loc_of_shr_record (shr_record_of_loc q l) = l.
Proof. by destruct l as [|[]]. Qed.

(** The first half of [binary_round_aux] on a quotient of 53 or 54 digits:
    a shift by at most one digit, and a nearest integer of the fraction. *)
Lemma round_first (N D e : Z) :
  0 < D -> 2 ^ 52 <= N / D < 2 ^ 54 -> -1074 <= e ->
  exists n rec,
    shr_fexp 53 1024 (N / D) e (new_location D (N mod D)) = (rec, e + n) /\
    (n = 0 \/ n = 1) /\ 2 ^ 52 <= N / (D * 2 ^ n) /\
    nearest N (D * 2 ^ n) (round_nearest_even (shr_m rec) (loc_of_shr_record rec)) /\
    2 ^ 52 <= round_nearest_even (shr_m rec) (loc_of_shr_record rec) <= 2 ^ 53.
Proof.
  intros HD Hq He.
  pose proof (Z.mod_pos_bound N D HD) as Hr.
  pose proof (new_location_cases D (N mod D) Hr) as Hl.
  set (q := N / D) in *. set (r := N mod D) in *. set (l := new_location D r) in *.
  destruct (Z.lt_ge_cases q (2 ^ 53)) as [Hlt|Hge].
  - exists 0, (shr_record_of_loc q l). unfold shr_fexp.
    rewrite (Zdigits2_eq q 53) by (change (53 - 1) with 52; lia).
    rewrite fexp_normal by lia. replace (53 + e - 53 - e) with 0 by lia.
    cbn [shr]. rewrite Z.add_0_r, shr_record_of_loc_m, loc_of_shr_record_of_loc.
    split; [done|]. split; [by left|].
    rewrite Z.pow_0_r, Z.mul_1_r. fold q. split; [lia|]. unfold nearest. fold q r.
    destruct l as [|[]]; cbn [round_nearest_even]; try destruct (Z.even q); lia.
  - exists 1, (shr_1 (shr_record_of_loc q l)). unfold shr_fexp.
    rewrite (Zdigits2_eq q 54) by (change (54 - 1) with 53; lia).
    rewrite fexp_normal by lia. replace (54 + e - 53 - e) with 1 by lia.
    cbn [shr iter_pos]. split; [done|]. split; [by right|].
    assert (Hdiv : N / (D * 2 ^ 1) = q / 2)
      by (rewrite Z.pow_1_r, <- Z.div_div by lia; done).
    assert (Hmod : N mod (D * 2 ^ 1) = r + D * (q mod 2))
      by (rewrite Z.pow_1_r, Z.rem_mul_r by lia; done).
    unfold nearest. rewrite Hdiv, Hmod.
    pose proof (Z.div_mod q 2 ltac:(lia)) as Hq2.
    split; [pose proof (Z.mod_pos_bound q 2 ltac:(lia)); lia|].
    pose proof (Z.mod_pos_bound q 2 ltac:(lia)) as Hq2b.
    assert (Hodd : Z.odd q = (q mod 2 =? 1)).
    { rewrite Zodd_mod. reflexivity. }
    assert (Hrec : shr_1 (shr_record_of_loc q l) =
                   Build_shr_record (q / 2) (q mod 2 =? 1)
                     (match l with loc_Exact => false | _ => true end)).
    { destruct l as [|[]]; cbn [shr_record_of_loc];
        rewrite shr_1_nonneg, Hodd by lia; reflexivity. }
    rewrite Hrec. cbn [shr_m].
    destruct (Z.eqb_spec (q mod 2) 1) as [H1|H1];
      destruct l as [|[]]; cbn [loc_of_shr_record round_nearest_even];
      try destruct (Z.even (q / 2)); lia.
Qed.

(** The second half of [binary_round_aux]: a mantissa the rounding has
    brought to 2^53 is shifted by one digit, any other is kept. *)
Lemma round_finish (Mr e : Z) :
  2 ^ 52 <= Mr <= 2 ^ 53 -> -1074 <= e <= 970 ->
  exists M E,
    (let '(mrs, e') := shr_fexp 53 1024 Mr e loc_Exact in
     match shr_m mrs with
     | 0 => S754_zero false
     | Z.pos m => if e' <=? 1024 - 53 then S754_finite false m e' else S754_infinity false
     | Z.neg _ => S754_nan
     end) = S754_finite false M E /\
    ((Z.pos M = Mr /\ E = e) \/ (Mr = 2 ^ 53 /\ Z.pos M = 2 ^ 52 /\ E = e + 1)).
Proof.
  intros HM He. destruct (Z.lt_ge_cases Mr (2 ^ 53)) as [Hlt|Hge].
  - unfold shr_fexp.
    rewrite (Zdigits2_eq Mr 53) by (change (53 - 1) with 52; lia).
    rewrite fexp_normal by lia. replace (53 + e - 53 - e) with 0 by lia.
    cbn [shr shr_record_of_loc shr_m].
    destruct Mr as [|m|m]; try lia. exists m, e.
    replace (e <=? 1024 - 53) with true by lia. split; [done|]. by left.
  - assert (Mr = 2 ^ 53) as -> by lia. exists (Z.to_pos (2 ^ 52)), (e + 1).
    unfold shr_fexp.
    rewrite (Zdigits2_eq (2 ^ 53) 54) by (change (54 - 1) with 53; lia).
    rewrite fexp_normal by lia. replace (54 + e - 53 - e) with 1 by lia.
    cbn [shr iter_pos shr_record_of_loc].
    rewrite shr_1_nonneg by lia. cbn [shr_m].
    change (2 ^ 53 / 2) with (Z.pos (Z.to_pos (2 ^ 52))).
    replace (e + 1 <=? 1024 - 53) with true by lia. split; [done|]. right. done.
Qed.

Lemma binary_round_aux_nearest (N D e : Z) :
  0 < D -> 2 ^ 52 <= N / D < 2 ^ 54 -> -1074 <= e <= 900 ->
  exists M E n Mr,
    binary_round_aux 53 1024 false (N / D) e (new_location D (N mod D)) =
      S754_finite false M E /\
    (n = 0 \/ n = 1) /\ 2 ^ 52 <= N / (D * 2 ^ n) /\ nearest N (D * 2 ^ n) Mr /\
    ((Z.pos M = Mr /\ E = e + n) \/ (Mr = 2 ^ 53 /\ Z.pos M = 2 ^ 52 /\ E = e + n + 1)).
Proof.
  intros HD Hq He.
  destruct (round_first N D e HD Hq ltac:(lia)) as (n & rec & Hshr & Hn & Hlow & Hnear & HMr).
  destruct (round_finish (round_nearest_even (shr_m rec) (loc_of_shr_record rec)) (e + n)
              HMr ltac:(lia)) as (M & E & Hfin & Hcase).
  exists M, E, n, (round_nearest_even (shr_m rec) (loc_of_shr_record rec)).
  unfold binary_round_aux. rewrite Hshr. split; [exact Hfin|]. done.
Qed.

(** Rounding to a nearest integer of [x * g / y] and then up to a multiple
    of [g] gives the ceiling of [x / y], when [x] is below 2^53 and the
    quotient has 53 digits: the rounding is finer than 1 / [y]. *)
Lemma ceil_of_nearest (x y g M : Z) :
  0 < x < 2 ^ 53 -> 0 < y -> 0 < g -> 2 ^ 52 <= x * g / y ->
  nearest (x * g) y M ->
  - (- M / g) = (x + y - 1) / y.
Proof.
  intros Hx Hy Hg Hq (Hb & He & Hu).
  pose proof (Z.div_mod (x * g) y ltac:(lia)) as Hqr.
  pose proof (Z.mod_pos_bound (x * g) y Hy) as Hr.
  set (q := x * g / y) in *. set (r := (x * g) mod y) in *.
  pose proof (Z.div_mod (x + y - 1) y ltac:(lia)) as Hcr.
  pose proof (Z.mod_pos_bound (x + y - 1) y Hy) as Hcb.
  set (c := (x + y - 1) / y) in *. set (t := (x + y - 1) mod y) in *.
  assert (Hc1 : (c - 1) * y < x) by nia.
  assert (Hc2 : x <= c * y) by nia.
  assert (Hy2 : y < 2 * g) by nia.
  assert (Hup : M <= c * g).
  { destruct (Z.eq_dec r 0) as [Hr0|Hr0].
    - rewrite (He Hr0). nia.
    - assert (q < c * g) by nia. lia. }
  assert (Hlo : (c - 1) * g < M).
  { assert (Hq1 : (c - 1) * g <= q) by nia.
    destruct (Z.eq_dec q ((c - 1) * g)) as [Hqe|Hqe]; [|lia].
    assert (g <= r) by nia. rewrite (Hu ltac:(lia)). lia. }
  symmetry. apply Z.opp_inj. rewrite Z.opp_involutive.
  apply (Z.div_unique_pos (- M) g (- c) (c * g - M)); lia.
Qed.

(** [uint(math.Ceil(x))] of a positive finite [x] whose ceiling [c] fits. *)
Lemma to_uint_Ceil (W oob : Z) (M : positive) (E c : Z) :
  0 <= c < 2 ^ 53 -> c < 2 ^ W ->
  (E <= 0 /\ - (- Z.pos M / 2 ^ (- E)) = c) \/ (0 <= E /\ Z.pos M * 2 ^ E = c) ->
  float64.to_uint W oob (float64.Ceil (S754_finite false M E)) = c.
Proof.
  intros Hc HW Hv. unfold float64.to_uint.
  assert (Ht : float64.trunc (float64.Ceil (S754_finite false M E)) = Some c).
  { unfold float64.Ceil. destruct (Z.leb_spec 0 E) as [HE|HE].
    - cbn [float64.trunc cond_Zopp]. replace (0 <=? E) with true by lia. f_equal.
      destruct Hv as [[HE' Hv]|[_ Hv]]; [|done].
      assert (E = 0) as -> by lia. cbn in Hv. rewrite Z.div_1_r in Hv. cbn. lia.
    - destruct Hv as [[_ Hv]|[HE' _]]; [|lia]. rewrite Hv.
      destruct (Z.eqb_spec c 0) as [->|Hc0]; [done|].
      apply (trunc_of_uint c Hc). }
  rewrite Ht. replace (0 <=? c) with true by lia. replace (c <? 2 ^ W) with true by lia.
  done.
Qed.

Lemma partitionSize_ceiling (W oob size hashIter : Z) :
  0 <= size < 2 ^ 53 -> 0 < hashIter < 2 ^ 53 -> size < 2 ^ W ->
  partitionSize W oob size hashIter = (size + hashIter - 1) / hashIter.
Proof.
  intros Hs Hk HW. unfold partitionSize.
  destruct (of_uint_exact hashIter Hk) as (my & ey & -> & Hmy & Hey & Hy).
  destruct (Z.eq_dec size 0) as [->|Hs0].
  { cbn. rewrite Z.div_small by lia. unfold float64.to_uint. cbn.
    replace (0 <? 2 ^ W) with true by lia. done. }
  destruct (of_uint_exact size ltac:(lia)) as (mx & ex & -> & Hmx & Hex & Hx).
  rewrite div_finite by done.
  set (N := Z.pos mx * 2 ^ 53). set (D := Z.pos my).
  assert (HD : 0 < D) by done.
  assert (Hq : 2 ^ 52 <= N / D < 2 ^ 54).
  { split.
    - apply Z.div_le_lower_bound; [done|]. unfold N, D. nia.
    - apply Z.div_lt_upper_bound; [done|]. unfold N, D. nia. }
  destruct (binary_round_aux_nearest N D (ex - ey - 53) HD Hq ltac:(lia))
    as (M & E & n & Mr & -> & Hn & Hlow & Hnear & Hcase).
  set (c := (size + hashIter - 1) / hashIter).
  assert (Hc : 0 < c <= size).
  { unfold c. split.
    - apply Z.div_str_pos. lia.
    - apply Z.div_le_upper_bound; nia. }
  assert (Hg : 0 <= - (ex - ey - 53 + n)) by lia.
  set (G := - (ex - ey - 53 + n)) in *.
  assert (HgK : 2 ^ G * 2 ^ (- ey + n) = 2 ^ (- ex) * 2 ^ 53).
  { rewrite <- !Z.pow_add_r by lia. f_equal. lia. }
  assert (HK : 0 < 2 ^ (- ey + n)) by (apply Z.pow_pos_nonneg; lia).
  assert (HG : 0 < 2 ^ G) by (apply Z.pow_pos_nonneg; lia).
  assert (HNs : N = size * 2 ^ G * 2 ^ (- ey + n)) by (unfold N; rewrite Hx; lia).
  assert (HDs : D * 2 ^ n = hashIter * 2 ^ (- ey + n)).
  { unfold D. rewrite Hy, Z.pow_add_r by lia. lia. }
  rewrite HNs, HDs in Hnear.
  apply nearest_scale in Hnear; [|lia|done].
  assert (Hq' : 2 ^ 52 <= size * 2 ^ G / hashIter).
  { rewrite HNs, HDs, Z.div_mul_cancel_r in Hlow by lia. done. }
  pose proof (ceil_of_nearest size hashIter (2 ^ G) Mr ltac:(lia) ltac:(lia) HG Hq' Hnear)
    as Hceil. fold c in Hceil.
  apply to_uint_Ceil; [lia|lia|].
  destruct Hcase as [[HM HE]|(HMr & HM & HE)].
  - left. split; [lia|]. rewrite HM. replace (- E) with G by lia. done.
  - destruct (Z.eq_dec G 0) as [HG0|HG0].
    + right. split; [lia|]. replace E with 1 by lia. rewrite HM.
      rewrite HG0, Z.pow_0_r, Z.div_1_r in Hceil. lia.
    + left. split; [lia|]. rewrite HM. rewrite <- Hceil, HMr.
      replace G with (1 + (- E)) by lia. rewrite Z.pow_add_r by lia.
      change (- 2 ^ 53) with (2 ^ 1 * - 2 ^ 52).
      rewrite Z.div_mul_cancel_l by (try apply Z.pow_nonzero; lia). done.
Qed.

(** Below 2^53 the float64 arithmetic of [filterSetup] is exact: for a
    [size] and a positive number of hash iterations that are both below
    2^53 (on a 32-bit platform: always), every one of the [hashIter] filters
    gets the partition size ceil(size / hashIter), so the partitions together
    hold at least [size] bits and fewer than [size + hashIter]. *)
Theorem filterSetup_partition_is_the_ceiling (W oob size hashIter : Z) (m : machine) :
  0 <= size < 2 ^ 53 -> 0 < hashIter < 2 ^ 53 -> size < 2 ^ W -> hashIter < 2 ^ W ->
  let P := (size + hashIter - 1) / hashIter in
  (fun r : list BF.filter * machine => BF.size <$> fst r) <$>
    BF.filterSetup W oob size hashIter m = Some (replicate (Z.to_nat hashIter) P) /\
  size <= hashIter * P < size + hashIter.
Proof.
  intros Hs Hk HW HkW P. split.
  - rewrite filterSetup_spec by lia. cbn [fmap option_fmap option_map fst]. f_equal.
    rewrite <- list_fmap_compose, partitionSize_ceiling by done. fold P.
    rewrite <- (length_seqZ 1 hashIter).
    generalize (seqZ 1 hashIter). intros l. induction l as [|i l IH]; [done|].
    cbn. by rewrite IH.
  - pose proof (Z.div_mod (size + hashIter - 1) hashIter ltac:(lia)) as Hd.
    pose proof (Z.mod_pos_bound (size + hashIter - 1) hashIter ltac:(lia)) as Hb.
    fold P in Hd. lia.
Qed.

Lemma filterSetup_partition_is_the_ceiling_witness :
  (fun r : list BF.filter * machine => BF.size <$> fst r) <$>
    BF.filterSetup 64 0 1000 3 empty_machine = Some [334; 334; 334] /\
  1000 <= 3 * 334 < 1003.
Proof.
  apply (filterSetup_partition_is_the_ceiling 64 0 1000 3 empty_machine); lia.
Defined.

(** ** Constructing with an expiry that is not positive *)

Lemma init_without_expiry k sz e d :
  d !! k = None -> sz <= 0 \/ e <= 0 ->
  exec_all (RedisStorage.init_commands k sz e) d = d.
Proof.
  intros Hk Hc. unfold RedisStorage.init_commands. rewrite exec_all_app.
  destruct (Z.le_gt_cases sz 0) as [Hsz|Hsz].
  - unfold seqZ. replace (Z.to_nat sz) with 0%nat by lia.
    cbn [seq fmap list_fmap exec_all fold_left exec fst]. by rewrite Hk.
  - rewrite exec_all_zero_absent; [|done|].
    + cbn [exec_all fold_left exec fst]. rewrite lookup_insert_eq.
      destruct (Z.leb_spec e 0); [|lia]. rewrite delete_insert_eq. by apply delete_id.
    + intros E. apply (f_equal length) in E. rewrite length_seqZ in E. cbn in E. lia.
Qed.

(** [init] sends [EXPIRE] whatever the expiry is. With an expiry that is not
    positive the server deletes the key it has just created, and with size 0
    no [SETBIT] creates it: after a first construction on an absent key (the
    round trips delivered) the database is as before, the key is still
    absent, and a second construction on that key reports once more that the
    key did not exist and sends the whole initialisation again. *)
Theorem construction_without_expiry_leaves_no_key (k : string) (sz e sz' e' : Z)
    (m m1 : machine) (p : nat) :
  sz <= 0 \/ e <= 0 ->
  RedisStorage.NewRedisStorage k sz e m = Some ((p, false, None), m1) ->
  faults (redis m1) = [] ->
  db (redis m1) = db (redis m) /\ db (redis m1) !! k = None /\
  exists m2,
    RedisStorage.NewRedisStorage k sz' e' m1 = Some ((S p, false, None), m2) /\
    log (redis m2) = log (redis m1) ++ [EXISTS k] ++ RedisStorage.init_commands k sz' e'.
Proof.
  intros Hc H Hf.
  destruct (NewRedisStorage_alloc _ _ _ _ _ _ _ _ H) as (-> & Hs & _).
  assert (Hdb : db (redis m) !! k = None /\ db (redis m1) = db (redis m)).
  { rewrite NewRedisStorage_cases in H. cbv zeta in H.
    assert (Hgen : forall fl,
      (if bool_decide (is_Some (db (redis m) !! k))
       then Some ((length (stores m), true, None),
                  with_store (Build_RedisStorage k sz [])
                    (Build_server (db (redis m)) (log (redis m) ++ [EXISTS k]) fl) m)
       else Some ((length (stores m), false,
                   fst (Flush (RedisStorage.init_commands k sz e)
                     (Build_server (db (redis m)) (log (redis m) ++ [EXISTS k]) fl))),
                  with_store (Build_RedisStorage k sz [])
                    (snd (Flush (RedisStorage.init_commands k sz e)
                       (Build_server (db (redis m)) (log (redis m) ++ [EXISTS k]) fl))) m))
      = Some ((length (stores m), false, None), m1) ->
      db (redis m) !! k = None /\ db (redis m1) = db (redis m)).
    { intros fl. destruct (bool_decide_reflect (is_Some (db (redis m) !! k))) as [Hk|Hk];
        [discriminate|].
      assert (Hk' : db (redis m) !! k = None)
        by (destruct (db (redis m) !! k); [destruct Hk; eauto|done]).
      intros [= Hfl <-]. cbn [with_store redis]. split; [done|].
      rewrite (Flush_delivered_inv _ _ Hfl). cbn [db].
      by apply init_without_expiry. }
    destruct (faults (redis m)) as [|[|n] rest];
      [exact (Hgen _ H)|exact (Hgen _ H)|discriminate]. }
  destruct Hdb as [Hk Hdb]. split; [done|]. split; [by rewrite Hdb|].
  rewrite NewRedisStorage_cases. cbv zeta.
  assert (Hk1 : bool_decide (is_Some (db (redis m1) !! k)) = false).
  { apply bool_decide_eq_false_2. rewrite Hdb, Hk. by intros [? ?]. }
  rewrite Hk1, Hs, length_app, Hf. cbn [length tail]. rewrite Nat.add_1_r.
  unfold Flush. cbn [faults fst snd]. eexists. split; [reflexivity|].
  cbn [with_store redis log]. by rewrite <- app_assoc.
Qed.

Lemma construction_without_expiry_leaves_no_key_witness :
  db (redis (machine_after (RedisStorage.NewRedisStorage "bf.1" 8 0) empty_machine)) =
  db (redis empty_machine).
Proof.
  apply (construction_without_expiry_leaves_no_key "bf.1" 8 0 8 0 empty_machine
           (machine_after (RedisStorage.NewRedisStorage "bf.1" 8 0) empty_machine)
           0%nat ltac:(right; lia) ltac:(vm_compute; reflexivity) ltac:(vm_compute; reflexivity)).
Defined.

(** ** A flush that is lost *)

Lemma exec_all_set_commands_prefix k q n d :
  exec_all (set_commands k q) (exec_all (set_commands k (take n q)) d) =
  exec_all (set_commands k q) d.
Proof.
  destruct (decide (q = [])) as [->|Hq]; [by rewrite take_nil|].
  destruct (decide (take n q = [])) as [->|Hn]; [reflexivity|].
  rewrite !exec_all_set_commands by done.
  rewrite lookup_insert_eq. cbn [default bits ttl].
  rewrite insert_insert_eq. do 2 f_equal.
  assert (list_to_set (take n q) ⊆@{gset Z} list_to_set q).
  { intros x. rewrite !elem_of_list_to_set. apply subseteq_take. }
  set_solver.
Qed.

(** [Save] has no result and drops the error of [Flush]: when the connection
    breaks during the flush, [Save] returns as if nothing had happened, with
    only the bits the server had applied stored. As the queue is kept, a
    second [Save] on a connection that works stores every queued bit: the
    database is then what one delivered [Save] would have left. *)
Theorem lost_Save_is_silent_and_can_be_retried (p : nat) (m : machine) (s : RedisStorage)
    (n : nat) (rest : list outcome) :
  stores m !! p = Some s -> queue s <> [] ->
  faults (redis m) = dropped n :: rest ->
  (forall n' rest', rest <> dropped n' :: rest') ->
  exists m1 m2,
    RedisStorage.Save p m = Some (tt, m1) /\ stores m1 = stores m /\
    db (redis m1) = exec_all (set_commands (key s) (take n (queue s))) (db (redis m)) /\
    RedisStorage.Save p m1 = Some (tt, m2) /\ stores m2 = stores m /\
    db (redis m2) = exec_all (set_commands (key s) (queue s)) (db (redis m)).
Proof.
  intros Hs Hq Hf Hrest.
  assert (H1 : RedisStorage.Save p m = Some (tt, flushed s m))
    by (apply RS_Save_Some; eauto).
  assert (E1 : flushed s m =
    Build_machine (hashers m) (stores m)
      (Build_server (exec_all (set_commands (key s) (take n (queue s))) (db (redis m)))
         (log (redis m) ++ set_commands (key s) (take n (queue s))) rest)).
  { unfold flushed. rewrite bool_decide_eq_false_2 by done.
    unfold Flush. rewrite Hf. cbn [snd]. unfold set_commands. by rewrite fmap_take. }
  set (m1 := flushed s m) in *.
  assert (Hs1 : stores m1 !! p = Some s) by (by rewrite E1).
  assert (H2 : RedisStorage.Save p m1 = Some (tt, flushed s m1))
    by (apply RS_Save_Some; eauto).
  exists m1, (flushed s m1). split; [done|]. split; [by rewrite E1|].
  split; [by rewrite E1|]. split; [done|].
  unfold flushed at 1 2. rewrite bool_decide_eq_false_2 by done. cbn [stores redis].
  split; [by rewrite E1|]. unfold Flush.
  assert (Hf1 : faults (redis m1) = rest) by (by rewrite E1).
  rewrite Hf1. destruct rest as [|[|n'] rest'].
  - cbn [snd db]. rewrite E1. cbn [redis db]. apply exec_all_set_commands_prefix.
  - cbn [snd db]. rewrite E1. cbn [redis db]. apply exec_all_set_commands_prefix.
  - by destruct (Hrest n' rest').
Qed.

Definition lost_Save_machine : machine :=
  Build_machine [] [Build_RedisStorage "bf.1" 8 [3; 5; 6]] (Build_server ∅ [] [dropped 1]).

Lemma lost_Save_is_silent_and_can_be_retried_witness :
  exists m1 m2,
    RedisStorage.Save 0 lost_Save_machine = Some (tt, m1) /\
    stores m1 = stores lost_Save_machine /\
    db (redis m1) = exec_all (set_commands "bf.1" [3]) ∅ /\
    RedisStorage.Save 0 m1 = Some (tt, m2) /\ stores m2 = stores lost_Save_machine /\
    db (redis m2) = exec_all (set_commands "bf.1" [3; 5; 6]) ∅.
Proof.
  apply (lost_Save_is_silent_and_can_be_retried 0 lost_Save_machine
           (Build_RedisStorage "bf.1" 8 [3; 5; 6]) 1 [] eq_refl
           ltac:(discriminate) eq_refl ltac:(discriminate)).
Defined.

(** ** The layout of the filters *)

Lemma NewRedis_storage_sizes (W oob : Z) (name : string) (size hashIter e : Z)
    (m m' : machine) (b : BF.BF) (ex : bool) :
  0 <= hashIter < 2 ^ W ->
  BF.NewRedis W oob name size hashIter e m = Some ((b, ex, None), m') ->
  forall f, f ∈ BF.filters b ->
    exists p s, BF.storage f = Some p /\ stores m' !! p = Some s /\
                RedisStorageT.size s = BF.size f.
Proof.
  intros Hk H f Hf. unfold BF.NewRedis in H.
  apply bind_Some in H as (fs & m0 & Hfs & H).
  rewrite filterSetup_spec in Hfs by done. injection Hfs as <- <-.
  apply NewRedis_loop_ok in H as [Hb Hs]; [|done]. rewrite take_0 in Hb.
  cbn [stores app] in Hb, Hs.
  rewrite Hb in Hf. apply list_elem_of_lookup in Hf as [j Hj].
  rewrite list_lookup_imap in Hj.
  destruct (_ !! j) as [g|] eqn:Hg; [|discriminate]. cbn in Hj. injection Hj as <-.
  eexists _, _. cbn [BF.storage BF.size]. split; [reflexivity|]. split.
  - rewrite Hs, lookup_app_r by lia.
    replace (length (stores m) + j - length (stores m))%nat with j by lia.
    rewrite list_lookup_fmap, Hg. reflexivity.
  - reflexivity.
Qed.

(** C7, as the code has it: for a count [hashIter] that a [uint] holds,
    [filterSetup] allocates one hasher and returns [hashIter] filters, all
    with that hasher, no storage, and the partition size
    [uint(math.Ceil(float64(size) / float64(hashIter)))], with the
    multipliers 1, 2, ... in order. The partition size is the ceiling of
    [size / hashIter] whenever both are below 2^53. [NewRedis] only fills in
    the storages, each of the size of its filter when no error is returned;
    the calls on the filter take the [BF] as it is and return no new one,
    and whatever calls come later, the storages keep their key and size and
    no other hasher is made. *)
Theorem filterSetup_layout (W oob size hashIter : Z) (m : machine) :
  0 <= hashIter < 2 ^ W ->
  exists fs,
    BF.filterSetup W oob size hashIter m =
      Some (fs, Build_machine (hashers m ++ [fnv.New64]) (stores m) (redis m)) /\
    Z.of_nat (length fs) = hashIter /\
    BF.multiplier <$> fs = seqZ 1 hashIter /\
    (forall f, f ∈ fs ->
       BF.size f =
         float64.to_uint W oob
           (float64.Ceil (float64.div (float64.of_uint size) (float64.of_uint hashIter))) /\
       BF.hasher f = length (hashers m) /\ BF.storage f = None) /\
    (0 <= size < 2 ^ 53 -> 0 < hashIter < 2 ^ 53 -> size < 2 ^ W ->
     forall f, f ∈ fs -> BF.size f = (size + hashIter - 1) / hashIter) /\
    (forall name e b ex err m',
       BF.NewRedis W oob name size hashIter e m = Some ((b, ex, err), m') ->
       layout <$> BF.filters b = layout <$> fs /\
       (err = None ->
        forall f, f ∈ BF.filters b ->
          exists p s, BF.storage f = Some p /\ stores m' !! p = Some s /\
                      RedisStorageT.size s = BF.size f) /\
       forall calls m'', run_calls W b calls m' = Some (tt, m'') ->
         length (hashers m'') = length (hashers m') /\
         forall p s, stores m' !! p = Some s ->
           exists s', stores m'' !! p = Some s' /\ key s' = key s /\
                      RedisStorageT.size s' = RedisStorageT.size s).
Proof.
  intros H. eexists. split; [by apply filterSetup_spec|].
  split; [rewrite length_fmap, length_seqZ; lia|].
  split; [rewrite <- list_fmap_compose; apply list_fmap_id|].
  split; [|split].
  - intros f Hf. apply list_elem_of_fmap in Hf as (i & -> & _). done.
  - intros Hs Hk HW f Hf. apply list_elem_of_fmap in Hf as (i & -> & _).
    cbn [BF.size]. by apply partitionSize_ceiling.
  - intros name e b ex err m' Hn. split; [|split].
    + unfold BF.NewRedis in Hn.
      apply bind_Some in Hn as (fs & m1 & Hfs & Hn).
      rewrite filterSetup_spec in Hfs by done. injection Hfs as <- <-.
      by apply NewRedis_loop_layout in Hn.
    + intros ->. by eapply NewRedis_storage_sizes.
    + intros calls m'' Hc. apply preserves_run_calls in Hc as [Hh _ Hst _ _].
      split; [done|]. intros p s Hp.
      destruct (Hst p s Hp) as (s' & Hs' & Hk & Hz & _). by exists s'.
Qed.

Lemma filterSetup_layout_witness :
  exists fs,
    BF.filterSetup 64 0 1000 3 empty_machine =
      Some (fs, Build_machine [fnv.New64] [] (Build_server ∅ [] [])) /\
    Z.of_nat (length fs) = 3 /\
    BF.multiplier <$> fs = [1; 2; 3] /\
    (forall f, f ∈ fs -> BF.size f = 334 /\ BF.hasher f = 0%nat /\ BF.storage f = None).
Proof.
  destruct (filterSetup_layout 64 0 1000 3 empty_machine ltac:(lia))
    as (fs & H1 & H2 & H3 & H4 & H5 & _).
  exists fs. split; [exact H1|]. split; [exact H2|]. split; [exact H3|].
  intros f Hf. split; [apply (H5 ltac:(lia) ltac:(lia) ltac:(lia) f Hf)|].
  apply (H4 f Hf).
Defined.

(** C7, as the claim states it, fails: for [size = 3 * 2 ^ 52 + 4] and three
    hash iterations the float64 quotient rounds down to [2 ^ 52 + 1], which
    is the partition size of every filter, while the ceiling of the exact
    quotient is [2 ^ 52 + 2]. *)
Lemma partition_size_not_exact :
  (fun r : list BF.filter * machine => BF.size <$> fst r) <$> BF.filterSetup 64 0 (3 * 2 ^ 52 + 4) 3 empty_machine =
    Some [2 ^ 52 + 1; 2 ^ 52 + 1; 2 ^ 52 + 1] /\
  (3 * 2 ^ 52 + 4 + 3 - 1) / 3 = 2 ^ 52 + 2.
Proof. split; vm_compute; reflexivity. Qed.
